(** * ConversorcsvRDF: the graph model, filter and layout engine

    A shallow embedding of [src/components/graph-visualization.tsx].

    - JavaScript numbers that hold coordinates, velocities and the zoom scale
      are IEEE-754 binary64 values: Rocq's primitive [float].
    - Counters ([connections], slider values, array indices) are integers and
      are kept in [Z] / [nat]; they stay far below 2^53, where binary64
      arithmetic on integers is exact.
    - Strings are sequences of code units ([string]); a code unit is one
      of the first 256, which is the alphabet of [string].
    - Node objects are shared between the arrays [allNodes], [visibleNodes]
      and the [Map] of the builder, and are mutated in place by the layout and
      by the force simulation.  They live in a store ([heap]) and arrays hold
      references ([loc]) into it.  Edge objects are never written after
      creation and are kept as values. *)

From Stdlib Require Import ZArith QArith Qminmax Qabs Qpower Lqa String Ascii List Bool Lia.
From Stdlib Require Import Floats.
From Stdlib Require Import DecimalString DecimalNat DecimalFacts Permutation Sorted.
From stdpp Require Import base list strings gmap.
Import ListNotations.
Set Warnings "-inexact-float".

(* ===================================================================== *)
(** ** JavaScript numbers *)

Module JsNumber.
Open Scope float_scope.

(** [Math.min] / [Math.max] of two arguments: NaN is contagious and
    [-0] is smaller than [+0]. *)
Definition Math_min (a b : float) : float :=
  if is_nan a || is_nan b then nan
  else if a <? b then a
  else if b <? a then b
  else if is_zero a && get_sign a then a else b.

Definition Math_max (a b : float) : float :=
  if is_nan a || is_nan b then nan
  else if b <? a then a
  else if a <? b then b
  else if is_zero a && negb (get_sign a) then a else b.

(** [Math.PI] *)
Definition Math_PI : float := 0x1.921fb54442d18p+1.

(** An array index or length as a number. *)
Definition of_nat (n : nat) : float := of_uint63 (Uint63.of_Z (Z.of_nat n)).

(** [v || 0] for an optional numeric field: [undefined], [NaN], [+0] and [-0]
    are falsy. *)
Definition orZero (v : option float) : float :=
  match v with
  | Some f => if is_nan f || is_zero f then 0 else f
  | None => 0
  end.

(** [v += e] on an optional numeric field: [undefined + e] is [NaN]. *)
Definition plusAssign (v : option float) (e : float) : option float :=
  Some (match v with Some f => f | None => nan end + e).

Definition inRange (lo hi x : float) : bool := (lo <=? x) && (x <=? hi).

End JsNumber.

(* ===================================================================== *)
(** ** JavaScript strings *)

Module JsString.
Open Scope string_scope.

(** [String(index)] for a non-negative integer index. *)
Definition ofIndex (n : nat) : string := NilZero.string_of_uint (Nat.to_uint n).

(** [s.split(sep)] for a one-character separator. *)
Fixpoint split (sep : ascii) (s : string) : list string :=
  match s with
  | EmptyString => [EmptyString]
  | String c s' =>
      if Ascii.eqb c sep then EmptyString :: split sep s'
      else match split sep s' with
           | h :: t => String c h :: t
           | [] => [String c EmptyString]
           end
  end.

(** [arr.pop()] read as a value: the last element, if any. *)
Definition pop (l : list string) : option string := List.last (map Some l) None.

(** [a || b] on strings: the empty string and [undefined] are falsy. *)
Definition orElse (a : option string) (b : string) : string :=
  match a with
  | Some EmptyString | None => b
  | Some s => s
  end.

(** [s.substring(0, n)] *)
Fixpoint substring0 (n : nat) (s : string) : string :=
  match n, s with
  | S n', String c s' => String c (substring0 n' s')
  | _, _ => EmptyString
  end.

Fixpoint startsWith (p s : string) : bool :=
  match p, s with
  | EmptyString, _ => true
  | String a p', String b s' => Ascii.eqb a b && startsWith p' s'
  | String _ _, EmptyString => false
  end.

(** [s.includes(t)] *)
Fixpoint includes (s t : string) : bool :=
  startsWith t s ||
  match s with
  | EmptyString => false
  | String _ s' => includes s' t
  end.

(** [s.toLowerCase()], code unit by code unit.  Among the code units below
    256 the upper-case letters are [A]-[Z] (65-90) and the accented capitals
    192-222 without the multiplication sign (215); each has its lower-case
    letter 32 places further.  Every other code unit is kept: the digits and
    signs, the lower-case letters, and 223 and 255, the two lower-case
    letters whose capitals lie above 255. *)
Definition isUpper (n : nat) : bool :=
  ((65 <=? n)%nat && (n <=? 90)%nat) ||
  ((192 <=? n)%nat && (n <=? 222)%nat && negb (n =? 215)%nat).

Definition lowerUnit (c : ascii) : ascii :=
  let n := nat_of_ascii c in
  if isUpper n then ascii_of_nat (n + 32) else c.

Fixpoint toLowerCase (s : string) : string :=
  match s with
  | EmptyString => EmptyString
  | String c s' => String (lowerUnit c) (toLowerCase s')
  end.

Definition contains (c : ascii) (s : string) : Prop :=
  exists a b, s = a ++ String c b.

Fixpoint hasChar (c : ascii) (s : string) : bool :=
  match s with
  | EmptyString => false
  | String a s' => Ascii.eqb a c || hasChar c s'
  end.

(** The text after the last [c] of [s]; all of [s] when [c] does not occur. *)
Fixpoint afterLast (c : ascii) (s : string) : string :=
  match s with
  | EmptyString => EmptyString
  | String a s' =>
      if hasChar c s' then afterLast c s'
      else if Ascii.eqb a c then s' else s
  end.

End JsString.

(* ===================================================================== *)
(** ** Data model *)

Module Triplet.
Record t := mk {
  subject : string;
  predicate : string;
  object : string;
  dataType : option string
}.
End Triplet.

Inductive NodeType := subject | object.

Definition NodeType_name (ty : NodeType) : string :=
  match ty with subject => "subject" | object => "object" end.

Definition NodeType_eqb (a b : NodeType) : bool :=
  match a, b with
  | subject, subject | object, object => true
  | _, _ => false
  end.

Module Node.
Record t := mk {
  id : string;
  label : string;
  type : NodeType;
  x : float;
  y : float;
  vx : option float;
  vy : option float;
  connections : Z;
  visible : bool;
  clusterId : option string
}.

Definition set_connections (c : Z) (n : t) : t :=
  mk (id n) (label n) (type n) (x n) (y n) (vx n) (vy n) c (visible n) (clusterId n).
Definition set_xy (px py : float) (n : t) : t :=
  mk (id n) (label n) (type n) px py (vx n) (vy n) (connections n) (visible n)
     (clusterId n).
Definition set_v (pvx pvy : option float) (n : t) : t :=
  mk (id n) (label n) (type n) (x n) (y n) pvx pvy (connections n) (visible n)
     (clusterId n).

(** Everything of a node except its position. *)
Definition sameButPosition (a b : t) : Prop :=
  id a = id b /\ label a = label b /\ type a = type b /\ vx a = vx b /\
  vy a = vy b /\ connections a = connections b /\ visible a = visible b /\
  clusterId a = clusterId b.

(** Everything of a node except its velocity. *)
Definition sameButVelocity (a b : t) : Prop :=
  id a = id b /\ label a = label b /\ type a = type b /\ x a = x b /\
  y a = y b /\ connections a = connections b /\ visible a = visible b /\
  clusterId a = clusterId b.
End Node.

Module Edge.
Record t := mk {
  source : string;
  target : string;
  label : string;
  predicate : string;
  visible : bool;
  weight : Z
}.
End Edge.

Inductive LayoutType := force | circular | hierarchical | grid.

Module GraphFilters.
Record t := mk {
  predicates : list string;
  nodeTypes : list string;
  minConnections : Z;
  maxConnections : Z;
  showLabels : bool;
  showIsolatedNodes : bool;
  clusterByPredicate : bool;
  layoutType : LayoutType;
  maxNodes : Z;
  searchTerm : string
}.

Definition set_predicates (ps : list string) (f : t) : t :=
  mk ps (nodeTypes f) (minConnections f) (maxConnections f) (showLabels f)
     (showIsolatedNodes f) (clusterByPredicate f) (layoutType f) (maxNodes f)
     (searchTerm f).

(** The initial value of the [filters] state. *)
Definition initial : t :=
  mk [] ["subject"%string; "object"%string] 0 100 true true false force 50 "".
End GraphFilters.

(** References to node objects, and the store they point into. *)
Abbreviation loc := nat (only parsing).
Abbreviation heap := (list Node.t).

(** [arr.includes(s)] on an array of strings. *)
Definition includesStr (l : list string) (s : string) : bool :=
  existsb (String.eqb s) l.

(** [arr.forEach((a, index) => ...)] threading the state the callback
    writes to. *)
Fixpoint forEachIdx {A S : Type} (f : A -> nat -> S -> S) (l : list A) (i : nat)
    (s : S) : S :=
  match l with
  | [] => s
  | a :: l' => forEachIdx f l' (Datatypes.S i) (f a i s)
  end.

Definition forEach {A S : Type} (f : A -> S -> S) (l : list A) (s : S) : S :=
  forEachIdx (fun a _ => f a) l 0 s.

(** Reading a field through a reference. *)
Definition onNode {A : Type} (h : heap) (d : A) (k : Node.t -> A) (l : loc) : A :=
  match h !! l with
  | Some n => k n
  | None => d
  end.

(** A [Set<string>] in insertion order. *)
Definition set_add (s : string) (l : list string) : list string :=
  if includesStr l s then l else l ++ [s].

(** A [Map<string, Node>] in insertion order: keys with references. *)
Module NodeMap.
Definition t := list (string * loc).
Definition has (m : t) (k : string) : bool :=
  existsb (fun e => String.eqb (fst e) k) m.
Definition get (m : t) (k : string) : option loc :=
  snd <$> List.find (fun e => String.eqb (fst e) k) m.
Definition set (m : t) (k : string) (v : loc) : t :=
  if has m k
  then map (fun e => if String.eqb (fst e) k then (k, v) else e) m
  else m ++ [(k, v)].
Definition values (m : t) : list loc := map snd m.
End NodeMap.

(** [Array.prototype.sort(cmp)]: a stable sort; [cmp a b < 0] puts [a]
    first.  Written as the insertion sort that takes the elements from the
    right, so that among equal elements the earlier one stays first. *)
Section Sort.
Context {A : Type} (cmp : A -> A -> Z).

Fixpoint insertSorted (a : A) (l : list A) : list A :=
  match l with
  | [] => [a]
  | b :: l' => if (cmp b a <? 0)%Z then b :: insertSorted a l' else a :: l
  end.

Fixpoint sort (l : list A) : list A :=
  match l with
  | [] => []
  | a :: l' => insertSorted a (sort l')
  end.
End Sort.

(** [arr.slice(0, end)] for an integer [end]: a negative [end] counts from
    the back. *)
Definition slice0 {A : Type} (end_ : Z) (l : list A) : list A :=
  let len := Z.of_nat (length l) in
  let final := if (end_ <? 0)%Z then Z.max (len + end_) 0 else Z.min end_ len in
  take (Z.to_nat final) l.

(* ===================================================================== *)
(** ** The zoom factor in exact arithmetic *)

Module Exact.
Open Scope Q_scope.

(** [(6/5)^k]: what [k] zoom steps multiply or divide the scale by when
    nothing is rounded and no bound is met. *)
Fixpoint factor (k : nat) : Q :=
  match k with
  | O => 1
  | S k' => factor k' * (6 # 5)
  end.

End Exact.

(* ===================================================================== *)
(** ** Platform functions

    What the component takes from the JavaScript engine: the [n]-th result of
    [Math.random()], and the implementation-approximated [Math.cos] and
    [Math.sin]. *)

Class Platform := {
  Math_random : nat -> float;
  Math_cos : float -> float;
  Math_sin : float -> float
}.

(* ===================================================================== *)
(** ** A sample platform

    Concrete platform functions to run the component on examples: a
    counter-based generator with values in [[0, 1)], and cosine and sine by
    their power series after reduction to [[-pi, pi]]. *)

Module Sample.
Open Scope float_scope.

Definition random (n : nat) : float :=
  JsNumber.of_nat ((n * 37 + 11) mod 64) / 64.

Definition reduce (a : float) : float :=
  if JsNumber.Math_PI <? a then a - 2 * JsNumber.Math_PI else a.

Fixpoint cosSeries (fuel : nat) (j x2 : float) : float :=
  match fuel with
  | O => 1
  | S fuel' => 1 - x2 / ((2 * j - 1) * (2 * j)) * cosSeries fuel' (j + 1) x2
  end.

Fixpoint sinSeries (fuel : nat) (j x2 : float) : float :=
  match fuel with
  | O => 1
  | S fuel' => 1 - x2 / ((2 * j) * (2 * j + 1)) * sinSeries fuel' (j + 1) x2
  end.

Definition cos (a : float) : float :=
  let r := reduce a in cosSeries 12 1 (r * r).
Definition sin (a : float) : float :=
  let r := reduce a in r * sinSeries 12 1 (r * r).

Definition platform : Platform :=
  {| Math_random := random; Math_cos := cos; Math_sin := sin |}.

End Sample.

(** Classes of binary64 values in their specification form. *)
Definition sf_nan (s : spec_float) : bool :=
  match s with S754_nan => true | _ => false end.
Definition sf_fin (s : spec_float) : bool :=
  match s with S754_zero _ | S754_finite _ _ _ => true | _ => false end.

(** Zero, or finite and positive. *)
Definition sf_pos (s : spec_float) : bool :=
  match s with
  | S754_zero _ | S754_finite false _ _ => true
  | _ => false
  end.

(** [m * 2^e] as a rational number. *)
Definition scaled (m e : Z) : Q := (inject_Z m * 2 ^ e)%Q.

(** The rational number that a binary64 value is: sign, mantissa and
    exponent read as [+-m * 2^e].  NaN and the infinities, which are no
    numbers, are given 0. *)
Definition sf_value (s : spec_float) : Q :=
  match s with
  | S754_finite sg m e => ((if sg then -1 else 1) * (inject_Z (Z.pos m) * 2 ^ e))%Q
  | _ => 0%Q
  end.

Definition valueOf (x : float) : Q := sf_value (Prim2SF x).

(** How many different subject values a batch has. *)
Definition distinctSubjects (triplets : list Triplet.t) : nat :=
  length (nodup string_dec (map Triplet.subject triplets)).

(** The test for a URI that [shortenUri] uses. *)
Definition uriShaped (s : string) : bool :=
  JsString.startsWith "http://" s || JsString.startsWith "https://" s.

(** [a] stands before [b] in the list [l]. *)
Definition before {A : Type} (l : list A) (a b : A) : Prop :=
  exists i j : nat, l !! i = Some a /\ l !! j = Some b /\ (i < j)%nat.

(** [a] ranks above [b]: a larger key, or the same key and an earlier place
    in [l]. *)
Definition ranksAbove {A : Type} (key : A -> Z) (l : list A) (a b : A) : Prop :=
  (key b < key a)%Z \/ (key a = key b /\ before l a b).

(** Some node referenced from [nodes] has the given id. *)
Definition idPresent (h : list Node.t) (nodes : list nat) (id : string) : Prop :=
  exists l n, In l nodes /\ h !! l = Some n /\ Node.id n = id.

(** The position of a node. *)
Definition position (n : Node.t) : float * float := (Node.x n, Node.y n).

(* ===================================================================== *)
(** ** The component *)

Record State := mkState {
  heap_of : heap;
  allNodes : list loc;
  allEdges : list Edge.t;
  visibleNodes : list loc;
  visibleEdges : list Edge.t;
  scale : float;
  isAnimating : bool;
  filters : GraphFilters.t;
  availablePredicates : list string;
  draws : nat            (* how many times [Math.random] has been called *)
}.

(** The state after mounting: the initial values of the [useState] hooks. *)
Definition initialState : State :=
  mkState [] [] [] [] [] 1%float false GraphFilters.initial [] 0.

Section Component.

Context {platform : Platform}.

(* --------------------------------------------------------------------- *)
(** *** Graph builder (the effect on [triplets]) *)

Record Builder := mkBuilder {
  b_heap : heap;
  nodeMap : NodeMap.t;
  edgeList : list Edge.t;
  predicateSet : list string;
  b_draws : nat
}.

Definition objectId (triplet : Triplet.t) (index : nat) : string :=
  (Triplet.object triplet ++ "_" ++ JsString.ofIndex index)%string.

Definition subjectLabel (s : string) : string :=
  JsString.orElse (JsString.pop (JsString.split "/" s)) s.

Definition objectLabel (o : string) : string :=
  if (20 <? String.length o)%nat
  then (JsString.substring0 20 o ++ "...")%string
  else o.

Definition edgeLabel (p : string) : string :=
  JsString.orElse (JsString.pop (JsString.split "/" p)) p.

(** [if (!nodeMap.has(key)) nodeMap.set(key, { ... })] *)
Definition addNode (key label : string) (ty : NodeType) (cluster : string)
    (b : Builder) : Builder :=
  if NodeMap.has (nodeMap b) key then b
  else
    let px := (Math_random (b_draws b) * 400)%float in
    let py := (Math_random (Datatypes.S (b_draws b)) * 400)%float in
    let node := Node.mk key label ty px py None None 0 true (Some cluster) in
    mkBuilder (b_heap b ++ [node])
              (NodeMap.set (nodeMap b) key (length (b_heap b)))
              (edgeList b) (predicateSet b) (2 + b_draws b).

(** [nodeMap.get(key)!.connections++] *)
Definition increment (key : string) (b : Builder) : Builder :=
  match NodeMap.get (nodeMap b) key with
  | Some l =>
      mkBuilder
        (alter (fun n => Node.set_connections (Node.connections n + 1) n) l (b_heap b))
        (nodeMap b) (edgeList b) (predicateSet b) (b_draws b)
  | None => b
  end.

Definition pushEdge (e : Edge.t) (b : Builder) : Builder :=
  mkBuilder (b_heap b) (nodeMap b) (edgeList b ++ [e]) (predicateSet b) (b_draws b).

Definition addPredicate (p : string) (b : Builder) : Builder :=
  mkBuilder (b_heap b) (nodeMap b) (edgeList b) (set_add p (predicateSet b))
            (b_draws b).

(** The edge object pushed for a triplet. *)
Definition edgeOf (triplet : Triplet.t) (index : nat) : Edge.t :=
  Edge.mk (Triplet.subject triplet) (objectId triplet index)
          (edgeLabel (Triplet.predicate triplet))
          (Triplet.predicate triplet) true 1.

(** The reading of an edge label as "the final path segment when the
    predicate has the shape of a URI, the whole predicate otherwise", for a
    given test of that shape. *)
Definition labelFollowsShape (shaped : string -> bool) : Prop :=
  forall (t : Triplet.t) (index : nat),
    Edge.label (edgeOf t index)
    = if shaped (Triplet.predicate t)
      then JsString.afterLast "/" (Triplet.predicate t)
      else Triplet.predicate t.

(** The body of [triplets.forEach((triplet, index) => ...)]. *)
Definition buildStep (triplet : Triplet.t) (index : nat) (b : Builder) : Builder :=
  let b := addPredicate (Triplet.predicate triplet) b in
  let b := addNode (Triplet.subject triplet) (subjectLabel (Triplet.subject triplet))
                   subject (Triplet.predicate triplet) b in
  let oid := objectId triplet index in
  let b := addNode oid (objectLabel (Triplet.object triplet)) object
                   (Triplet.predicate triplet) b in
  let b := increment (Triplet.subject triplet) b in
  let b := increment oid b in
  pushEdge (edgeOf triplet index) b.

Definition buildGraph (triplets : list Triplet.t) (h : heap) (d : nat) : Builder :=
  forEachIdx buildStep triplets 0 (mkBuilder h [] [] [] d).

(** The effect that runs when [triplets] changes. *)
Definition buildEffect (triplets : list Triplet.t) (st : State) : State :=
  if (length triplets =? 0)%nat then st
  else
    let b := buildGraph triplets (heap_of st) (draws st) in
    mkState (b_heap b) (NodeMap.values (nodeMap b)) (edgeList b)
            (visibleNodes st) (visibleEdges st) (scale st) (isAnimating st)
            (GraphFilters.set_predicates (predicateSet b) (filters st))
            (predicateSet b) (b_draws b).

(** [shortenUri], the helper the filter panel shows predicates with. *)
Definition shortenUri (uri : string) : string :=
  if uriShaped uri
  then JsString.orElse (JsString.pop (JsString.split "/" uri)) uri
  else uri.

(* --------------------------------------------------------------------- *)
(** *** Layouts *)

Definition setPosition (px py : float) (l : loc) (h : heap) : heap :=
  alter (Node.set_xy px py) l h.

Definition circularPosition (index n : nat) : float * float :=
  let angle := (2 * JsNumber.Math_PI * JsNumber.of_nat index / JsNumber.of_nat n)%float in
  ((200 + 150 * Math_cos angle)%float, (200 + 150 * Math_sin angle)%float).

Definition gridPosition (index n : nat) : float * float :=
  let cols := Nat.sqrt_up n in
  ((JsNumber.of_nat (index mod cols) * 80 + 50)%float,
   (JsNumber.of_nat (index / cols) * 80 + 50)%float).

Definition bandPosition (band : float) (index : nat) : float * float :=
  ((JsNumber.of_nat ((index * 100) mod 400) + 50)%float, band).

Definition place (pos : nat -> float * float) (nodes : list loc) (h : heap) : heap :=
  forEachIdx (fun l index => setPosition (fst (pos index)) (snd (pos index)) l)
             nodes 0 h.

Definition ofType (h : heap) (ty : NodeType) (nodes : list loc) : list loc :=
  List.filter (onNode h false (fun n => NodeType_eqb (Node.type n) ty)) nodes.

Definition applyLayout (nodes : list loc) (edges : list Edge.t)
    (layoutType : LayoutType) (h : heap) : heap :=
  match layoutType with
  | circular => place (fun index => circularPosition index (length nodes)) nodes h
  | grid => place (fun index => gridPosition index (length nodes)) nodes h
  | hierarchical =>
      let subjects := ofType h subject nodes in
      let objects := ofType h object nodes in
      place (bandPosition 300) objects (place (bandPosition 100) subjects h)
  | force => h
  end.

(** A layout as the sequence of position writes it performs, and what such a
    sequence does to a single node. *)
Definition writes (pos : nat -> float * float) (from : nat) (nodes : list loc)
    : list (loc * (float * float)) :=
  imap (fun j l => (l, pos (from + j))) nodes.

Definition runWrites (ws : list (loc * (float * float))) (h : heap) : heap :=
  foldl (fun h w => setPosition (fst (snd w)) (snd (snd w)) (fst w) h) h ws.

Definition finalOf (ws : list (loc * (float * float))) (l : loc) (n : Node.t)
    : Node.t :=
  foldl (fun n w => if decide (fst w = l)
                    then Node.set_xy (fst (snd w)) (snd (snd w)) n else n) n ws.

Definition layoutWrites (nodes : list loc) (layoutType : LayoutType) (h : heap)
    : list (loc * (float * float)) :=
  match layoutType with
  | circular => writes (fun index => circularPosition index (length nodes)) 0 nodes
  | grid => writes (fun index => gridPosition index (length nodes)) 0 nodes
  | hierarchical =>
      writes (bandPosition 100) 0 (ofType h subject nodes)
      ++ writes (bandPosition 300) 0 (ofType h object nodes)
  | force => []
  end.

(* --------------------------------------------------------------------- *)
(** *** Filter engine (the effect on [allNodes], [allEdges], [filters]) *)

(** The callback of [allNodes.filter]: role, degree range, search term. *)
Definition keepNode (f : GraphFilters.t) (node : Node.t) : bool :=
  if negb (includesStr (GraphFilters.nodeTypes f) (NodeType_name (Node.type node)))
  then false
  else if (Node.connections node <? GraphFilters.minConnections f)%Z
          || (GraphFilters.maxConnections f <? Node.connections node)%Z
  then false
  else if negb (String.eqb (GraphFilters.searchTerm f) "")
          && negb (JsString.includes
                     (JsString.toLowerCase (Node.label node))
                     (JsString.toLowerCase (GraphFilters.searchTerm f)))
  then false
  else true.

Definition filterNodes (f : GraphFilters.t) (h : heap) (nodes : list loc) : list loc :=
  List.filter (onNode h false (keepNode f)) nodes.

(** [nodes.some((n) => n.id === id)] *)
Definition someId (h : heap) (nodes : list loc) (id : string) : bool :=
  existsb (onNode h false (fun n => String.eqb (Node.id n) id)) nodes.

(** The callback of [allEdges.filter]. *)
Definition keepEdge (f : GraphFilters.t) (h : heap) (nodes : list loc)
    (edge : Edge.t) : bool :=
  if negb (includesStr (GraphFilters.predicates f) (Edge.predicate edge)) then false
  else
    let sourceVisible := someId h nodes (Edge.source edge) in
    let targetVisible := someId h nodes (Edge.target edge) in
    sourceVisible && targetVisible.

Definition filterEdges (f : GraphFilters.t) (h : heap) (nodes : list loc)
    (edges : list Edge.t) : list Edge.t :=
  List.filter (keepEdge f h nodes) edges.

Definition connectedNodeIds (edges : list Edge.t) : list string :=
  forEach (fun edge ids => set_add (Edge.target edge) (set_add (Edge.source edge) ids))
          edges [].

(** [if (!filters.showIsolatedNodes) ...] *)
Definition dropIsolated (f : GraphFilters.t) (h : heap) (edges : list Edge.t)
    (nodes : list loc) : list loc :=
  if negb (GraphFilters.showIsolatedNodes f)
  then List.filter (onNode h false (fun n => includesStr (connectedNodeIds edges) (Node.id n)))
                   nodes
  else nodes.

(** The nodes and edges that reach the node cap. *)
Definition survivingNodes (f : GraphFilters.t) (h : heap) (nodes : list loc)
    (edges : list Edge.t) : list loc :=
  let filteredNodes := filterNodes f h nodes in
  dropIsolated f h (filterEdges f h filteredNodes edges) filteredNodes.

Definition survivingEdges (f : GraphFilters.t) (h : heap) (nodes : list loc)
    (edges : list Edge.t) : list Edge.t :=
  filterEdges f h (filterNodes f h nodes) edges.

(** The comparator [(a, b) => b.connections - a.connections]. *)
Definition degree (h : heap) (l : loc) : Z := onNode h 0%Z Node.connections l.
Definition byConnections (h : heap) (a b : loc) : Z := (degree h b - degree h a)%Z.

Definition visibleNodeIds (h : heap) (nodes : list loc) : list string :=
  forEach (fun l ids => onNode h ids (fun n => set_add (Node.id n) ids) l) nodes [].

(** [if (filteredNodes.length > filters.maxNodes) ...] *)
Definition capNodes (f : GraphFilters.t) (h : heap) (nodes : list loc)
    (edges : list Edge.t) : list loc * list Edge.t :=
  if (GraphFilters.maxNodes f <? Z.of_nat (length nodes))%Z then
    let sorted := sort (byConnections h) nodes in
    let kept := slice0 (GraphFilters.maxNodes f) sorted in
    let ids := visibleNodeIds h kept in
    (kept,
     List.filter (fun edge => includesStr ids (Edge.source edge)
                              && includesStr ids (Edge.target edge)) edges)
  else (nodes, edges).

Definition filterEffect (st : State) : State :=
  let f := filters st in
  let h := heap_of st in
  let nodes := survivingNodes f h (allNodes st) (allEdges st) in
  let edges := survivingEdges f h (allNodes st) (allEdges st) in
  let '(filteredNodes, filteredEdges) := capNodes f h nodes edges in
  mkState (applyLayout filteredNodes filteredEdges (GraphFilters.layoutType f) h)
          (allNodes st) (allEdges st) filteredNodes filteredEdges
          (scale st) (isAnimating st) f (availablePredicates st) (draws st).

(* --------------------------------------------------------------------- *)
(** *** Force simulation *)

Definition distance (dx dy : float) : float := sqrt (dx * dx + dy * dy)%float.

(** Friction, then the pull towards the centre. *)
Definition damp (node : Node.t) : Node.t :=
  let vx := Some (JsNumber.orZero (Node.vx node) * 0.9)%float in
  let vy := Some (JsNumber.orZero (Node.vy node) * 0.9)%float in
  let centerForce := 0.01%float in
  Node.set_v (JsNumber.plusAssign vx ((200 - Node.x node) * centerForce)%float)
             (JsNumber.plusAssign vy ((200 - Node.y node) * centerForce)%float)
             node.

(** The body of the inner [nodes.forEach((other) => ...)]. *)
Definition repel (other node : Node.t) : Node.t :=
  if negb (String.eqb (Node.id node) (Node.id other)) then
    let dx := (Node.x node - Node.x other)%float in
    let dy := (Node.y node - Node.y other)%float in
    let d := distance dx dy in
    if (d <? 100)%float && (0 <? d)%float then
      let force := (50 / (d * d))%float in
      Node.set_v (JsNumber.plusAssign (Node.vx node) (dx / d * force)%float)
                 (JsNumber.plusAssign (Node.vy node) (dy / d * force)%float)
                 node
    else node
  else node.

Definition repelFrom (l o : loc) (h : heap) : heap :=
  match h !! l, h !! o with
  | Some node, Some other => <[l := repel other node]> h
  | _, _ => h
  end.

Definition applyForces (nodes : list loc) (l : loc) (h : heap) : heap :=
  forEach (repelFrom l) nodes (alter damp l h).

(** [nodes.find((n) => n.id === id)] *)
Definition findId (h : heap) (nodes : list loc) (id : string) : option loc :=
  List.find (onNode h false (fun n => String.eqb (Node.id n) id)) nodes.

Definition pull (fx fy : float) (n : Node.t) : Node.t :=
  Node.set_v (Some (JsNumber.orZero (Node.vx n) + fx)%float)
             (Some (JsNumber.orZero (Node.vy n) + fy)%float) n.

Definition push (fx fy : float) (n : Node.t) : Node.t :=
  Node.set_v (Some (JsNumber.orZero (Node.vx n) - fx)%float)
             (Some (JsNumber.orZero (Node.vy n) - fy)%float) n.

(** The body of [edges.forEach((edge) => ...)]. *)
Definition attract (nodes : list loc) (edge : Edge.t) (h : heap) : heap :=
  match findId h nodes (Edge.source edge), findId h nodes (Edge.target edge) with
  | Some s, Some t =>
      match h !! s, h !! t with
      | Some source, Some target =>
          let dx := (Node.x target - Node.x source)%float in
          let dy := (Node.y target - Node.y source)%float in
          let d := distance dx dy in
          if (0 <? d)%float then
            let force := 0.02%float in
            let fx := (dx / d * force)%float in
            let fy := (dy / d * force)%float in
            alter (push fx fy) t (alter (pull fx fy) s h)
          else h
      | _, _ => h
      end
  | _, _ => h
  end.

Definition clamp (v : float) : float :=
  JsNumber.Math_max 20 (JsNumber.Math_min 380 v).

(** The body of the last [nodes.forEach((node) => ...)]. *)
Definition integrate (node : Node.t) : Node.t :=
  let x := (Node.x node + JsNumber.orZero (Node.vx node))%float in
  let y := (Node.y node + JsNumber.orZero (Node.vy node))%float in
  Node.set_xy (clamp x) (clamp y) node.

Definition tick (nodes : list loc) (edges : list Edge.t) (h : heap) : heap :=
  let h := forEach (applyForces nodes) nodes h in
  let h := forEach (attract nodes) edges h in
  forEach (alter integrate) nodes h.

Definition isForce (l : LayoutType) : bool :=
  match l with force => true | _ => false end.

(** One call of [runForceSimulation]; the request for the next animation
    frame is left to the scheduler. *)
Definition runForceSimulation (st : State) : State :=
  if negb (isForce (GraphFilters.layoutType (filters st))) || negb (isAnimating st)
  then st
  else
    let nodes := visibleNodes st in
    mkState (tick nodes (visibleEdges st) (heap_of st))
            (allNodes st) (allEdges st) nodes (visibleEdges st)
            (scale st) (isAnimating st) (filters st) (availablePredicates st)
            (draws st).

(* --------------------------------------------------------------------- *)
(** *** Zoom *)

Definition setScale (f : float -> float) (st : State) : State :=
  mkState (heap_of st) (allNodes st) (allEdges st) (visibleNodes st)
          (visibleEdges st) (f (scale st)) (isAnimating st) (filters st)
          (availablePredicates st) (draws st).

Definition zoomIn : State -> State :=
  setScale (fun prev => JsNumber.Math_min (prev * 1.2)%float 3).
Definition zoomOut : State -> State :=
  setScale (fun prev => JsNumber.Math_max (prev / 1.2)%float 0.3).

End Component.

(* ===================================================================== *)
(** ** The component on concrete inputs *)

(** The batch of the scenario: two subjects, three facts; and the graph the
    builder makes of it on the sample platform. *)
Definition scenario : list Triplet.t :=
  [Triplet.mk "A" "http://example.org/p1" "x" None;
   Triplet.mk "A" "p2" "an object literal of more than twenty characters" None;
   Triplet.mk "B" "http://example.org/p1" "x" None].

Definition built : State := buildEffect (platform := Sample.platform) scenario initialState.

Definition withFilters (f : GraphFilters.t) (st : State) : State :=
  mkState (heap_of st) (allNodes st) (allEdges st) (visibleNodes st)
          (visibleEdges st) (scale st) (isAnimating st) f
          (availablePredicates st) (draws st).

Definition withAnimation (b : bool) (st : State) : State :=
  mkState (heap_of st) (allNodes st) (allEdges st) (visibleNodes st)
          (visibleEdges st) (scale st) b (filters st)
          (availablePredicates st) (draws st).

(** The filters after the build, with another layout and cap. *)
Definition criteria (layoutType : LayoutType) (maxNodes : Z) : GraphFilters.t :=
  GraphFilters.mk (availablePredicates built) ["subject"; "object"]%string 0 100
                  true true false layoutType maxNodes "".

Definition shownOn (layoutType : LayoutType) (maxNodes : Z) : State :=
  filterEffect (platform := Sample.platform) (withFilters (criteria layoutType maxNodes) built).

(* ===================================================================== *)
(** ** Around the graph: the page, the filter panel, the controls, the canvas

    The page ([Home]) makes the triplets from the rows of the CSV, the filter
    panel narrows them, and the result is the [triplets] property of the
    graph component.  Of the graph component itself: the setters of its
    filters, the drawing on the canvas and the pointer handlers. *)

(** *** More of JavaScript strings *)

Module JsText.
Open Scope string_scope.

(** A string is truthy when it is not empty. *)
Definition truthy (s : string) : bool := negb (String.eqb s "").

(** The white space that [trim] removes, among the code units below 256. *)
Definition isWhiteSpace (c : ascii) : bool :=
  let n := nat_of_ascii c in
  ((9 <=? n)%nat && (n <=? 13)%nat) || (n =? 32)%nat || (n =? 160)%nat.

Fixpoint trimStart (s : string) : string :=
  match s with
  | EmptyString => EmptyString
  | String c s' => if isWhiteSpace c then trimStart s' else s
  end.

Fixpoint trimEnd (s : string) : string :=
  match s with
  | EmptyString => EmptyString
  | String c s' =>
      match trimEnd s' with
      | EmptyString => if isWhiteSpace c then EmptyString else String c EmptyString
      | t => String c t
      end
  end.

(** [s.trim()] *)
Definition trim (s : string) : string := trimEnd (trimStart s).

(** [n.toString()] for an integer. *)
Definition ofZ (n : Z) : string := NilZero.string_of_int (Z.to_int n).

End JsText.

(** *** The page: triplets from the rows of the CSV *)

Module CsvData.
Record t := mk {
  headers : list string;
  rows : list (list string)
}.
End CsvData.

Module ColumnInfo.
Record t := mk {
  rdfProperty : string;
  dataType : string;
  isSubject : option bool;
  isPredicate : option bool;
  isObject : option bool
}.
End ColumnInfo.

(** The [ColumnMapping] object.  It is a plain object, written [{}] and
    filled by assignment: its own properties are the mapped columns, and a
    name that is not its own is looked up in [Object.prototype]. *)
Abbreviation ColumnMapping := (gmap string ColumnInfo.t).

(** The names of the members of [Object.prototype]. *)
Definition Object_prototype : list string :=
  ["constructor"; "__defineGetter__"; "__defineSetter__"; "hasOwnProperty";
   "__lookupGetter__"; "__lookupSetter__"; "isPrototypeOf";
   "propertyIsEnumerable"; "toString"; "valueOf"; "__proto__";
   "toLocaleString"]%string.

(** What [columnMapping[header]] is: the mapping of the column; or a member
    of [Object.prototype], which is a function or, under [__proto__], the
    prototype itself; or [undefined]. *)
Inductive Property :=
| Own (mapping : ColumnInfo.t)
| Inherited
| Undefined.

Definition getProperty (columnMapping : ColumnMapping) (header : string) : Property :=
  match columnMapping !! header with
  | Some mapping => Own mapping
  | None => if includesStr Object_prototype header then Inherited else Undefined
  end.

(** [mapping.rdfProperty] and [mapping.dataType]; no member of
    [Object.prototype] has a property of these names. *)
Definition rdfPropertyOf (mapping : Property) : option string :=
  match mapping with
  | Own mapping => Some (ColumnInfo.rdfProperty mapping)
  | Inherited | Undefined => None
  end.

Definition dataTypeOf (mapping : Property) : option string :=
  match mapping with
  | Own mapping => Some (ColumnInfo.dataType mapping)
  | Inherited | Undefined => None
  end.

(** A triplet as the page makes it.  Its declared type is [Triplet]; its
    [predicate] is [undefined] all the same when it was read from a member of
    [Object.prototype]. *)
Module PageTriplet.
Record t := mk {
  subject : string;
  predicate : option string;
  object : string;
  dataType : option string
}.
End PageTriplet.

Definition baseUri : string := "http://example.org/".

(** [`${baseUri}entity_${index + 1}`] *)
Definition entityUri (index : nat) : string :=
  (baseUri ++ "entity_" ++ JsString.ofIndex (index + 1))%string.

(** The body of [csvData.headers.forEach((header, colIndex) => ...)]: a
    triplet is pushed when [columnMapping[header]] is truthy, which every
    object and function is, and the cell is not blank; a row shorter than the
    headers has [undefined] cells, which are skipped. *)
Definition pushCell (columnMapping : ColumnMapping) (row : list string)
    (subject : string) (header : string) (colIndex : nat)
    (generatedTriplets : list PageTriplet.t) : list PageTriplet.t :=
  match getProperty columnMapping header with
  | Undefined => generatedTriplets
  | mapping =>
      match row !! colIndex with
      | Some value =>
          if JsText.truthy value && JsText.truthy (JsText.trim value)
          then generatedTriplets
                 ++ [PageTriplet.mk subject (rdfPropertyOf mapping) value
                                    (dataTypeOf mapping)]
          else generatedTriplets
      | None => generatedTriplets
      end
  end.

(** The body of [csvData.rows.forEach((row, index) => ...)]. *)
Definition pushRow (columnMapping : ColumnMapping) (headers : list string)
    (row : list string) (index : nat) (generatedTriplets : list PageTriplet.t)
    : list PageTriplet.t :=
  forEachIdx (pushCell columnMapping row (entityUri index)) headers 0
             generatedTriplets.

Definition generateTriplets (csvData : CsvData.t) (columnMapping : ColumnMapping)
    : list PageTriplet.t :=
  forEachIdx (pushRow columnMapping (CsvData.headers csvData))
             (CsvData.rows csvData) 0 [].

(** The cells of the table, row by row and within a row column by column. *)
Definition cells (csvData : CsvData.t) : list (nat * nat) :=
  flat_map (fun r => map (pair r) (seq 0 (length (CsvData.headers csvData))))
           (seq 0 (length (CsvData.rows csvData))).

(** The triplet that the cell in row [r] and column [c] stands for, when it
    stands for one: the row has a value there that is not blank, and the name
    of the column is a property of the mapping or a member of
    [Object.prototype]. *)
Definition cellTriplet (csvData : CsvData.t) (columnMapping : ColumnMapping)
    (cell : nat * nat) : option PageTriplet.t :=
  let '(r, c) := cell in
  match CsvData.rows csvData !! r, CsvData.headers csvData !! c with
  | Some row, Some header =>
      match row !! c with
      | Some value =>
          if String.eqb (JsText.trim value) "" then None
          else
            match columnMapping !! header with
            | Some mapping =>
                Some (PageTriplet.mk (entityUri r)
                        (Some (ColumnInfo.rdfProperty mapping)) value
                        (Some (ColumnInfo.dataType mapping)))
            | None =>
                if includesStr Object_prototype header
                then Some (PageTriplet.mk (entityUri r) None value None)
                else None
            end
      | None => None
      end
  | _, _ => None
  end.

(** *** From the page to the graph

    The graph component gets the triplets of the page as its [triplets]
    property.  Its build effect reads [triplet.predicate.split("/")], which
    throws on a predicate that is [undefined]: the effect then ends without
    having set anything. *)
Definition asTriplet (t : PageTriplet.t) : option Triplet.t :=
  match PageTriplet.predicate t with
  | Some predicate =>
      Some (Triplet.mk (PageTriplet.subject t) predicate (PageTriplet.object t)
                       (PageTriplet.dataType t))
  | None => None
  end.

Fixpoint asTriplets (triplets : list PageTriplet.t) : option (list Triplet.t) :=
  match triplets with
  | [] => Some []
  | t :: triplets' =>
      match asTriplet t, asTriplets triplets' with
      | Some t', Some ts => Some (t' :: ts)
      | _, _ => None
      end
  end.

(** The build effect on the triplets of the page; [None] when it throws. *)
Definition buildFromPage {platform : Platform} (triplets : list PageTriplet.t)
    (st : State) : option State :=
  match asTriplets triplets with
  | Some ts => Some (buildEffect ts st)
  | None => None
  end.


(** *** The filter panel *)

Module PanelFilters.
Record t := mk {
  subject : string;
  predicate : string;
  object : string;
  dataType : string;
  subjectContains : string;
  objectContains : string
}.

(** The keys [updateFilter] is called with. *)
Inductive key := Subject | Predicate | DataType | SubjectContains | ObjectContains.

(** [setFilters((prev) => ({ ...prev, [key]: value }))] *)
Definition updateFilter (k : key) (value : string) (f : t) : t :=
  match k with
  | Subject =>
      mk value (predicate f) (object f) (dataType f) (subjectContains f)
         (objectContains f)
  | Predicate =>
      mk (subject f) value (object f) (dataType f) (subjectContains f)
         (objectContains f)
  | DataType =>
      mk (subject f) (predicate f) (object f) value (subjectContains f)
         (objectContains f)
  | SubjectContains =>
      mk (subject f) (predicate f) (object f) (dataType f) value (objectContains f)
  | ObjectContains =>
      mk (subject f) (predicate f) (object f) (dataType f) (subjectContains f) value
  end.
End PanelFilters.

(** The value of the first item of each select of the panel. *)
Definition allItem : string := "all".

(** [field === value] for a field that can be [undefined] and a string. *)
Definition fieldIs (field : option string) (value : string) : bool :=
  match field with
  | Some s => String.eqb s value
  | None => false
  end.

(** [text.toLowerCase().includes(term.toLowerCase())] *)
Definition containsIgnoringCase (text term : string) : bool :=
  JsString.includes (JsString.toLowerCase text) (JsString.toLowerCase term).

(** [if (value) filtered = filtered.filter(test)] *)
Definition filterWhen (value : string) (test : PageTriplet.t -> bool)
    (filtered : list PageTriplet.t) : list PageTriplet.t :=
  if JsText.truthy value then List.filter test filtered else filtered.

(** The effect of the panel that applies the filters; its result is what
    [onFilterChange] receives, and what the page hands to the graph. *)
Definition applyPanelFilters (filters : PanelFilters.t)
    (triplets : list PageTriplet.t) : list PageTriplet.t :=
  let filtered := triplets in
  let filtered :=
    filterWhen (PanelFilters.subject filters)
      (fun t => String.eqb (PageTriplet.subject t) (PanelFilters.subject filters))
      filtered in
  let filtered :=
    filterWhen (PanelFilters.predicate filters)
      (fun t => fieldIs (PageTriplet.predicate t) (PanelFilters.predicate filters))
      filtered in
  let filtered :=
    filterWhen (PanelFilters.dataType filters)
      (fun t => fieldIs (PageTriplet.dataType t) (PanelFilters.dataType filters))
      filtered in
  let filtered :=
    filterWhen (PanelFilters.subjectContains filters)
      (fun t => containsIgnoringCase (PageTriplet.subject t)
                  (PanelFilters.subjectContains filters))
      filtered in
  filterWhen (PanelFilters.objectContains filters)
    (fun t => containsIgnoringCase (PageTriplet.object t)
                (PanelFilters.objectContains filters))
    filtered.

(** What a triplet has to satisfy to pass the panel, criterion by criterion. *)
Definition passesPanel (f : PanelFilters.t) (t : PageTriplet.t) : Prop :=
  (PanelFilters.subject f = ""%string
   \/ PageTriplet.subject t = PanelFilters.subject f) /\
  (PanelFilters.predicate f = ""%string
   \/ PageTriplet.predicate t = Some (PanelFilters.predicate f)) /\
  (PanelFilters.dataType f = ""%string
   \/ PageTriplet.dataType t = Some (PanelFilters.dataType f)) /\
  (PanelFilters.subjectContains f = ""%string \/
   containsIgnoringCase (PageTriplet.subject t) (PanelFilters.subjectContains f) = true) /\
  (PanelFilters.objectContains f = ""%string \/
   containsIgnoringCase (PageTriplet.object t) (PanelFilters.objectContains f) = true).

(** *** The setters of the graph filters *)

Definition set_minConnections (v : Z) (f : GraphFilters.t) : GraphFilters.t :=
  GraphFilters.mk (GraphFilters.predicates f) (GraphFilters.nodeTypes f) v
    (GraphFilters.maxConnections f) (GraphFilters.showLabels f)
    (GraphFilters.showIsolatedNodes f) (GraphFilters.clusterByPredicate f)
    (GraphFilters.layoutType f) (GraphFilters.maxNodes f) (GraphFilters.searchTerm f).

Definition set_maxNodes (v : Z) (f : GraphFilters.t) : GraphFilters.t :=
  GraphFilters.mk (GraphFilters.predicates f) (GraphFilters.nodeTypes f)
    (GraphFilters.minConnections f) (GraphFilters.maxConnections f)
    (GraphFilters.showLabels f) (GraphFilters.showIsolatedNodes f)
    (GraphFilters.clusterByPredicate f) (GraphFilters.layoutType f) v
    (GraphFilters.searchTerm f).

(** The handler of a predicate's checkbox. *)
Definition onCheckedChange (predicate : string) (checked : bool)
    (f : GraphFilters.t) : GraphFilters.t :=
  if checked
  then GraphFilters.set_predicates (GraphFilters.predicates f ++ [predicate]) f
  else GraphFilters.set_predicates
         (List.filter (fun p => negb (String.eqb p predicate))
                      (GraphFilters.predicates f)) f.

(** Two of the quick filters: hide all, connected only. *)
Definition hideAllPredicates (f : GraphFilters.t) : GraphFilters.t :=
  GraphFilters.set_predicates [] f.

Definition onlyConnected (f : GraphFilters.t) : GraphFilters.t :=
  set_maxNodes 30 (set_minConnections 2 f).

(** A setter applied to the [filters] of the state. *)
Definition updateFilters (g : GraphFilters.t -> GraphFilters.t) (st : State) : State :=
  withFilters (g (filters st)) st.

(** What follows a click that sets [filters]: the filter effect, which
    depends on [filters], runs and sets [visibleNodes] and [visibleEdges];
    [runForceSimulation], which depends on them, is made anew, and the
    animation effect, which depends on it, calls it. *)
Definition afterClick {platform : Platform} (g : GraphFilters.t -> GraphFilters.t)
    (st : State) : State :=
  runForceSimulation (filterEffect (updateFilters g st)).

(** Two clicks on the checkbox of a predicate, off and on again. *)
Definition uncheckThenCheck {platform : Platform} (predicate : string) (st : State)
    : State :=
  afterClick (onCheckedChange predicate true)
             (afterClick (onCheckedChange predicate false) st).

(** *** The graph as a whole *)

(** How many edges leave a node id, and how many arrive at it. *)
Definition countSource (id : string) (edges : list Edge.t) : Z :=
  Z.of_nat (length (List.filter (fun e => String.eqb (Edge.source e) id) edges)).

Definition countTarget (id : string) (edges : list Edge.t) : Z :=
  Z.of_nat (length (List.filter (fun e => String.eqb (Edge.target e) id) edges)).

Definition incidence (id : string) (edges : list Edge.t) : Z :=
  (countSource id edges + countTarget id edges)%Z.

(** The sum of the connections of the referenced nodes. *)
Definition totalConnections (h : heap) (nodes : list nat) : Z :=
  fold_right (fun l acc => (degree h l + acc)%Z) 0%Z nodes.

(** The node tests of the filter, one by one. *)
Definition passesNodeTests (f : GraphFilters.t) (node : Node.t) : Prop :=
  In (NodeType_name (Node.type node)) (GraphFilters.nodeTypes f) /\
  (GraphFilters.minConnections f <= Node.connections node)%Z /\
  (Node.connections node <= GraphFilters.maxConnections f)%Z /\
  (GraphFilters.searchTerm f = ""%string \/
   containsIgnoringCase (Node.label node) (GraphFilters.searchTerm f) = true).

(** Everything of a node except its position and its velocity. *)
Definition sameButMotion (a b : Node.t) : Prop :=
  Node.id a = Node.id b /\ Node.label a = Node.label b /\
  Node.type a = Node.type b /\ Node.connections a = Node.connections b /\
  Node.visible a = Node.visible b /\ Node.clusterId a = Node.clusterId b.

(** The column and the row of the grid for an index. *)
Definition gridCell (index n : nat) : nat * nat :=
  let cols := Nat.sqrt_up n in (index mod cols, index / cols).

(** *** The invariant of the builder

    Keys are the ids of the nodes they refer to, no key and no reference
    occurs twice, every edge ends at keys, and every node has counted the
    edges at its id, plus the increments [pending] for the edge about to be
    pushed. *)
Definition builderInv (pending : string -> Z) (b : Builder) : Prop :=
  NoDup (map fst (nodeMap b)) /\
  NoDup (map snd (nodeMap b)) /\
  (forall key l, In (key, l) (nodeMap b) ->
     exists n, b_heap b !! l = Some n /\ Node.id n = key /\
               Node.connections n = (incidence key (edgeList b) + pending key)%Z) /\
  (forall e, In e (edgeList b) ->
     In (Edge.source e) (map fst (nodeMap b)) /\
     In (Edge.target e) (map fst (nodeMap b))).

(** The nodes of the builder's map as values, in the order of the map, and
    two such entries that differ in the position of the node at most. *)
Definition mapped (b : Builder) : list (string * option Node.t) :=
  map (fun e => (fst e, b_heap b !! snd e)) (nodeMap b).

Definition alike (x y : string * option Node.t) : Prop :=
  fst x = fst y /\
  match snd x, snd y with
  | Some a, Some b => Node.sameButPosition a b
  | _, _ => False
  end.

(** 1 when the two strings are the same, 0 otherwise. *)
Definition same (a b : string) : Z := if String.eqb a b then 1%Z else 0%Z.

(** *** Drawing *)

(** The calls made on the 2D context, in order.  A font is kept by its size
    in pixels; its family is always sans-serif. *)
Inductive DrawOp :=
| ClearRect (x y w h : float)
| Save
| Restore
| Translate (x y : float)
| Scale (x y : float)
| StrokeStyle (color : string)
| FillStyle (color : string)
| LineWidth (w : Z)
| BeginPath
| MoveTo (x y : float)
| LineTo (x y : float)
| Stroke
| Fill
| Arc (x y : float) (radius : Z) (startAngle endAngle : float)
| Font (px : float)
| TextAlign (align : string)
| FillText (text : string) (x y : float).

(** [Math.max(8, Math.min(20, 8 + node.connections * 2))] *)
Definition nodeSize (node : Node.t) : Z :=
  Z.max 8 (Z.min 20 (8 + Node.connections node * 2)).

Definition fillColor (node : Node.t) : string :=
  let fillColor :=
    match Node.type node with subject => "#3b82f6" | object => "#f59e0b" end in
  if (5 <? Node.connections node)%Z then "#ef4444" else fillColor.

(** The state of the view that is not in [State]: the pan and the drag. *)
Record View := mkView {
  offset : float * float;
  isDragging : bool;
  dragStart : float * float
}.

(** The body of [visibleEdges.forEach((edge) => ...)] in [draw]. *)
Definition drawEdge (h : heap) (nodes : list nat) (showLabels : bool)
    (scale : float) (edge : Edge.t) : list DrawOp :=
  match findId h nodes (Edge.source edge), findId h nodes (Edge.target edge) with
  | Some s, Some t =>
      match h !! s, h !! t with
      | Some sourceNode, Some targetNode =>
          [LineWidth (Z.max 1 (Edge.weight edge)); BeginPath;
           MoveTo (Node.x sourceNode) (Node.y sourceNode);
           LineTo (Node.x targetNode) (Node.y targetNode); Stroke]
          ++ (if showLabels && (0.5 <? scale)%float then
                let midX := ((Node.x sourceNode + Node.x targetNode) / 2)%float in
                let midY := ((Node.y sourceNode + Node.y targetNode) / 2)%float in
                [FillStyle "#475569"; Font 10; TextAlign "center";
                 FillText (Edge.label edge) midX (midY - 5)%float]
              else [])
      | _, _ => []
      end
  | _, _ => []
  end.

(** The body of [visibleNodes.forEach((node) => ...)] in [draw]. *)
Definition drawNode (h : heap) (showLabels : bool) (scale : float) (l : nat)
    : list DrawOp :=
  match h !! l with
  | Some node =>
      let size := JsNumber.of_nat (Z.to_nat (nodeSize node)) in
      [BeginPath;
       Arc (Node.x node) (Node.y node) (nodeSize node) 0
           (2 * JsNumber.Math_PI)%float;
       FillStyle (fillColor node); Fill; StrokeStyle "#1e293b"; LineWidth 2; Stroke]
      ++ (if showLabels && (0.3 <? scale)%float then
            [FillStyle "#1e293b"; Font (JsNumber.Math_max 10 (12 * scale)%float);
             TextAlign "center";
             FillText (Node.label node) (Node.x node)
                      (Node.y node + size + 15)%float]
          else [])
      ++ (if (1.5 <? scale)%float then
            [FillStyle "#ffffff"; Font 8; TextAlign "center";
             FillText (JsText.ofZ (Node.connections node)) (Node.x node)
                      (Node.y node + 2)%float]
          else [])
  | None => []
  end.

(** [draw()], for a canvas of the given width and height. *)
Definition draw (width height : float) (v : View) (st : State) : list DrawOp :=
  let h := heap_of st in
  let showLabels := GraphFilters.showLabels (filters st) in
  [ClearRect 0 0 width height; Save;
   Translate (fst (offset v)) (snd (offset v)); Scale (scale st) (scale st);
   StrokeStyle "#64748b"; LineWidth 1]
  ++ flat_map (drawEdge h (visibleNodes st) showLabels (scale st)) (visibleEdges st)
  ++ flat_map (drawNode h showLabels (scale st)) (visibleNodes st)
  ++ [Restore].

(** The canvas with its 2D context as the effect finds it: the width and
    height it has once they are set, and the pixel ratio of the device. *)
Record Canvas := mkCanvas {
  canvasWidth : float;
  canvasHeight : float;
  devicePixelRatio : float
}.

(** The effect that draws: nothing without a canvas or without a visible
    node; otherwise the scaling by the pixel ratio, then [draw()]. *)
Definition renderEffect (canvas : option Canvas) (v : View) (st : State)
    : list DrawOp :=
  match canvas with
  | None => []
  | Some c =>
      if (length (visibleNodes st) =? 0)%nat then []
      else Scale (devicePixelRatio c) (devicePixelRatio c)
             :: draw (canvasWidth c) (canvasHeight c) v st
  end.

Definition isLineTo (op : DrawOp) : bool :=
  match op with LineTo _ _ => true | _ => false end.
Definition isArc (op : DrawOp) : bool :=
  match op with Arc _ _ _ _ _ => true | _ => false end.
Definition countOps (p : DrawOp -> bool) (ops : list DrawOp) : nat :=
  length (List.filter p ops).

(** *** Pointer handlers *)

(** [handleMouseDown], [handleMouseMove] and [handleMouseUp] for a pointer
    at [(clientX, clientY)]. *)
Definition handleMouseDown (client : float * float) (v : View) : View :=
  mkView (offset v) true
         ((fst client - fst (offset v))%float, (snd client - snd (offset v))%float).

Definition handleMouseMove (client : float * float) (v : View) : View :=
  if isDragging v
  then mkView ((fst client - fst (dragStart v))%float,
               (snd client - snd (dragStart v))%float)
              true (dragStart v)
  else v.

Definition handleMouseUp (v : View) : View :=
  mkView (offset v) false (dragStart v).

(** The pointer moving through the given places, one event each. *)
Definition drag (moves : list (float * float)) (v : View) : View :=
  fold_left (fun v client => handleMouseMove client v) moves v.

(** *** A sample of the page's input *)

Definition sampleCsv : CsvData.t :=
  CsvData.mk ["name"; "city"; "note"]%string
             [["Ana"; "Quito"; "x"]; ["Luis"; "  "; "y"]; ["Eva"; "Loja"]]%string.

Definition sampleMapping : ColumnMapping :=
  <["name"%string := ColumnInfo.mk "http://xmlns.com/foaf/0.1/name"
                       "http://www.w3.org/2001/XMLSchema#string" None None None]>
  (<["city"%string := ColumnInfo.mk "http://schema.org/addressLocality"
                        "http://www.w3.org/2001/XMLSchema#string" None None None]>
   ∅).

Definition sampleTriplets : list PageTriplet.t :=
  generateTriplets sampleCsv sampleMapping.

(** The graph of the scenario with isolated nodes switched off. *)
Definition connectedOnly : State :=
  withFilters
    (GraphFilters.mk (availablePredicates built) ["subject"; "object"]%string 0 100
                     true false false force 50 "")
    built.

(** The graph of the scenario on the grid, with isolated nodes switched off
    and at most three nodes shown. *)
Definition cappedConnected : State :=
  withFilters
    (GraphFilters.mk (availablePredicates built) ["subject"; "object"]%string 0 100
                     true false false grid 3 "")
    built.

(** A canvas of 800 by 600 on a device of pixel ratio 2, and the view at
    rest. *)
Definition sampleCanvas : Canvas := mkCanvas 1600 1200 2.
Definition restingView : View := mkView (0, 0)%float false (0, 0)%float.

Section Facts.

Context {platform : Platform}.

(* ===================================================================== *)
(** ** Facts about binary64 numbers *)

Lemma SFcompare_refl s : sf_nan s = false -> SFcompare s s = Some Eq.
Proof.
  destruct s as [sg|sg| |sg m e]; simpl; try discriminate; intros _.
  - reflexivity.
  - destruct sg; reflexivity.
  - rewrite Z.compare_refl.
    assert (Pos.compare_cont Eq m m = Eq) as -> by apply Pos.compare_cont_refl.
    destruct sg; reflexivity.
Qed.

Lemma SFcompare_antisym a b :
  SFcompare b a = option_map CompOpp (SFcompare a b).
Proof.
  destruct a as [sa|sa| |sa ma ea], b as [sb|sb| |sb mb eb]; simpl;
    try reflexivity;
    try (destruct sa; reflexivity); try (destruct sb; reflexivity);
    try (destruct sa, sb; reflexivity).
  rewrite (Z.compare_antisym ea eb).
  assert (Pos.compare_cont Eq mb ma = CompOpp (Pos.compare_cont Eq ma mb)) as ->.
  { rewrite Pos.compare_cont_antisym. reflexivity. }
  destruct sa, sb, (ea ?= eb)%Z; simpl; try reflexivity.
  all: destruct (Pos.compare_cont Eq ma mb); reflexivity.
Qed.

Lemma is_nan_spec x : is_nan x = sf_nan (Prim2SF x).
Proof.
  unfold is_nan. rewrite FloatAxioms.eqb_spec. unfold SFeqb.
  destruct (sf_nan (Prim2SF x)) eqn:E.
  - destruct (Prim2SF x); try discriminate. reflexivity.
  - rewrite SFcompare_refl by assumption. reflexivity.
Qed.

Lemma is_finite_spec x : is_finite x = sf_fin (Prim2SF x).
Proof.
  unfold is_finite, is_infinity.
  rewrite is_nan_spec, FloatAxioms.eqb_spec, abs_spec.
  change (Prim2SF infinity) with (S754_infinity false).
  destruct (Prim2SF x) as [sg|sg| |sg m e]; reflexivity.
Qed.

Lemma is_finite_not_nan x : is_finite x = true -> is_nan x = false.
Proof.
  rewrite is_finite_spec, is_nan_spec. destruct (Prim2SF x); simpl; congruence.
Qed.

Lemma ltb_false_leb (a b : float) :
  is_nan a = false -> is_nan b = false ->
  (a <? b)%float = false -> (b <=? a)%float = true.
Proof.
  rewrite !is_nan_spec, FloatAxioms.ltb_spec, FloatAxioms.leb_spec.
  unfold SFltb, SFleb.
  intros Ha Hb. rewrite (SFcompare_antisym (Prim2SF a) (Prim2SF b)).
  destruct (SFcompare (Prim2SF a) (Prim2SF b)) as [[]|] eqn:E; simpl; try easy.
  destruct (Prim2SF a), (Prim2SF b); simpl in *; discriminate.
Qed.

(** Rounding never invents a NaN. *)
Lemma iter_pos_invariant {A} (P : A -> Prop) (f : A -> A) :
  (forall a, P a -> P (f a)) -> forall n a, P a -> P (SpecFloat.iter_pos f n a).
Proof.
  intros Hf. induction n as [n IH|n IH|]; simpl; intros a Ha; auto.
Qed.

Lemma shr_1_nonneg mrs : (0 <= shr_m mrs)%Z -> (0 <= shr_m (shr_1 mrs))%Z.
Proof.
  destruct mrs as [m r s]. simpl.
  destruct m as [|[p|p|]|[p|p|]]; simpl; lia.
Qed.

Lemma shr_nonneg mrs e n :
  (0 <= shr_m mrs)%Z -> (0 <= shr_m (fst (shr mrs e n)))%Z.
Proof.
  intros H. destruct n; simpl; try assumption.
  apply (iter_pos_invariant (fun r => (0 <= shr_m r)%Z)); auto using shr_1_nonneg.
Qed.

Lemma shr_fexp_nonneg m e l :
  (0 <= m)%Z -> (0 <= shr_m (fst (shr_fexp prec emax m e l)))%Z.
Proof.
  intros H. unfold shr_fexp. apply shr_nonneg.
  destruct l as [|[]]; simpl; assumption.
Qed.

Lemma round_nearest_even_nonneg m l :
  (0 <= m)%Z -> (0 <= round_nearest_even m l)%Z.
Proof.
  intros H. destruct l as [|[]]; simpl; try lia.
  destruct (Z.even m); lia.
Qed.

Lemma binary_round_aux_not_nan sx mx ex lx :
  (0 <= mx)%Z -> sf_nan (binary_round_aux prec emax sx mx ex lx) = false.
Proof.
  intros H. unfold binary_round_aux.
  pose proof (shr_fexp_nonneg mx ex lx H) as H1.
  destruct (shr_fexp prec emax mx ex lx) as [mrs' e'] eqn:E1. simpl in H1.
  pose proof (shr_fexp_nonneg (round_nearest_even (shr_m mrs') (loc_of_shr_record mrs'))
                e' loc_Exact (round_nearest_even_nonneg _ _ H1)) as H2.
  destruct (shr_fexp prec emax _ e' loc_Exact) as [mrs'' e''] eqn:E2. simpl in H2.
  destruct (shr_m mrs'') as [|p|p]; try reflexivity; try lia.
  destruct (Z.leb e'' (emax - prec)); reflexivity.
Qed.

Lemma binary_normalize_not_nan m e sz :
  sf_nan (binary_normalize prec emax m e sz) = false.
Proof.
  destruct m as [|p|p]; simpl; try reflexivity;
    unfold binary_round;
    destruct (shl_align _ _ _) as [mz ez];
    apply binary_round_aux_not_nan; lia.
Qed.

(** Adding a number that is not NaN to a finite number never gives NaN. *)
Lemma add_finite_not_nan (x v : float) :
  is_finite x = true -> is_nan v = false -> is_nan (x + v)%float = false.
Proof.
  rewrite is_finite_spec, !is_nan_spec, add_spec. unfold SF64add, SFadd.
  destruct (Prim2SF x) as [sx|sx| |sx mx ex]; try discriminate;
    destruct (Prim2SF v) as [sv|sv| |sv mv ev]; try discriminate; intros _ _;
    try reflexivity.
  - destruct sx, sv; reflexivity.
  - apply binary_normalize_not_nan.
Qed.

Lemma orZero_not_nan v : is_nan (JsNumber.orZero v) = false.
Proof.
  destruct v as [f|]; simpl; [|reflexivity].
  destruct (is_nan f) eqn:E; simpl; [reflexivity|].
  destruct (is_zero f); [reflexivity|assumption].
Qed.

Lemma clamp_inRange v : is_nan v = false -> JsNumber.inRange 20 380 (clamp v) = true.
Proof.
  intros Hv. unfold clamp, JsNumber.inRange, JsNumber.Math_min.
  change (is_nan 380) with false. rewrite Hv. cbn [orb].
  change (is_zero 380 && get_sign 380) with false. cbv iota.
  assert (Hm : forall m, is_nan m = false -> (380 <? m)%float = false ->
            ((20 <=? JsNumber.Math_max 20 m)%float
             && (JsNumber.Math_max 20 m <=? 380)%float) = true).
  { intros m Hn Hle. unfold JsNumber.Math_max.
    change (is_nan 20) with false. rewrite Hn. cbn [orb].
    change (is_zero 20 && negb (get_sign 20)) with false. cbv iota.
    destruct (m <? 20)%float eqn:E1; [reflexivity|].
    assert ((20 <=? m)%float = true) as H20 by (apply ltb_false_leb; auto).
    assert ((m <=? 380)%float = true) as H380 by (apply ltb_false_leb; auto).
    destruct (20 <? m)%float; rewrite H20, H380; reflexivity. }
  destruct (380 <? v)%float eqn:E; [reflexivity|].
  destruct (v <? 380)%float; apply Hm; assumption.
Qed.

Lemma inRange_finite lo hi x :
  is_finite lo = true -> is_finite hi = true ->
  JsNumber.inRange lo hi x = true -> is_finite x = true.
Proof.
  unfold JsNumber.inRange. rewrite !is_finite_spec, !FloatAxioms.leb_spec.
  unfold SFleb.
  destruct (Prim2SF lo) as [sl|sl| |sl ml el]; try discriminate;
  destruct (Prim2SF hi) as [sh|sh| |sh mh eh]; try discriminate;
  destruct (Prim2SF x) as [s|s| |s m e]; try reflexivity; simpl;
    intros _ _; try destruct s; try destruct sl; try destruct sh; simpl;
    try discriminate.
Qed.

(** The integration step puts a node with a finite position inside the canvas. *)
Lemma integrate_inRange node :
  is_finite (Node.x node) = true -> is_finite (Node.y node) = true ->
  JsNumber.inRange 20 380 (Node.x (integrate node)) = true /\
  JsNumber.inRange 20 380 (Node.y (integrate node)) = true.
Proof.
  intros Hx Hy. unfold integrate. simpl.
  split; apply clamp_inRange, add_finite_not_nan; auto using orZero_not_nan.
Qed.

(* ===================================================================== *)
(** ** Facts about strings *)

Lemma contains_cons c a s :
  JsString.contains c (String a s) <-> a = c \/ JsString.contains c s.
Proof.
  unfold JsString.contains. split.
  - intros [[|x u] [v E]]; simpl in E; injection E as -> E.
    + left; reflexivity.
    + right; eauto.
  - intros [->|[u [v ->]]].
    + exists EmptyString, s. reflexivity.
    + exists (String a u), v. reflexivity.
Qed.

Lemma contains_empty c : ~ JsString.contains c EmptyString.
Proof. intros [[|x u] [v E]]; discriminate. Qed.

Lemma split_nonempty sep s : JsString.split sep s <> [].
Proof.
  destruct s as [|c s]; simpl; [discriminate|].
  destruct (Ascii.eqb c sep); [discriminate|].
  destruct (JsString.split sep s); discriminate.
Qed.

Lemma split_no_sep sep s : ~ JsString.contains sep s -> JsString.split sep s = [s].
Proof.
  induction s as [|c s IH]; intros H; simpl; [reflexivity|].
  destruct (Ascii.eqb_spec c sep) as [->|Hne].
  - exfalso. apply H, contains_cons. left; reflexivity.
  - rewrite IH; [reflexivity|]. intros Hc. apply H, contains_cons. right; exact Hc.
Qed.

(** [(a + sep + b).split(sep)] is [a.split(sep).concat(b.split(sep))]. *)
Lemma split_app sep a b :
  JsString.split sep (a ++ String sep b)%string
  = JsString.split sep a ++ JsString.split sep b.
Proof.
  induction a as [|c a IH]; simpl.
  - rewrite Ascii.eqb_refl. reflexivity.
  - destruct (Ascii.eqb c sep); rewrite IH; [reflexivity|].
    pose proof (split_nonempty sep a) as Hn.
    destruct (JsString.split sep a) as [|h t]; [contradiction|reflexivity].
Qed.

Lemma pop_app l1 l2 : l2 <> [] -> JsString.pop (l1 ++ l2) = JsString.pop l2.
Proof.
  intros H. unfold JsString.pop. rewrite map_app.
  destruct l2 as [|a l2]; [contradiction|].
  induction l1 as [|b l1 IH]; [reflexivity|].
  simpl in *. rewrite <- IH.
  destruct (map Some l1 ++ Some a :: map Some l2) eqn:E; [|reflexivity].
  destruct (map Some l1); discriminate.
Qed.

(** The last piece of a string with a separator is what follows the last
    separator. *)
Lemma pop_split_after sep pre seg :
  ~ JsString.contains sep seg ->
  JsString.pop (JsString.split sep (pre ++ String sep seg)%string) = Some seg.
Proof.
  intros H. rewrite split_app, pop_app by apply split_nonempty.
  rewrite split_no_sep by assumption. reflexivity.
Qed.

Lemma pop_split_whole sep s :
  ~ JsString.contains sep s -> JsString.pop (JsString.split sep s) = Some s.
Proof. intros H. rewrite split_no_sep by assumption. reflexivity. Qed.

Lemma string_of_uint_no_underscore d :
  ~ JsString.contains "_" (NilEmpty.string_of_uint d).
Proof.
  induction d; simpl; try apply contains_empty;
    intros Hc; apply contains_cons in Hc as [Hc|Hc]; try discriminate; auto.
Qed.

Lemma ofIndex_no_underscore n : ~ JsString.contains "_" (JsString.ofIndex n).
Proof.
  unfold JsString.ofIndex, NilZero.string_of_uint.
  destruct (Nat.to_uint n) eqn:E; try (rewrite <- E; apply string_of_uint_no_underscore).
  intros Hc. apply contains_cons in Hc as [Hc|Hc]; [discriminate|].
  revert Hc. apply contains_empty.
Qed.

Lemma ofIndex_inj n m : JsString.ofIndex n = JsString.ofIndex m -> n = m.
Proof.
  unfold JsString.ofIndex. intros H.
  assert (Hnn : forall k, Nat.to_uint k <> Decimal.Nil).
  { intros k. rewrite <- (Unsigned.of_to k), Unsigned.to_of.
    apply DecimalFacts.unorm_nonnil. }
  apply Unsigned.to_uint_inj.
  pose proof (NilZero.usu _ (Hnn n)) as H1.
  pose proof (NilZero.usu _ (Hnn m)) as H2.
  rewrite H in H1. congruence.
Qed.

(** A string is cut at its last separator in only one way. *)
Lemma append_sep_inj c x y a b :
  ~ JsString.contains c a -> ~ JsString.contains c b ->
  (x ++ String c a)%string = (y ++ String c b)%string -> x = y /\ a = b.
Proof.
  intros Ha Hb. revert y. induction x as [|u x IH]; intros [|v y] E; simpl in E.
  - injection E as E. auto.
  - injection E as <- E. exfalso. apply Ha. exists y, b. exact E.
  - injection E as -> E. exfalso. apply Hb. exists x, a. symmetry. exact E.
  - injection E as -> E. destruct (IH y E) as [-> ->]. auto.
Qed.

Lemma objectId_inj t1 i1 t2 i2 :
  objectId t1 i1 = objectId t2 i2 ->
  Triplet.object t1 = Triplet.object t2 /\ i1 = i2.
Proof.
  unfold objectId. intros E.
  change (?o ++ "_" ++ ?s)%string with (o ++ String "_" s)%string in E.
  apply append_sep_inj in E; auto using ofIndex_no_underscore.
  destruct E as [E1 E2]. split; [exact E1|]. apply ofIndex_inj, E2.
Qed.

Lemma substring0_length n s : String.length (JsString.substring0 n s) <= n.
Proof.
  revert s. induction n as [|n IH]; intros [|c s]; simpl; try lia.
  specialize (IH s). lia.
Qed.

Lemma append_length (a b : string) :
  String.length (a ++ b) = String.length a + String.length b.
Proof. induction a as [|c a IH]; simpl; [reflexivity|]. rewrite IH. reflexivity. Qed.

Lemma objectLabel_length o : String.length (objectLabel o) <= 23.
Proof.
  unfold objectLabel. destruct (20 <? String.length o)%nat eqn:E.
  - rewrite append_length. pose proof (substring0_length 20 o) as H.
    change (String.length "...") with 3. lia.
  - apply Nat.ltb_ge in E. lia.
Qed.

(* ===================================================================== *)
(** ** Facts about loops and the store *)

Lemma forEachIdx_invariant {A S : Type} (P : nat -> S -> Prop)
    (f : A -> nat -> S -> S) (l : list A) :
  forall i s,
    P i s ->
    (forall k a s', l !! k = Some a -> P (i + k) s' -> P (i + k + 1) (f a (i + k) s')) ->
    P (i + length l) (forEachIdx f l i s).
Proof.
  induction l as [|a l IH]; intros i s H0 Hstep; simpl.
  - rewrite Nat.add_0_r. exact H0.
  - replace (i + Datatypes.S (length l)) with (Datatypes.S i + length l) by lia.
    apply IH.
    + specialize (Hstep 0 a s eq_refl). rewrite Nat.add_0_r in Hstep.
      replace (Datatypes.S i) with (i + 1) by lia. auto.
    + intros k b s' Hk HP.
      replace (Datatypes.S i + k + 1) with (i + Datatypes.S k + 1) by lia.
      replace (Datatypes.S i + k) with (i + Datatypes.S k) in * by lia.
      apply Hstep; assumption.
Qed.

Lemma forEach_invariant {A S : Type} (P : S -> Prop) (f : A -> S -> S) (l : list A) s :
  P s -> (forall a s', In a l -> P s' -> P (f a s')) -> P (forEach f l s).
Proof.
  unfold forEach. generalize 0.
  revert s. induction l as [|a l IH]; intros s i H0 Hstep; simpl; [exact H0|].
  apply IH.
  - apply Hstep; [left; reflexivity|exact H0].
  - intros b s' Hb. apply Hstep. right; exact Hb.
Qed.

Lemma forEachIdx_const {A S : Type} (f : A -> S -> S) l :
  forall i j s,
    forEachIdx (fun a _ => f a) l i s = forEachIdx (fun a _ => f a) l j s.
Proof.
  induction l as [|b l IH]; intros i j s; simpl; [reflexivity|]. apply IH.
Qed.

Lemma forEach_cons {A S : Type} (f : A -> S -> S) a l s :
  forEach f (a :: l) s = forEach f l (f a s).
Proof. unfold forEach. simpl. apply forEachIdx_const. Qed.

Lemma forEach_nil {A S : Type} (f : A -> S -> S) s : forEach f [] s = s.
Proof. reflexivity. Qed.

Lemma includesStr_In l s : includesStr l s = true <-> In s l.
Proof.
  unfold includesStr. rewrite existsb_exists. split.
  - intros [x [Hx E]]. apply String.eqb_eq in E. subst. exact Hx.
  - intros H. exists s. split; [exact H|apply String.eqb_refl].
Qed.

Lemma set_add_In a s l : In a (set_add s l) <-> a = s \/ In a l.
Proof.
  unfold set_add. destruct (includesStr l s) eqn:E.
  - apply includesStr_In in E. split; [auto|]. intros [->|H]; assumption.
  - rewrite in_app_iff. simpl. split; intros H; destruct H as [H|H]; auto.
    + destruct H as [H|[]]; auto.
Qed.

Lemma NodeMap_has_In m k : NodeMap.has m k = true <-> In k (map fst m).
Proof.
  unfold NodeMap.has. rewrite existsb_exists, in_map_iff. split.
  - intros [e [He E]]. apply String.eqb_eq in E. exists e. auto.
  - intros [e [E He]]. exists e. split; [exact He|]. rewrite E. apply String.eqb_refl.
Qed.

Lemma NodeMap_get_In m k l : NodeMap.get m k = Some l -> In (k, l) m.
Proof.
  unfold NodeMap.get. destruct (List.find _ m) as [[k' l']|] eqn:E; [|discriminate].
  simpl. intros [= <-]. apply find_some in E as [Hin E]. simpl in E.
  apply String.eqb_eq in E. subst. exact Hin.
Qed.

(* ===================================================================== *)
(** ** The graph builder *)

Lemma addNode_edgeList key lab ty c b : edgeList (addNode key lab ty c b) = edgeList b.
Proof. unfold addNode. destruct (NodeMap.has _ _); reflexivity. Qed.

Lemma increment_edgeList key b : edgeList (increment key b) = edgeList b.
Proof. unfold increment. destruct (NodeMap.get _ _); reflexivity. Qed.

Lemma increment_nodeMap key b : nodeMap (increment key b) = nodeMap b.
Proof. unfold increment. destruct (NodeMap.get _ _); reflexivity. Qed.

Lemma buildStep_edgeList t i b :
  edgeList (buildStep t i b) = edgeList b ++ [edgeOf t i].
Proof.
  unfold buildStep, pushEdge. simpl.
  rewrite !increment_edgeList, !addNode_edgeList. reflexivity.
Qed.

Lemma forEachIdx_buildStep_edgeList l :
  forall i b,
    edgeList (forEachIdx buildStep l i b)
    = edgeList b ++ imap (fun j t => edgeOf t (i + j)) l.
Proof.
  induction l as [|t l IH]; intros i b; simpl.
  - rewrite app_nil_r. reflexivity.
  - rewrite IH, buildStep_edgeList, <- app_assoc. simpl.
    rewrite Nat.add_0_r. do 2 f_equal.
    apply imap_ext. intros j x _. simpl. f_equal. lia.
Qed.

(** The edge list is the list of the triplets' edges, in order. *)
Lemma buildGraph_edgeList ts h d :
  edgeList (buildGraph ts h d) = imap (fun j t => edgeOf t j) ts.
Proof. unfold buildGraph. rewrite forEachIdx_buildStep_edgeList. reflexivity. Qed.

Lemma buildGraph_edges_length ts h d : length (edgeList (buildGraph ts h d)) = length ts.
Proof. rewrite buildGraph_edgeList. apply length_imap. Qed.

Lemma buildEffect_nonempty ts st :
  ts <> [] ->
  buildEffect ts st =
    let b := buildGraph ts (heap_of st) (draws st) in
    mkState (b_heap b) (NodeMap.values (nodeMap b)) (edgeList b)
            (visibleNodes st) (visibleEdges st) (scale st) (isAnimating st)
            (GraphFilters.set_predicates (predicateSet b) (filters st))
            (predicateSet b) (b_draws b).
Proof. intros H. unfold buildEffect. destruct ts; [contradiction|reflexivity]. Qed.

(** What the map of the builder holds: every key points to a node with that
    id, and a node of type object was made for some triplet [j] under the key
    [objectId t j] with the label of that triplet's object. *)
Section BuilderInvariant.
Variable ts : list Triplet.t.

Local Abbreviation made key n :=
  (exists j t, ts !! j = Some t /\ key = objectId t j /\
               Node.label n = objectLabel (Triplet.object t)).
Local Abbreviation sound b :=
  (forall key l, In (key, l) (nodeMap b) ->
     exists n, b_heap b !! l = Some n /\ Node.id n = key /\
               (Node.type n = object -> made key n)).

Lemma addNode_sound key lab ty c b :
  sound b ->
  (ty = object -> exists j t, ts !! j = Some t /\ key = objectId t j /\
                              lab = objectLabel (Triplet.object t)) ->
  sound (addNode key lab ty c b).
Proof.
  intros Hb Hnew. unfold addNode.
  destruct (NodeMap.has (nodeMap b) key) eqn:Hhas; [exact Hb|].
  simpl. unfold NodeMap.set. rewrite Hhas.
  intros k l Hin. apply in_app_or in Hin as [Hin|[[= <- <-]|[]]].
  - destruct (Hb k l Hin) as (n & Hl & Hn).
    exists n. split; [|exact Hn]. apply lookup_app_l_Some. exact Hl.
  - eexists. split; [apply list_lookup_middle; reflexivity|].
    simpl. split; [reflexivity|exact Hnew].
Qed.

Lemma increment_sound key b : sound b -> sound (increment key b).
Proof.
  intros Hb. unfold increment.
  destruct (NodeMap.get (nodeMap b) key) as [l0|]; [|exact Hb].
  cbn [b_heap nodeMap]. intros k l Hin.
  destruct (Hb k l Hin) as (n & Hl & Hid & Hobj).
  rewrite list_lookup_alter. destruct (decide (l0 = l)) as [->|Hne].
  - rewrite Hl. simpl. eexists. split; [reflexivity|]. simpl. auto.
  - exists n. auto.
Qed.

Lemma buildStep_sound t i b :
  ts !! i = Some t -> sound b -> sound (buildStep t i b).
Proof.
  intros Ht Hb. unfold buildStep, pushEdge.
  match goal with
  | |- forall key l, In (key, l) (nodeMap (mkBuilder _ ?m _ _ _)) -> _ =>
      change (sound (increment (objectId t i)
                (increment (Triplet.subject t)
                   (addNode (objectId t i) (objectLabel (Triplet.object t)) object
                      (Triplet.predicate t)
                      (addNode (Triplet.subject t) (subjectLabel (Triplet.subject t))
                         subject (Triplet.predicate t)
                         (addPredicate (Triplet.predicate t) b))))))
  end.
  do 2 apply increment_sound. apply addNode_sound.
  - apply addNode_sound; [exact Hb|discriminate].
  - intros _. exists i, t. auto.
Qed.

Lemma buildGraph_sound h d : sound (buildGraph ts h d).
Proof.
  unfold buildGraph.
  apply (forEachIdx_invariant
           (fun _ b => sound b) buildStep ts 0 (mkBuilder h [] [] [] d)).
  - intros key l [].
  - intros k t b Hk Hb. apply buildStep_sound; assumption.
Qed.
End BuilderInvariant.

Lemma addNode_nodeMap key lab ty c b :
  nodeMap (addNode key lab ty c b)
  = if NodeMap.has (nodeMap b) key then nodeMap b
    else nodeMap b ++ [(key, length (b_heap b))].
Proof.
  unfold addNode. destruct (NodeMap.has (nodeMap b) key) eqn:E; [reflexivity|].
  simpl. unfold NodeMap.set. rewrite E. reflexivity.
Qed.

Lemma buildStep_nodeMap t i b :
  nodeMap (buildStep t i b)
  = nodeMap (addNode (objectId t i) (objectLabel (Triplet.object t)) object
               (Triplet.predicate t)
               (addNode (Triplet.subject t) (subjectLabel (Triplet.subject t))
                  subject (Triplet.predicate t)
                  (addPredicate (Triplet.predicate t) b))).
Proof.
  unfold buildStep, pushEdge. cbn [nodeMap]. rewrite !increment_nodeMap.
  reflexivity.
Qed.



Lemma increment_heap_length key b : length (b_heap (increment key b)) = length (b_heap b).
Proof.
  unfold increment. destruct (NodeMap.get _ _); [|reflexivity].
  cbn [b_heap]. apply length_alter.
Qed.

Lemma addNode_fresh key lab ty c b :
  NoDup (NodeMap.values (nodeMap b)) ->
  (forall l, In l (NodeMap.values (nodeMap b)) -> l < length (b_heap b)) ->
  NoDup (NodeMap.values (nodeMap (addNode key lab ty c b))) /\
  (forall l, In l (NodeMap.values (nodeMap (addNode key lab ty c b))) ->
             l < length (b_heap (addNode key lab ty c b))).
Proof.
  intros Hnd Hlt. rewrite addNode_nodeMap. unfold addNode.
  destruct (NodeMap.has (nodeMap b) key); [auto|].
  cbn [b_heap]. unfold NodeMap.values in *. rewrite map_app, length_app. simpl.
  split.
  - apply NoDup_app. split; [exact Hnd|]. split; [|apply NoDup_singleton].
    intros l Hl Hl'. apply list_elem_of_In in Hl. apply Hlt in Hl.
    apply list_elem_of_In in Hl'. destruct Hl' as [<-|[]]. lia.
  - intros l Hl. apply in_app_or in Hl as [Hl|[<-|[]]]; [|lia].
    apply Hlt in Hl. lia.
Qed.

(** The references the builder hands out are all different: every node
    object of [allNodes] is a distinct object. *)
Lemma buildGraph_distinct ts h d : NoDup (NodeMap.values (nodeMap (buildGraph ts h d))).
Proof.
  unfold buildGraph.
  apply (forEachIdx_invariant
           (fun _ b => NoDup (NodeMap.values (nodeMap b)) /\
                       forall l, In l (NodeMap.values (nodeMap b)) ->
                                 l < length (b_heap b))
           buildStep ts 0 (mkBuilder h [] [] [] d)).
  - split; [constructor|]. intros l [].
  - intros k t b _ [Hnd Hlt]. rewrite buildStep_nodeMap.
    unfold buildStep, pushEdge. cbn [b_heap]. rewrite !increment_heap_length.
    apply addNode_fresh; apply addNode_fresh; assumption.
Qed.

Lemma buildEffect_distinct ts st :
  NoDup (allNodes st) -> NoDup (allNodes (buildEffect ts st)).
Proof.
  intros H. unfold buildEffect. destruct (length ts =? 0)%nat; [exact H|].
  apply buildGraph_distinct.
Qed.



(** C1 (the builder on a batch whose object key is also a subject value).
    For the batch of the single triplet [("x_0", "p", "x")] the object key
    ["x" + "_" + 0] is the subject value: the builder produces one edge, as
    many as facts, but a single node, where one node per distinct subject plus
    one object node per fact would be two. *)
Theorem builder_merges_colliding_object_key :
  let triplets := [Triplet.mk "x_0" "p" "x" None] in
  let st := buildEffect triplets initialState in
  length (allEdges st) = length triplets /\
  distinctSubjects triplets + length triplets = 2 /\
  length (allNodes st) = 1 /\
  map Edge.source (allEdges st) = map Edge.target (allEdges st).
Proof. repeat split. Qed.

Lemma buildEffect_empty st : buildEffect [] st = st.
Proof. reflexivity. Qed.

(** C5 (the builder on the empty batch).  The effect returns at once on an
    empty batch and writes nothing: from the initial state the node and edge
    sets stay empty, and after a batch of one triplet they still hold that
    batch's two nodes and its edge. *)
Theorem empty_batch_keeps_previous_graph :
  let st := buildEffect [Triplet.mk "A" "p" "x" None] initialState in
  buildEffect [] initialState = initialState /\
  allNodes initialState = [] /\ allEdges initialState = [] /\
  buildEffect [] st = st /\
  length (allNodes (buildEffect [] st)) = 2 /\
  length (allEdges (buildEffect [] st)) = 1.
Proof. repeat split. Qed.

Lemma lookup_nonempty {A} (l : list A) i a : l !! i = Some a -> l <> [].
Proof. intros H ->. discriminate. Qed.

Lemma buildEffect_allEdges ts st i t :
  ts !! i = Some t -> allEdges (buildEffect ts st) !! i = Some (edgeOf t i).
Proof.
  intros Ht. rewrite (buildEffect_nonempty ts st (lookup_nonempty _ _ _ Ht)).
  cbn [allEdges]. rewrite buildGraph_edgeList, list_lookup_imap, Ht. reflexivity.
Qed.

(** C9 (edge label and predicate key).  The edge made for a fact keeps the
    fact's predicate unchanged as its key.  Its label is the whole predicate
    when the predicate has no ['/'], and otherwise the text after the last
    ['/'] unless that text is empty, in which case it is the whole predicate
    again. *)
Theorem edge_label_and_key ts st i t :
  ts !! i = Some t ->
  exists e, allEdges (buildEffect ts st) !! i = Some e /\
    Edge.predicate e = Triplet.predicate t /\
    (~ JsString.contains "/" (Triplet.predicate t) ->
       Edge.label e = Triplet.predicate t) /\
    (forall pre seg,
       Triplet.predicate t = (pre ++ String "/" seg)%string ->
       ~ JsString.contains "/" seg ->
       Edge.label e = if String.eqb seg "" then Triplet.predicate t else seg).
Proof.
  intros Ht. exists (edgeOf t i). split; [apply buildEffect_allEdges, Ht|].
  split; [reflexivity|]. cbn [edgeOf Edge.label]. unfold edgeLabel. split.
  - intros H. rewrite pop_split_whole by exact H.
    destruct (Triplet.predicate t); reflexivity.
  - intros pre seg E H. rewrite E, pop_split_after by exact H.
    destruct seg; reflexivity.
Qed.

(** C10 (object node label).  The object node made for a fact carries the
    object string itself when it has at most 20 characters, and its first 20
    characters followed by ["..."] otherwise; the label never has more than 23
    characters. *)
Theorem object_node_label ts st i t :
  ts !! i = Some t ->
  forall l n,
    In l (allNodes (buildEffect ts st)) ->
    heap_of (buildEffect ts st) !! l = Some n ->
    Node.id n = objectId t i ->
    Node.type n = object ->
    (String.length (Triplet.object t) <= 20 -> Node.label n = Triplet.object t) /\
    (20 < String.length (Triplet.object t) ->
       Node.label n = (JsString.substring0 20 (Triplet.object t) ++ "...")%string) /\
    String.length (Node.label n) <= 23.
Proof.
  intros Ht l n. rewrite (buildEffect_nonempty ts st (lookup_nonempty _ _ _ Ht)).
  cbn [allNodes heap_of]. unfold NodeMap.values. intros Hin Hl Hid Hty.
  apply in_map_iff in Hin as [[key l'] [E Hin]]. simpl in E. subst l'.
  destruct (buildGraph_sound ts (heap_of st) (draws st) key l Hin)
    as (n' & Hl' & Hkey & Hobj).
  rewrite Hl in Hl'. injection Hl' as <-.
  destruct (Hobj Hty) as (j & tj & Hj & Ek & Hlab).
  assert (Eo : Triplet.object tj = Triplet.object t).
  { apply (objectId_inj tj j t i). congruence. }
  rewrite Hlab, Eo. split; [|split].
  - intros Hle. unfold objectLabel.
    destruct (20 <? String.length (Triplet.object t))%nat eqn:E; [|reflexivity].
    apply Nat.ltb_lt in E. lia.
  - intros Hlt. unfold objectLabel.
    apply Nat.ltb_lt in Hlt. rewrite Hlt. reflexivity.
  - apply objectLabel_length.
Qed.

(* ===================================================================== *)
(** ** Sorting *)

Section SortFacts.
Context {A : Type} (key : A -> Z).
Local Abbreviation cmp := (fun a b : A => (key b - key a)%Z).

Lemma insertSorted_perm (c : A -> A -> Z) a l :
  Permutation (insertSorted c a l) (a :: l).
Proof.
  induction l as [|b l IH]; simpl; [reflexivity|].
  destruct (c b a <? 0)%Z; [|reflexivity].
  rewrite IH. apply perm_swap.
Qed.

Lemma sort_perm (c : A -> A -> Z) l : Permutation (sort c l) l.
Proof.
  induction l as [|a l IH]; simpl; [reflexivity|].
  rewrite insertSorted_perm, IH. reflexivity.
Qed.

Lemma before_cons (x a b : A) l : before l a b -> before (x :: l) a b.
Proof.
  intros (i & j & Hi & Hj & Hlt).
  exists (Datatypes.S i), (Datatypes.S j). repeat split; auto; lia.
Qed.

Lemma before_head (x b : A) l : In b l -> before (x :: l) x b.
Proof.
  intros Hin. apply list_elem_of_In, list_elem_of_lookup in Hin as [j Hj].
  exists 0, (Datatypes.S j). repeat split; auto; lia.
Qed.

Lemma ranksAbove_cons x l a b :
  ranksAbove key l a b -> ranksAbove key (x :: l) a b.
Proof. intros [H|[H1 H2]]; [left|right]; auto using before_cons. Qed.

Lemma ranksAbove_key l a b : ranksAbove key l a b -> (key b <= key a)%Z.
Proof. intros [H|[H _]]; lia. Qed.

Lemma insertSorted_ranked x l s :
  StronglySorted (ranksAbove key (x :: l)) s ->
  (forall b, In b s -> In b l) ->
  StronglySorted (ranksAbove key (x :: l)) (insertSorted cmp x s).
Proof.
  induction s as [|b s IH]; intros Hs Hin; simpl.
  - constructor; constructor.
  - apply StronglySorted_inv in Hs as [Hs Hb].
    cbn beta. destruct (key x - key b <? 0)%Z eqn:E.
    + apply Z.ltb_lt in E. constructor.
      * apply IH; [exact Hs|]. intros y Hy. apply Hin. right; exact Hy.
      * rewrite List.Forall_forall. intros y Hy.
        apply (Permutation_in _ (insertSorted_perm cmp x s)) in Hy.
        destruct Hy as [<-|Hy]; [left; lia|].
        rewrite List.Forall_forall in Hb. apply Hb, Hy.
    + apply Z.ltb_ge in E. constructor; [constructor; assumption|].
      rewrite List.Forall_forall. intros y Hy.
      assert (Hle : (key y <= key b)%Z).
      { destruct Hy as [<-|Hy]; [lia|].
        rewrite List.Forall_forall in Hb. apply ranksAbove_key with (l := x :: l).
        apply Hb, Hy. }
      destruct (Z.eq_dec (key y) (key x)) as [Heq|Hne].
      * right. split; [lia|]. apply before_head, Hin, Hy.
      * left. lia.
Qed.

(** The sorted list runs from the highest rank down: larger keys first,
    and among equal keys the original order. *)
Lemma sort_ranked l : StronglySorted (ranksAbove key l) (sort cmp l).
Proof.
  induction l as [|x l IH]; simpl; [constructor|].
  apply insertSorted_ranked.
  - clear -IH. induction IH as [|a s Hs IHs Ha]; constructor; [exact IHs|].
    eapply Forall_impl; [exact Ha|]. intros b. apply ranksAbove_cons.
  - intros b Hb. apply (Permutation_in _ (sort_perm cmp l)), Hb.
Qed.

Lemma StronglySorted_app_ranked (R : A -> A -> Prop) l1 l2 :
  StronglySorted R (l1 ++ l2) ->
  forall a b, In a l1 -> In b l2 -> R a b.
Proof.
  induction l1 as [|x l1 IH]; intros Hs a b Ha Hb; [destruct Ha|].
  simpl in Hs. apply StronglySorted_inv in Hs as [Hs Hx].
  destruct Ha as [->|Ha]; [|eapply IH; eauto].
  rewrite List.Forall_forall in Hx. apply Hx, in_or_app. right; exact Hb.
Qed.
End SortFacts.

(* ===================================================================== *)
(** ** Layouts write positions only *)

Lemma sameButPosition_refl n : Node.sameButPosition n n.
Proof. repeat split. Qed.

Lemma sameButPosition_set_xy a b px py :
  Node.sameButPosition a b -> Node.sameButPosition a (Node.set_xy px py b).
Proof. unfold Node.sameButPosition. simpl. tauto. Qed.

Lemma Forall2_same_refl (h : heap) : Forall2 Node.sameButPosition h h.
Proof. induction h; constructor; auto using sameButPosition_refl. Qed.

Lemma place_sameButPosition pos nodes (h0 h : heap) :
  Forall2 Node.sameButPosition h0 h ->
  Forall2 Node.sameButPosition h0 (place pos nodes h).
Proof.
  intros H. unfold place.
  apply (forEachIdx_invariant (fun _ h' => Forall2 Node.sameButPosition h0 h')
           _ nodes 0 h H).
  intros k l h' _ Hh'. unfold setPosition.
  apply Forall2_alter_r; [exact Hh'|].
  intros a b _ _. apply sameButPosition_set_xy.
Qed.

Lemma applyLayout_sameButPosition nodes edges lt (h : heap) :
  Forall2 Node.sameButPosition h (applyLayout nodes edges lt h).
Proof.
  destruct lt; simpl; repeat apply place_sameButPosition;
    apply Forall2_same_refl.
Qed.

Lemma setPositions_elsewhere (pos : nat -> float * float) nodes :
  forall from (h : heap) l,
    ~ In l nodes ->
    forEachIdx (fun l index => setPosition (fst (pos index)) (snd (pos index)) l)
               nodes from h !! l
    = h !! l.
Proof.
  induction nodes as [|a nodes IH]; intros from h l Hl; simpl; [reflexivity|].
  rewrite IH by (intros H; apply Hl; right; exact H).
  unfold setPosition. apply list_lookup_alter_ne.
  intros ->. apply Hl. left; reflexivity.
Qed.

Lemma place_elsewhere pos nodes (h : heap) l :
  ~ In l nodes -> place pos nodes h !! l = h !! l.
Proof. apply setPositions_elsewhere. Qed.

(** In a list of distinct nodes the node at index [i] gets the position of
    index [i]. *)
Lemma setPositions_at (pos : nat -> float * float) nodes :
  NoDup nodes ->
  forall from (h : heap) i l,
    nodes !! i = Some l ->
    forEachIdx (fun l index => setPosition (fst (pos index)) (snd (pos index)) l)
               nodes from h !! l
    = Node.set_xy (fst (pos (from + i))) (snd (pos (from + i))) <$> h !! l.
Proof.
  induction 1 as [|a nodes Ha Hnd IH]; intros from h i l Hi; [discriminate|].
  simpl. destruct i as [|i]; simpl in Hi.
  - injection Hi as <-. rewrite setPositions_elsewhere.
    + unfold setPosition. rewrite list_lookup_alter_eq, Nat.add_0_r. reflexivity.
    + intros H. apply Ha, list_elem_of_In, H.
  - rewrite (IH _ _ i l Hi). unfold setPosition.
    rewrite list_lookup_alter_ne.
    + replace (Datatypes.S from + i) with (from + Datatypes.S i) by lia. reflexivity.
    + intros ->. apply Ha, list_elem_of_lookup. eauto.
Qed.

Lemma ofType_In h ty nodes l : In l (ofType h ty nodes) -> In l nodes.
Proof. unfold ofType. rewrite filter_In. tauto. Qed.

Lemma applyLayout_elsewhere nodes edges lt (h : heap) l :
  ~ In l nodes -> applyLayout nodes edges lt h !! l = h !! l.
Proof.
  intros Hl. destruct lt; simpl; try reflexivity;
    rewrite ?place_elsewhere; auto; intros H; apply Hl; eauto using ofType_In.
Qed.

Lemma idPresent_sameButPosition (h h' : heap) nodes id :
  Forall2 Node.sameButPosition h h' -> idPresent h nodes id -> idPresent h' nodes id.
Proof.
  intros HR (l & n & Hin & Hl & Hid).
  destruct (Forall2_lookup_l _ _ _ _ _ HR Hl) as (n' & Hl' & Hn).
  exists l, n'. repeat split; auto. destruct Hn as [E _]. congruence.
Qed.

(* ===================================================================== *)
(** ** The filter engine *)

Lemma someId_spec h nodes id : someId h nodes id = true <-> idPresent h nodes id.
Proof.
  unfold someId, idPresent, onNode. rewrite existsb_exists. split.
  - intros (l & Hin & H). destruct (h !! l) as [n|] eqn:E; [|discriminate].
    apply String.eqb_eq in H. eauto.
  - intros (l & n & Hin & Hl & Hid). exists l. split; [exact Hin|].
    rewrite Hl. apply String.eqb_eq, Hid.
Qed.

Lemma connectedNodeIds_spec edges id :
  In id (connectedNodeIds edges) <->
  exists e, In e edges /\ (id = Edge.source e \/ id = Edge.target e).
Proof.
  unfold connectedNodeIds.
  assert (G : forall acc,
    In id (forEach (fun edge ids =>
             set_add (Edge.target edge) (set_add (Edge.source edge) ids)) edges acc) <->
    In id acc \/ exists e, In e edges /\ (id = Edge.source e \/ id = Edge.target e)).
  { induction edges as [|e edges IH]; intros acc.
    - rewrite forEach_nil. split; [auto|]. intros [H|(e & [] & _)]. exact H.
    - rewrite forEach_cons, IH, !set_add_In. split.
      + intros [[H|[H|H]]|(e' & Hin & H)]; auto.
        * right. exists e. split; [left; reflexivity|auto].
        * right. exists e. split; [left; reflexivity|auto].
        * right. exists e'. split; [right; exact Hin|auto].
      + intros [H|(e' & [<-|Hin] & H)]; auto.
        * destruct H; auto.
        * right. exists e'. auto. }
  rewrite G. split; [intros [[]|H]; exact H|auto].
Qed.

Lemma visibleNodeIds_spec h nodes id :
  In id (visibleNodeIds h nodes) <-> idPresent h nodes id.
Proof.
  unfold visibleNodeIds, idPresent.
  assert (G : forall acc,
    In id (forEach (fun l ids => onNode h ids (fun n => set_add (Node.id n) ids) l)
             nodes acc) <->
    In id acc \/ exists l n, In l nodes /\ h !! l = Some n /\ Node.id n = id).
  { induction nodes as [|a nodes IH]; intros acc.
    - rewrite forEach_nil. split; [auto|]. intros [H|(l & n & [] & _)]. exact H.
    - rewrite forEach_cons, IH. unfold onNode at 1.
      destruct (h !! a) as [na|] eqn:Ea.
      + rewrite set_add_In. split.
        * intros [[->|H]|(l & n & Hin & Hl & Hid)]; auto.
          -- right. exists a, na. split; [left; reflexivity|auto].
          -- right. exists l, n. split; [right; exact Hin|auto].
        * intros [H|(l & n & [<-|Hin] & Hl & Hid)]; auto.
          -- left. left. congruence.
          -- right. exists l, n. auto.
      + split.
        * intros [H|(l & n & Hin & Hl & Hid)]; auto.
          right. exists l, n. split; [right; exact Hin|auto].
        * intros [H|(l & n & [<-|Hin] & Hl & Hid)]; auto; [congruence|].
          right. exists l, n. auto. }
  rewrite G. split; [intros [[]|H]; exact H|auto].
Qed.

Lemma slice0_take {A} (m : Z) (l : list A) :
  (0 <= m)%Z -> slice0 m l = take (Z.to_nat m) l.
Proof.
  intros Hm. unfold slice0.
  destruct (m <? 0)%Z eqn:E; [apply Z.ltb_lt in E; lia|].
  destruct (Z.le_gt_cases m (Z.of_nat (length l))) as [Hle|Hgt].
  - rewrite Z.min_l by lia. reflexivity.
  - rewrite Z.min_r by lia. rewrite Nat2Z.id.
    rewrite !firstn_all2; [reflexivity|lia|lia].
Qed.

(** Before the cap, every surviving edge has both ends among the surviving
    nodes. *)
Lemma surviving_edges_attached f h nodes edges e :
  In e (survivingEdges f h nodes edges) ->
  idPresent h (survivingNodes f h nodes edges) (Edge.source e) /\
  idPresent h (survivingNodes f h nodes edges) (Edge.target e).
Proof.
  unfold survivingEdges, survivingNodes, filterEdges. intros He.
  pose proof He as He'. apply filter_In in He' as [_ Hk]. unfold keepEdge in Hk.
  destruct (negb _); [discriminate|].
  apply andb_true_iff in Hk as [Hs Ht].
  apply someId_spec in Hs, Ht.
  unfold dropIsolated. destruct (negb (GraphFilters.showIsolatedNodes f)); [|auto].
  assert (G : forall id, (id = Edge.source e \/ id = Edge.target e) ->
    idPresent h (filterNodes f h nodes) id ->
    idPresent h (List.filter (onNode h false (fun n => includesStr
       (connectedNodeIds (List.filter (keepEdge f h (filterNodes f h nodes)) edges))
       (Node.id n))) (filterNodes f h nodes)) id).
  { intros id Hid (l & n & Hin & Hl & E). exists l, n. repeat split; auto.
    apply filter_In. split; [exact Hin|]. unfold onNode. rewrite Hl.
    apply includesStr_In, connectedNodeIds_spec. exists e. split; [exact He|].
    rewrite E. exact Hid. }
  split; apply G; auto.
Qed.

Lemma capNodes_attached f h nodes edges nodes' edges' :
  capNodes f h nodes edges = (nodes', edges') ->
  (forall e, In e edges ->
     idPresent h nodes (Edge.source e) /\ idPresent h nodes (Edge.target e)) ->
  forall e, In e edges' ->
     idPresent h nodes' (Edge.source e) /\ idPresent h nodes' (Edge.target e).
Proof.
  unfold capNodes. destruct (_ <? _)%Z.
  - intros [= <- <-] _ e He. apply filter_In in He as [_ He].
    apply andb_true_iff in He as [Hs Ht].
    apply includesStr_In, visibleNodeIds_spec in Hs, Ht. auto.
  - intros [= <- <-] H. exact H.
Qed.

(** C2 (no dangling edges).  Every edge the filter shows has its source id
    and its target id on nodes the filter shows, whatever the criteria. *)
Theorem filter_no_dangling_edges st e :
  In e (visibleEdges (filterEffect st)) ->
  idPresent (heap_of (filterEffect st)) (visibleNodes (filterEffect st)) (Edge.source e)
  /\
  idPresent (heap_of (filterEffect st)) (visibleNodes (filterEffect st)) (Edge.target e).
Proof.
  unfold filterEffect.
  destruct (capNodes _ _ _ _) as [nodes' edges'] eqn:Ecap.
  cbn [visibleEdges heap_of visibleNodes]. intros He.
  destruct (capNodes_attached _ _ _ _ _ _ Ecap
              (surviving_edges_attached _ _ _ _) e He) as [Hs Ht].
  split; eapply idPresent_sameButPosition;
    eauto using applyLayout_sameButPosition.
Qed.

(** C3 (what the filter writes).  The filter leaves the arrays [allNodes] and
    [allEdges] as they are, and of the node objects it changes nothing but the
    position: only nodes it shows are written, and with the force layout no
    node is written at all. *)
Theorem filter_writes_positions_only st :
  allNodes (filterEffect st) = allNodes st /\
  allEdges (filterEffect st) = allEdges st /\
  Forall2 Node.sameButPosition (heap_of st) (heap_of (filterEffect st)) /\
  (forall l, ~ In l (visibleNodes (filterEffect st)) ->
             heap_of (filterEffect st) !! l = heap_of st !! l) /\
  (GraphFilters.layoutType (filters st) = force ->
   heap_of (filterEffect st) = heap_of st).
Proof.
  unfold filterEffect.
  destruct (capNodes _ _ _ _) as [nodes' edges'] eqn:Ecap.
  cbn [allNodes allEdges heap_of visibleNodes].
  split; [reflexivity|]. split; [reflexivity|].
  split; [apply applyLayout_sameButPosition|].
  split; [intros l Hl; apply applyLayout_elsewhere, Hl|].
  intros ->. reflexivity.
Qed.

Lemma filter_sublist {A} (f : A -> bool) (l : list A) : sublist (List.filter f l) l.
Proof.
  induction l as [|a l IH]; simpl; [constructor|].
  destruct (f a); constructor; exact IH.
Qed.

(** The survivors stand in the order of [allNodes], the insertion order of
    the builder's map. *)
Lemma survivingNodes_sublist f h nodes edges :
  sublist (survivingNodes f h nodes edges) nodes.
Proof.
  unfold survivingNodes, dropIsolated, filterNodes.
  destruct (negb _); [|apply filter_sublist].
  etransitivity; apply filter_sublist.
Qed.

Lemma filter_NoDup {A} (f : A -> bool) (l : list A) : NoDup l -> NoDup (List.filter f l).
Proof. intros H. eapply sublist_NoDup; [exact H|apply filter_sublist]. Qed.

(** The nodes the filter shows are distinct objects when those of [allNodes]
    are. *)
Lemma filterEffect_distinct st :
  NoDup (allNodes st) -> NoDup (visibleNodes (filterEffect st)).
Proof.
  intros H. unfold filterEffect.
  assert (Hs : NoDup (survivingNodes (filters st) (heap_of st) (allNodes st) (allEdges st))).
  { eapply sublist_NoDup; [exact H|apply survivingNodes_sublist]. }
  unfold capNodes. destruct (_ <? _)%Z; cbn [visibleNodes]; [|exact Hs].
  unfold slice0. eapply sublist_NoDup; [|apply sublist_take].
  rewrite sort_perm. exact Hs.
Qed.

(** C4 (node cap).  With a cap that is not negative the filter never shows
    more nodes than the cap.  When fewer nodes than the cap survive the other
    filters they are all shown; when more survive, exactly cap-many are shown,
    each of them ranking above each survivor that is dropped (more
    connections, or as many and earlier in the order of the survivors), and
    the edges shown are the surviving edges with both ends on shown nodes. *)
Theorem filter_node_cap st :
  (0 <= GraphFilters.maxNodes (filters st))%Z ->
  let f := filters st in
  let h := heap_of st in
  let m := Z.to_nat (GraphFilters.maxNodes f) in
  let survivors := survivingNodes f h (allNodes st) (allEdges st) in
  let edges := survivingEdges f h (allNodes st) (allEdges st) in
  let shown := visibleNodes (filterEffect st) in
  length shown <= m /\
  (length survivors <= m ->
     shown = survivors /\ visibleEdges (filterEffect st) = edges) /\
  (m < length survivors ->
     length shown = m /\
     (exists dropped,
        Permutation survivors (shown ++ dropped) /\
        forall k d, In k shown -> In d dropped ->
                    ranksAbove (degree h) survivors k d) /\
     (forall e, In e (visibleEdges (filterEffect st)) <->
                In e edges /\ idPresent h shown (Edge.source e)
                /\ idPresent h shown (Edge.target e))).
Proof.
  intros Hm f h m survivors edges shown.
  change (0 <= GraphFilters.maxNodes f)%Z in Hm.
  subst shown. unfold filterEffect. fold f h survivors edges.
  unfold capNodes.
  destruct (GraphFilters.maxNodes f <? Z.of_nat (length survivors))%Z eqn:E;
    cbn [visibleNodes visibleEdges].
  - apply Z.ltb_lt in E. assert (Hlt : m < length survivors) by (subst m; lia).
    rewrite (slice0_take _ _ Hm). fold m.
    set (sorted := sort (byConnections h) survivors).
    assert (Hlen : length sorted = length survivors).
    { apply Permutation_length, sort_perm. }
    assert (Htake : length (take m sorted) = m).
    { rewrite length_take. lia. }
    split; [lia|]. split; [lia|]. intros _.
    split; [exact Htake|]. split.
    + exists (drop m sorted). split.
      * rewrite take_drop. symmetry. apply sort_perm.
      * apply (StronglySorted_app_ranked (ranksAbove (degree h) survivors)).
        rewrite take_drop. apply (sort_ranked (degree h)).
    + intros e. rewrite filter_In, andb_true_iff, !includesStr_In,
        !visibleNodeIds_spec. reflexivity.
  - apply Z.ltb_ge in E. assert (Hle : length survivors <= m) by (subst m; lia).
    split; [exact Hle|]. split; [auto|]. lia.
Qed.

(* ===================================================================== *)
(** ** The static layouts *)

Lemma forEachIdx_setPosition pos nodes :
  forall from h,
    forEachIdx (fun l index => setPosition (fst (pos index)) (snd (pos index)) l)
               nodes from h
    = runWrites (writes pos from nodes) h.
Proof.
  induction nodes as [|a nodes IH]; intros from h; [reflexivity|].
  simpl. rewrite IH. unfold writes. simpl. rewrite Nat.add_0_r.
  f_equal. apply imap_ext. intros j x _. simpl. do 2 f_equal. lia.
Qed.

Lemma place_runWrites pos nodes h : place pos nodes h = runWrites (writes pos 0 nodes) h.
Proof. apply forEachIdx_setPosition. Qed.

Lemma runWrites_app ws1 ws2 h :
  runWrites (ws1 ++ ws2) h = runWrites ws2 (runWrites ws1 h).
Proof. unfold runWrites. apply foldl_app. Qed.

Lemma applyLayout_runWrites nodes edges lt h :
  applyLayout nodes edges lt h = runWrites (layoutWrites nodes lt h) h.
Proof.
  destruct lt; simpl; rewrite ?runWrites_app, ?place_runWrites; reflexivity.
Qed.

Lemma finalOf_cons w ws l n :
  finalOf (w :: ws) l n
  = finalOf ws l (if decide (fst w = l)
                  then Node.set_xy (fst (snd w)) (snd (snd w)) n else n).
Proof. reflexivity. Qed.

Lemma runWrites_lookup ws :
  forall (h : heap) l, runWrites ws h !! l = finalOf ws l <$> h !! l.
Proof.
  induction ws as [|w ws IH]; intros h l.
  - simpl. destruct (h !! l); reflexivity.
  - change (runWrites (w :: ws) h)
      with (runWrites ws (setPosition (fst (snd w)) (snd (snd w)) (fst w) h)).
    rewrite IH. unfold setPosition. rewrite list_lookup_alter.
    destruct (decide (fst w = l)) as [El|Hne].
    + subst l. destruct (h !! fst w) as [n|]; [|reflexivity].
      change (Some (finalOf ws (fst w) (Node.set_xy (fst (snd w)) (snd (snd w)) n))
              = Some (finalOf (w :: ws) (fst w) n)).
      rewrite finalOf_cons, decide_True by reflexivity. reflexivity.
    + destruct (h !! l) as [n|]; [|reflexivity].
      change (Some (finalOf ws l n) = Some (finalOf (w :: ws) l n)).
      rewrite finalOf_cons, decide_False by exact Hne. reflexivity.
Qed.

Lemma set_xy_set_xy p q p' q' n :
  Node.set_xy p q (Node.set_xy p' q' n) = Node.set_xy p q n.
Proof. reflexivity. Qed.

(** A sequence of writes either leaves a node alone or sets its position to
    a value that depends on the sequence only. *)
Lemma finalOf_cases ws l :
  (forall n, finalOf ws l n = n) /\ (forall w, In w ws -> fst w <> l)
  \/ exists p, forall n, finalOf ws l n = Node.set_xy (fst p) (snd p) n.
Proof.
  induction ws as [|w ws IH].
  - left. split; [reflexivity|]. intros w [].
  - destruct IH as [[Hid Hno]|[p Hp]].
    + destruct (decide (fst w = l)) as [E|Hne].
      * right. exists (snd w). intros n. rewrite finalOf_cons.
        destruct (decide (fst w = l)); [|contradiction]. apply Hid.
      * left. split.
        -- intros n. rewrite finalOf_cons.
           destruct (decide (fst w = l)); [contradiction|]. apply Hid.
        -- intros w' [<-|Hin]; auto.
    + right. exists p. intros n. rewrite finalOf_cons, Hp.
      destruct (decide (fst w = l)); reflexivity.
Qed.

Lemma finalOf_idempotent ws l n : finalOf ws l (finalOf ws l n) = finalOf ws l n.
Proof.
  destruct (finalOf_cases ws l) as [[Hid _]|[p Hp]].
  - rewrite !Hid. reflexivity.
  - rewrite !Hp. reflexivity.
Qed.

Lemma runWrites_idempotent ws h : runWrites ws (runWrites ws h) = runWrites ws h.
Proof.
  apply list_eq. intros l. rewrite !runWrites_lookup.
  destruct (h !! l) as [n|]; simpl; [|reflexivity].
  rewrite finalOf_idempotent. reflexivity.
Qed.

Lemma finalOf_type ws l n : Node.type (finalOf ws l n) = Node.type n.
Proof.
  destruct (finalOf_cases ws l) as [[Hid _]|[p Hp]].
  - rewrite Hid. reflexivity.
  - rewrite Hp. reflexivity.
Qed.

Lemma ofType_ext (h1 h2 : heap) ty nodes :
  (forall l, Node.type <$> h1 !! l = Node.type <$> h2 !! l) ->
  ofType h1 ty nodes = ofType h2 ty nodes.
Proof.
  intros H. unfold ofType. apply filter_ext. intros l. unfold onNode.
  specialize (H l). destruct (h1 !! l), (h2 !! l); simpl in H; congruence.
Qed.

Lemma layoutWrites_ext (h1 h2 : heap) nodes lt :
  (forall l, Node.type <$> h1 !! l = Node.type <$> h2 !! l) ->
  layoutWrites nodes lt h1 = layoutWrites nodes lt h2.
Proof.
  intros H. destruct lt; simpl; try reflexivity.
  rewrite !(ofType_ext h1 h2) by exact H. reflexivity.
Qed.

Lemma runWrites_type ws (h : heap) l :
  Node.type <$> runWrites ws h !! l = Node.type <$> h !! l.
Proof.
  rewrite runWrites_lookup. destruct (h !! l); simpl; [|reflexivity].
  rewrite finalOf_type. reflexivity.
Qed.

Lemma applyLayout_idempotent nodes edges lt h :
  applyLayout nodes edges lt (applyLayout nodes edges lt h)
  = applyLayout nodes edges lt h.
Proof.
  rewrite !applyLayout_runWrites.
  rewrite (layoutWrites_ext (runWrites (layoutWrites nodes lt h) h) h).
  - apply runWrites_idempotent.
  - intros l. apply runWrites_type.
Qed.

Lemma writes_In pos from nodes l :
  In l nodes -> exists w, In w (writes pos from nodes) /\ fst w = l.
Proof.
  intros Hin. apply list_elem_of_In, list_elem_of_lookup in Hin as [j Hj].
  exists (l, pos (from + j)). split; [|reflexivity].
  apply list_elem_of_In, list_elem_of_lookup. exists j.
  unfold writes. rewrite list_lookup_imap, Hj. reflexivity.
Qed.

Lemma NodeType_eqb_refl ty : NodeType_eqb ty ty = true.
Proof. destruct ty; reflexivity. Qed.

(** Under a static layout every shown node that exists is written. *)
Lemma layoutWrites_covers nodes lt (h : heap) l n :
  isForce lt = false -> In l nodes -> h !! l = Some n ->
  exists w, In w (layoutWrites nodes lt h) /\ fst w = l.
Proof.
  intros Hlt Hin Hl. destruct lt; try discriminate; simpl.
  - apply writes_In, Hin.
  - assert (Hty : In l (ofType h (Node.type n) nodes)).
    { unfold ofType. apply filter_In. split; [exact Hin|].
      unfold onNode. rewrite Hl. apply NodeType_eqb_refl. }
    destruct (Node.type n).
    + destruct (writes_In (bandPosition 100) 0 _ l Hty) as (w & Hw & E).
      exists w. split; [apply in_or_app; left|]; assumption.
    + destruct (writes_In (bandPosition 300) 0 _ l Hty) as (w & Hw & E).
      exists w. split; [apply in_or_app; right|]; assumption.
  - apply writes_In, Hin.
Qed.

(** The positions a static layout gives do not depend on the positions (or
    any other field but the type) the nodes had. *)
Lemma applyLayout_position_ext nodes edges lt (h1 h2 : heap) l :
  isForce lt = false ->
  (forall l, Node.type <$> h1 !! l = Node.type <$> h2 !! l) ->
  In l nodes ->
  position <$> applyLayout nodes edges lt h1 !! l
  = position <$> applyLayout nodes edges lt h2 !! l.
Proof.
  intros Hlt Hty Hin. rewrite !applyLayout_runWrites.
  rewrite (layoutWrites_ext h1 h2) by exact Hty.
  rewrite !runWrites_lookup.
  pose proof (Hty l) as Hl.
  destruct (h1 !! l) as [n1|] eqn:E1, (h2 !! l) as [n2|] eqn:E2;
    simpl in *; try discriminate; [|reflexivity].
  destruct (finalOf_cases (layoutWrites nodes lt h2) l) as [[_ Hno]|[p Hp]].
  - exfalso. destruct (layoutWrites_covers nodes lt h2 l n2 Hlt Hin E2) as (w & Hw & E).
    exact (Hno w Hw E).
  - rewrite !Hp. reflexivity.
Qed.

(** C6 (the static layouts are functions of the ordered node list).  For
    every list of shown nodes: applying a layout a second time changes
    nothing; under the circular, grid and hierarchical layouts the position a
    shown node gets is the same whatever positions the nodes had before; and
    the circular layout puts the [i]-th of [N] distinct nodes at the angle
    [2 * PI * i / N] on the circle of radius 150 around (200, 200). *)
Theorem static_layouts_deterministic (nodes : list nat) (edges : list Edge.t) :
  (forall lt h,
     applyLayout nodes edges lt (applyLayout nodes edges lt h)
     = applyLayout nodes edges lt h) /\
  (forall lt (h1 h2 : heap) l,
     isForce lt = false ->
     (forall l, Node.type <$> h1 !! l = Node.type <$> h2 !! l) ->
     In l nodes ->
     position <$> applyLayout nodes edges lt h1 !! l
     = position <$> applyLayout nodes edges lt h2 !! l) /\
  (forall (h : heap) i l n,
     NoDup nodes -> nodes !! i = Some l -> h !! l = Some n ->
     let angle := (2 * JsNumber.Math_PI * JsNumber.of_nat i
                   / JsNumber.of_nat (length nodes))%float in
     exists n', applyLayout nodes edges circular h !! l = Some n' /\
                Node.x n' = (200 + 150 * Math_cos angle)%float /\
                Node.y n' = (200 + 150 * Math_sin angle)%float).
Proof.
  split; [|split].
  - intros lt h. apply applyLayout_idempotent.
  - intros lt h1 h2 l. apply applyLayout_position_ext.
  - intros h i l n Hnd Hi Hl angle. simpl. unfold place.
    rewrite (setPositions_at _ nodes Hnd 0 h i l Hi), Hl. simpl.
    eexists. split; [reflexivity|]. split; reflexivity.
Qed.

(* ===================================================================== *)
(** ** The force simulation *)

Lemma sameButVelocity_refl n : Node.sameButVelocity n n.
Proof. repeat split. Qed.

Lemma sameButVelocity_set_v a b vx vy :
  Node.sameButVelocity a b -> Node.sameButVelocity a (Node.set_v vx vy b).
Proof. unfold Node.sameButVelocity. simpl. tauto. Qed.

Lemma Forall2_sameButVelocity_refl (h : heap) : Forall2 Node.sameButVelocity h h.
Proof. induction h; constructor; auto using sameButVelocity_refl. Qed.

Lemma sameButVelocity_damp a b :
  Node.sameButVelocity a b -> Node.sameButVelocity a (damp b).
Proof. apply sameButVelocity_set_v. Qed.

Lemma sameButVelocity_repel other a b :
  Node.sameButVelocity a b -> Node.sameButVelocity a (repel other b).
Proof.
  intros H. unfold repel. destruct (negb _); [|exact H].
  destruct (_ && _); [apply sameButVelocity_set_v|]; exact H.
Qed.

Lemma repelFrom_sameButVelocity (h0 h : heap) l o :
  Forall2 Node.sameButVelocity h0 h ->
  Forall2 Node.sameButVelocity h0 (repelFrom l o h).
Proof.
  intros H. unfold repelFrom.
  destruct (h !! l) as [node|] eqn:El; [|exact H].
  destruct (h !! o) as [other|]; [|exact H].
  rewrite list_insert_alter. apply Forall2_alter_r; [exact H|].
  intros a b _ Hb Hab. rewrite El in Hb. injection Hb as <-.
  apply sameButVelocity_repel, Hab.
Qed.

Lemma applyForces_sameButVelocity (h0 h : heap) nodes l :
  Forall2 Node.sameButVelocity h0 h ->
  Forall2 Node.sameButVelocity h0 (applyForces nodes l h).
Proof.
  intros H. unfold applyForces.
  apply (forEach_invariant (fun h' => Forall2 Node.sameButVelocity h0 h')).
  - apply Forall2_alter_r; [exact H|]. intros a b _ _. apply sameButVelocity_damp.
  - intros o h' _ Hh'. apply repelFrom_sameButVelocity, Hh'.
Qed.

Lemma attract_sameButVelocity (h0 h : heap) nodes e :
  Forall2 Node.sameButVelocity h0 h ->
  Forall2 Node.sameButVelocity h0 (attract nodes e h).
Proof.
  intros H. unfold attract.
  destruct (findId h nodes (Edge.source e)) as [s|]; [|exact H].
  destruct (findId h nodes (Edge.target e)) as [t|]; [|exact H].
  destruct (h !! s) as [source|]; [|exact H].
  destruct (h !! t) as [target|]; [|exact H].
  destruct (0 <? _)%float; [|exact H].
  repeat (apply Forall2_alter_r; [|intros a b _ _; apply sameButVelocity_set_v]).
  exact H.
Qed.

(** The two force loops leave every position as it was. *)
Lemma forces_keep_positions nodes edges (h : heap) :
  Forall2 Node.sameButVelocity h
    (forEach (attract nodes) edges (forEach (applyForces nodes) nodes h)).
Proof.
  apply (forEach_invariant (fun h' => Forall2 Node.sameButVelocity h h')).
  - apply (forEach_invariant (fun h' => Forall2 Node.sameButVelocity h h'));
      [apply Forall2_sameButVelocity_refl|].
    intros l h' _ Hh'. apply applyForces_sameButVelocity, Hh'.
  - intros e h' _ Hh'. apply attract_sameButVelocity, Hh'.
Qed.

Lemma integrate_elsewhere nodes :
  forall (h : heap) l,
    ~ In l nodes -> forEach (alter integrate) nodes h !! l = h !! l.
Proof.
  induction nodes as [|a nodes IH]; intros h l Hl; [reflexivity|].
  rewrite forEach_cons, IH by (intros H; apply Hl; right; exact H).
  apply list_lookup_alter_ne. intros ->. apply Hl. left; reflexivity.
Qed.

(** The last loop puts every listed node with a finite position inside the
    canvas. *)
Lemma integrate_all_inRange nodes :
  forall (h : heap),
    (forall l n, In l nodes -> h !! l = Some n ->
       is_finite (Node.x n) = true /\ is_finite (Node.y n) = true) ->
    forall l n', In l nodes -> forEach (alter integrate) nodes h !! l = Some n' ->
       JsNumber.inRange 20 380 (Node.x n') = true /\
       JsNumber.inRange 20 380 (Node.y n') = true.
Proof.
  induction nodes as [|a nodes IH]; intros h Hfin l n' Hin Hl; [destruct Hin|].
  rewrite forEach_cons in Hl.
  destruct (in_dec Nat.eq_dec l nodes) as [Hl'|Hl'].
  - refine (IH (alter integrate a h) _ l n' Hl' Hl).
    intros k n Hk Hn. rewrite list_lookup_alter in Hn.
    destruct (decide (a = k)) as [->|Hne].
    + destruct (h !! k) as [n0|] eqn:E; [|discriminate]. injection Hn as <-.
      destruct (Hfin k n0 (or_introl eq_refl) E) as [Hx Hy].
      destruct (integrate_inRange n0 Hx Hy) as [Rx Ry].
      split; [exact (inRange_finite 20 380 _ eq_refl eq_refl Rx)
             |exact (inRange_finite 20 380 _ eq_refl eq_refl Ry)].
    + apply (Hfin k n); [right; exact Hk|exact Hn].
  - destruct Hin as [->|Hin]; [|contradiction].
    rewrite integrate_elsewhere in Hl by exact Hl'.
    rewrite list_lookup_alter_eq in Hl.
    destruct (h !! l) as [n0|] eqn:E; [|discriminate]. injection Hl as <-.
    destruct (Hfin l n0 (or_introl eq_refl) E) as [Hx Hy].
    apply integrate_inRange; assumption.
Qed.

Lemma tick_inRange nodes edges (h : heap) :
  (forall l n, In l nodes -> h !! l = Some n ->
     is_finite (Node.x n) = true /\ is_finite (Node.y n) = true) ->
  forall l n', In l nodes -> tick nodes edges h !! l = Some n' ->
     JsNumber.inRange 20 380 (Node.x n') = true /\
     JsNumber.inRange 20 380 (Node.y n') = true.
Proof.
  intros Hfin. unfold tick. apply integrate_all_inRange.
  intros l n Hin Hl.
  destruct (Forall2_lookup_r _ _ _ _ _ (forces_keep_positions nodes edges h) Hl)
    as (n0 & Hl0 & Hsame).
  destruct Hsame as (_ & _ & _ & Hx & Hy & _).
  rewrite <- Hx, <- Hy. apply (Hfin l n0 Hin Hl0).
Qed.

(** Subtracting a finite number from itself gives zero. *)
Lemma sub_diag_finite (x : float) : is_finite x = true -> (x - x)%float = 0%float.
Proof.
  rewrite is_finite_spec. intros H. apply Prim2SF_inj.
  rewrite sub_spec. change (Prim2SF 0) with (S754_zero false).
  unfold SF64sub, SFsub.
  destruct (Prim2SF x) as [s|s| |s m e]; try discriminate.
  - destruct s; reflexivity.
  - rewrite Z.sub_diag. reflexivity.
Qed.

Lemma repel_skips other node :
  (0 <? distance (Node.x node - Node.x other) (Node.y node - Node.y other))%float
  = false ->
  repel other node = node.
Proof.
  intros H. unfold repel. rewrite H, andb_false_r.
  destruct (negb _); reflexivity.
Qed.

Lemma distance_zero_coincident (a b a' b' : float) :
  is_finite a = true -> is_finite b = true -> a' = a -> b' = b ->
  (0 <? distance (a - a') (b - b'))%float = false.
Proof.
  intros Ha Hb -> ->. rewrite !sub_diag_finite by assumption. reflexivity.
Qed.

Lemma attract_skips nodes e (h : heap) s t source target :
  findId h nodes (Edge.source e) = Some s ->
  findId h nodes (Edge.target e) = Some t ->
  h !! s = Some source -> h !! t = Some target ->
  (0 <? distance (Node.x target - Node.x source)
                 (Node.y target - Node.y source))%float = false ->
  attract nodes e h = h.
Proof.
  intros Hs Ht Hsrc Htgt Hd. unfold attract.
  rewrite Hs, Ht, Hsrc, Htgt, Hd. reflexivity.
Qed.

Lemma clamp_inRange_or_nan v :
  JsNumber.inRange 20 380 (clamp v) = true \/ is_nan (clamp v) = true.
Proof.
  destruct (is_nan v) eqn:E.
  - right. unfold clamp, JsNumber.Math_min. rewrite E, orb_true_r. reflexivity.
  - left. apply clamp_inRange, E.
Qed.

Lemma integrate_all_clamped nodes :
  forall (h : heap) l n',
    In l nodes -> forEach (alter integrate) nodes h !! l = Some n' ->
    exists v w, Node.x n' = clamp v /\ Node.y n' = clamp w.
Proof.
  induction nodes as [|a nodes IH]; intros h l n' Hin Hl; [destruct Hin|].
  rewrite forEach_cons in Hl.
  destruct (in_dec Nat.eq_dec l nodes) as [Hl'|Hl'].
  - exact (IH (alter integrate a h) l n' Hl' Hl).
  - destruct Hin as [->|Hin]; [|contradiction].
    rewrite integrate_elsewhere in Hl by exact Hl'.
    rewrite list_lookup_alter_eq in Hl.
    destruct (h !! l) as [n0|]; [|discriminate]. injection Hl as <-.
    unfold integrate. simpl. eauto.
Qed.

(** Whatever the state, a tick leaves no shown node at a number outside the
    canvas: each coordinate is within the bounds, or it is NaN. *)
Lemma force_tick_in_canvas_or_nan st l n' :
  GraphFilters.layoutType (filters st) = force ->
  isAnimating st = true ->
  In l (visibleNodes (runForceSimulation st)) ->
  heap_of (runForceSimulation st) !! l = Some n' ->
  (JsNumber.inRange 20 380 (Node.x n') = true \/ is_nan (Node.x n') = true) /\
  (JsNumber.inRange 20 380 (Node.y n') = true \/ is_nan (Node.y n') = true).
Proof.
  intros Hlt Han. unfold runForceSimulation. rewrite Hlt, Han.
  cbn [isForce negb orb visibleNodes heap_of]. unfold tick. intros Hin Hl.
  destruct (integrate_all_clamped _ _ _ _ Hin Hl) as (v & w & -> & ->).
  split; apply clamp_inRange_or_nan.
Qed.

(** C7 (one tick of the force simulation).  When the simulation runs (force
    layout, animating) on shown nodes whose positions are finite numbers, one
    tick leaves every shown node inside the canvas bounds, [20 <= x <= 380]
    and [20 <= y <= 380], so with a finite position.  The repulsion between
    two nodes and the attraction along an edge are skipped when the distance
    is not positive, as it is for two nodes at the same place. *)
Theorem force_tick_stays_in_canvas st :
  GraphFilters.layoutType (filters st) = force ->
  isAnimating st = true ->
  (forall l n, In l (visibleNodes st) -> heap_of st !! l = Some n ->
     is_finite (Node.x n) = true /\ is_finite (Node.y n) = true) ->
  (forall l n', In l (visibleNodes (runForceSimulation st)) ->
     heap_of (runForceSimulation st) !! l = Some n' ->
     JsNumber.inRange 20 380 (Node.x n') = true /\
     JsNumber.inRange 20 380 (Node.y n') = true /\
     is_finite (Node.x n') = true /\ is_finite (Node.y n') = true) /\
  (forall node other,
     (0 <? distance (Node.x node - Node.x other)
                    (Node.y node - Node.y other))%float = false ->
     repel other node = node) /\
  (forall node other,
     is_finite (Node.x node) = true -> is_finite (Node.y node) = true ->
     Node.x other = Node.x node -> Node.y other = Node.y node ->
     repel other node = node) /\
  (forall nodes e (h : heap) s t source target,
     findId h nodes (Edge.source e) = Some s ->
     findId h nodes (Edge.target e) = Some t ->
     h !! s = Some source -> h !! t = Some target ->
     (0 <? distance (Node.x target - Node.x source)
                    (Node.y target - Node.y source))%float = false ->
     attract nodes e h = h).
Proof.
  intros Hlt Han Hfin. split; [|split; [|split]].
  - unfold runForceSimulation. rewrite Hlt, Han. cbn [isForce negb orb].
    cbn [visibleNodes heap_of]. intros l n' Hin Hl.
    destruct (tick_inRange _ _ _ Hfin l n' Hin Hl) as [Rx Ry].
    repeat split; auto;
      [exact (inRange_finite 20 380 _ eq_refl eq_refl Rx)
      |exact (inRange_finite 20 380 _ eq_refl eq_refl Ry)].
  - intros node other. apply repel_skips.
  - intros node other Hx Hy Ex Ey. apply repel_skips.
    apply distance_zero_coincident; assumption.
  - apply attract_skips.
Qed.

(* ===================================================================== *)
(** ** Zoom *)

(** The zoom scale is a binary64 number, and [zoomIn] and [zoomOut] round
    at every step.  The lemmas below follow the operations of [SpecFloat]
    on the rational values of the numbers: a product or a quotient below 4
    is rounded by less than [2^-49]. *)

(** *** Powers of two *)

Lemma pow2_pos e : (0 < 2 ^ e)%Q.
Proof. apply Qpower_0_lt. reflexivity. Qed.

Lemma pow2_add a b : (2 ^ (a + b) == 2 ^ a * 2 ^ b)%Q.
Proof. apply Qpower_plus. discriminate. Qed.

Lemma pow2_le a b : (a <= b)%Z -> (2 ^ a <= 2 ^ b)%Q.
Proof. intros H. apply Qpower_le_compat_l; [exact H|discriminate]. Qed.

Lemma pow2_Z n : (0 <= n)%Z -> (2 ^ n == inject_Z (2 ^ n))%Q.
Proof. intros H. rewrite Zpower_Qpower by exact H. reflexivity. Qed.

Lemma scaled_mono m m' e : (m <= m')%Z -> (scaled m e <= scaled m' e)%Q.
Proof.
  intros H. unfold scaled. apply Qmult_le_compat_r.
  - rewrite <- Zle_Qle. exact H.
  - apply Qlt_le_weak, pow2_pos.
Qed.

Lemma scaled_lt m m' e : (m < m')%Z -> (scaled m e < scaled m' e)%Q.
Proof.
  intros H. unfold scaled. apply Qmult_lt_compat_r.
  - apply pow2_pos.
  - rewrite <- Zlt_Qlt. exact H.
Qed.

Lemma scaled_shift m e k :
  (0 <= k)%Z -> (scaled (m * 2 ^ k) e == scaled m (e + k))%Q.
Proof.
  intros H. unfold scaled. rewrite inject_Z_mult, pow2_add, <- pow2_Z by exact H.
  ring.
Qed.

Lemma scaled_succ m e : (scaled (m + 1) e == scaled m e + 2 ^ e)%Q.
Proof. unfold scaled. rewrite inject_Z_plus. ring. Qed.

Lemma scaled_nonneg m e : (0 <= m)%Z -> (0 <= scaled m e)%Q.
Proof.
  intros H. unfold scaled. apply Qmult_le_0_compat.
  - change 0%Q with (inject_Z 0). rewrite <- Zle_Qle. exact H.
  - apply Qlt_le_weak, pow2_pos.
Qed.

(** Below [2^u] there are no more than [u - e] binary digits over [2^e]. *)
Lemma scaled_lt_pow2 m e u :
  (0 < m)%Z -> (scaled m e < 2 ^ u)%Q -> (Z.log2 m + e < u)%Z.
Proof.
  intros Hm H. destruct (Z_lt_le_dec (Z.log2 m + e) u) as [|Hge]; [assumption|].
  exfalso. apply (Qlt_irrefl (2 ^ u)). eapply Qle_lt_trans; [|exact H].
  pose proof (Z.log2_spec m Hm) as [Hl _].
  pose proof (Z.log2_nonneg m) as Hn.
  apply Qle_trans with (scaled (2 ^ Z.log2 m) e).
  - unfold scaled. rewrite <- pow2_Z by exact Hn. rewrite <- pow2_add.
    apply pow2_le. lia.
  - apply scaled_mono. exact Hl.
Qed.

(* --------------------------------------------------------------------- *)
(** *** Binary digits *)

Lemma digits2_pos_log2 p : Z.pos (digits2_pos p) = (Z.log2 (Z.pos p) + 1)%Z.
Proof.
  induction p as [p IH|p IH|]; cbn [digits2_pos]; [| |reflexivity].
  - rewrite Pos2Z.inj_succ, IH.
    change (Z.pos p~1) with (2 * Z.pos p + 1)%Z.
    rewrite Z.log2_succ_double by lia. lia.
  - rewrite Pos2Z.inj_succ, IH.
    change (Z.pos p~0) with (2 * Z.pos p)%Z.
    rewrite Z.log2_double by lia. lia.
Qed.

Lemma Zdigits2_log2 m : (0 < m)%Z -> Zdigits2 m = (Z.log2 m + 1)%Z.
Proof. destruct m as [|p|p]; try lia. intros _. apply digits2_pos_log2. Qed.

(* --------------------------------------------------------------------- *)
(** *** Shifting a mantissa right *)

Lemma shr_1_m mrs : (0 <= shr_m mrs)%Z -> shr_m (shr_1 mrs) = (shr_m mrs / 2)%Z.
Proof.
  destruct mrs as [m r s]. cbn [shr_m]. intros H.
  destruct m as [|[p|p|]|p]; cbn [shr_1 shr_m]; try lia; try reflexivity.
  - apply Z.div_unique with 1%Z; lia.
  - apply Z.div_unique with 0%Z; lia.
Qed.

Lemma iter_shr_1_m p :
  forall mrs, (0 <= shr_m mrs)%Z ->
    shr_m (SpecFloat.iter_pos shr_1 p mrs) = (shr_m mrs / 2 ^ Z.pos p)%Z.
Proof.
  induction p as [p IH|p IH|]; intros mrs H; cbn [SpecFloat.iter_pos].
  - assert (H1 : (0 <= shr_m (shr_1 mrs))%Z)
      by (rewrite shr_1_m by exact H; apply Z.div_pos; lia).
    assert (H2 : (0 <= shr_m (SpecFloat.iter_pos shr_1 p (shr_1 mrs)))%Z)
      by (rewrite IH by exact H1; apply Z.div_pos; lia).
    rewrite IH by exact H2. rewrite IH by exact H1. rewrite shr_1_m by exact H.
    rewrite !Z.div_div by lia. f_equal.
    replace (Z.pos p~1) with (1 + (Z.pos p + Z.pos p))%Z by lia.
    rewrite !Z.pow_add_r by lia. lia.
  - assert (H2 : (0 <= shr_m (SpecFloat.iter_pos shr_1 p mrs))%Z)
      by (rewrite IH by exact H; apply Z.div_pos; lia).
    rewrite IH by exact H2. rewrite IH by exact H.
    rewrite !Z.div_div by lia. f_equal.
    replace (Z.pos p~0) with (Z.pos p + Z.pos p)%Z by lia.
    rewrite !Z.pow_add_r by lia. lia.
  - rewrite shr_1_m by exact H. reflexivity.
Qed.

(* --------------------------------------------------------------------- *)
(** *** Rounding to binary64 *)

Lemma shr_record_of_loc_m m l : shr_m (shr_record_of_loc m l) = m.
Proof. destruct l as [|[]]; reflexivity. Qed.

Lemma shr_fexp_spec m e l :
  (0 <= m)%Z ->
  snd (shr_fexp prec emax m e l) = Z.max e (fexp prec emax (Zdigits2 m + e)) /\
  (0 <= shr_m (fst (shr_fexp prec emax m e l)))%Z /\
  (scaled (shr_m (fst (shr_fexp prec emax m e l))) (snd (shr_fexp prec emax m e l))
   <= scaled m e)%Q /\
  (scaled (m + 1) e
   <= scaled (shr_m (fst (shr_fexp prec emax m e l)) + 1)
             (snd (shr_fexp prec emax m e l)))%Q.
Proof.
  intros Hm. unfold shr_fexp, shr.
  change IntDef.Z.sub with Z.sub. change IntDef.Z.add with Z.add.
  set (f := fexp prec emax (Zdigits2 m + e)).
  destruct (f - e)%Z as [|p|p] eqn:En; cbn [fst snd].
  - rewrite shr_record_of_loc_m. split; [lia|]. split; [exact Hm|].
    split; apply Qle_refl.
  - rewrite iter_shr_1_m by (rewrite shr_record_of_loc_m; exact Hm).
    rewrite shr_record_of_loc_m.
    assert (H2 : (0 < 2 ^ Z.pos p)%Z) by (apply Z.pow_pos_nonneg; lia).
    split; [lia|]. split; [apply Z.div_pos; lia|]. split.
    + rewrite <- scaled_shift by lia. apply scaled_mono.
      rewrite Z.mul_comm. apply Z.mul_div_le. exact H2.
    + rewrite <- scaled_shift by lia. apply scaled_mono.
      pose proof (Z.mul_succ_div_gt m (2 ^ Z.pos p) H2). lia.
  - rewrite shr_record_of_loc_m. split; [lia|]. split; [exact Hm|].
    split; apply Qle_refl.
Qed.

Lemma round_nearest_even_bounds m l :
  (m <= round_nearest_even m l <= m + 1)%Z.
Proof.
  destruct l as [|[]]; cbn [round_nearest_even]; try lia.
  destruct (Z.even m); lia.
Qed.

Lemma fexp_le x u : (x <= u + 53)%Z -> (-1074 <= u)%Z -> (fexp prec emax x <= u)%Z.
Proof. unfold fexp, emin, prec, emax. change IntDef.Z.max with Z.max. change IntDef.Z.sub with Z.sub. lia. Qed.

Lemma Zdigits2_le m e u :
  (0 <= m)%Z -> (scaled m e < 2 ^ u)%Q -> (e <= u)%Z -> (Zdigits2 m + e <= u)%Z.
Proof.
  intros Hm H He. destruct (Z.eq_dec m 0%Z) as [->|Hne]; [cbn; lia|].
  rewrite Zdigits2_log2 by lia.
  pose proof (scaled_lt_pow2 m e u ltac:(lia) H). lia.
Qed.

(** The rounding of a positive quantity below 4 that lies between
    [mx * 2^ex] and [(mx + 1) * 2^ex]: the result is a number, and it is
    less than [2^-49] away. *)
Lemma binary_round_aux_error mx ex lx (v : Q) :
  (0 <= mx)%Z -> (ex <= -51)%Z ->
  (scaled mx ex <= v)%Q -> (v < scaled (mx + 1) ex)%Q -> (v < 4)%Q ->
  sf_pos (binary_round_aux prec emax false mx ex lx) = true /\
  (v - 2 ^ (-49) <= sf_value (binary_round_aux prec emax false mx ex lx))%Q /\
  (sf_value (binary_round_aux prec emax false mx ex lx) <= v + 2 ^ (-49))%Q.
Proof.
  intros Hm Hex Hlo Hhi Hv. unfold binary_round_aux.
  destruct (shr_fexp_spec mx ex lx Hm) as (E1 & P1 & L1 & U1).
  destruct (shr_fexp prec emax mx ex lx) as [mrs' e'] eqn:S1. cbn [fst snd] in *.
  set (m1 := shr_m mrs') in *.
  set (m2 := round_nearest_even m1 (loc_of_shr_record mrs')).
  pose proof (round_nearest_even_bounds m1 (loc_of_shr_record mrs')) as B2.
  fold m2 in B2.
  destruct (shr_fexp_spec m2 e' loc_Exact ltac:(lia)) as (E2 & P2 & L2 & U2).
  destruct (shr_fexp prec emax m2 e' loc_Exact) as [mrs'' e''] eqn:S2.
  cbn [fst snd] in *.
  set (m3 := shr_m mrs'') in *.
  (* exponents *)
  assert (He' : (e' <= -51)%Z).
  { rewrite E1. apply Z.max_lub; [exact Hex|]. apply fexp_le; [|lia].
    apply (Zdigits2_le mx ex 2 Hm); [|lia].
    eapply Qle_lt_trans; [exact Hlo|]. exact Hv. }
  assert (Hp51 : (2 ^ e' <= 2 ^ (-51))%Q) by (apply pow2_le; exact He').
  assert (H1v : (scaled m1 e' <= v)%Q) by exact (Qle_trans _ _ _ L1 Hlo).
  assert (Hv1 : (v < scaled m1 e' + 2 ^ e')%Q).
  { rewrite <- scaled_succ. exact (Qlt_le_trans _ _ _ Hhi U1). }
  assert (H2lo : (scaled m1 e' <= scaled m2 e')%Q) by (apply scaled_mono; lia).
  assert (H2hi : (scaled m2 e' <= scaled m1 e' + 2 ^ e')%Q).
  { rewrite <- scaled_succ. apply scaled_mono. lia. }
  assert (He'' : (e'' <= -50)%Z).
  { rewrite E2. apply Z.max_lub; [lia|]. apply fexp_le; [|lia].
    apply (Zdigits2_le m2 e' 3); [lia| |lia].
    assert (E8 : (2 ^ 3 == 8)%Q) by reflexivity.
    assert (E51 : (2 ^ (-51) == 1 # 2251799813685248)%Q) by reflexivity.
    rewrite E8. rewrite E51 in Hp51. lra. }
  assert (Hp50 : (2 ^ e'' <= 2 ^ (-50))%Q) by (apply pow2_le; exact He'').
  assert (H3hi : (scaled m2 e' < scaled m3 e'' + 2 ^ e'')%Q).
  { rewrite <- scaled_succ. eapply Qlt_le_trans; [|exact U2]. apply scaled_lt. lia. }
  assert (E49 : (2 ^ (-49) == 1 # 562949953421312)%Q) by reflexivity.
  assert (E50 : (2 ^ (-50) == 1 # 1125899906842624)%Q) by reflexivity.
  assert (E51 : (2 ^ (-51) == 1 # 2251799813685248)%Q) by reflexivity.
  rewrite E49. rewrite E50 in Hp50. rewrite E51 in Hp51.
  assert (Hval : (v - (1 # 562949953421312) <= scaled m3 e'')%Q /\
                 (scaled m3 e'' <= v + (1 # 562949953421312))%Q) by (split; lra).
  fold m3 in P2.
  destruct m3 as [|p|p] eqn:Em3; [| |lia].
  - cbn [sf_pos sf_value]. split; [reflexivity|].
    unfold scaled in Hval. rewrite Qmult_0_l in Hval. exact Hval.
  - assert (Hle : Z.leb e'' (emax - prec) = true)
      by (apply Z.leb_le; unfold emax, prec; lia).
    change (IntDef.Z.leb e'' (IntDef.Z.sub emax prec)) with (Z.leb e'' (emax - prec)).
    rewrite Hle. cbn [sf_pos sf_value]. split; [reflexivity|].
    unfold scaled in Hval. rewrite Qmult_1_l. exact Hval.
Qed.

(* --------------------------------------------------------------------- *)
(** *** Products and quotients in binary64 *)

Lemma scaled_mul m1 e1 m2 e2 :
  (scaled m1 e1 * scaled m2 e2 == scaled (m1 * m2) (e1 + e2))%Q.
Proof. unfold scaled. rewrite inject_Z_mult, pow2_add. ring. Qed.

Lemma scaled_pos m e : (0 < m)%Z -> (0 < scaled m e)%Q.
Proof.
  intros H. unfold scaled. apply Qmult_lt_0_compat.
  - change 0%Q with (inject_Z 0). rewrite <- Zlt_Qlt. exact H.
  - apply pow2_pos.
Qed.

Lemma sf_value_pos m e : (sf_value (S754_finite false m e) == scaled (Z.pos m) e)%Q.
Proof. cbn [sf_value]. unfold scaled. ring. Qed.

(** A positive number below 4 has a small exponent. *)
Lemma small_exponent m e : (scaled (Z.pos m) e < 4)%Q -> (Z.log2 (Z.pos m) + e < 2)%Z.
Proof. intros H. apply scaled_lt_pow2; [lia|exact H]. Qed.

Lemma SFmul_error mx ex my ey :
  (ey <= -52)%Z ->
  (scaled (Z.pos mx) ex * scaled (Z.pos my) ey < 4)%Q ->
  (scaled (Z.pos mx) ex < 4)%Q ->
  sf_pos (SFmul prec emax (S754_finite false mx ex) (S754_finite false my ey)) = true /\
  (scaled (Z.pos mx) ex * scaled (Z.pos my) ey - 2 ^ (-49)
   <= sf_value (SFmul prec emax (S754_finite false mx ex) (S754_finite false my ey)))%Q /\
  (sf_value (SFmul prec emax (S754_finite false mx ex) (S754_finite false my ey))
   <= scaled (Z.pos mx) ex * scaled (Z.pos my) ey + 2 ^ (-49))%Q.
Proof.
  intros Hey Hv Hx. cbn [SFmul xorb].
  pose proof (small_exponent mx ex Hx) as Hs.
  pose proof (Z.log2_nonneg (Z.pos mx)) as Hl.
  pose proof (scaled_mul (Z.pos mx) ex (Z.pos my) ey) as E.
  change (Z.pos mx * Z.pos my)%Z with (Z.pos (mx * my)) in E.
  change (IntDef.Z.add ex ey) with (ex + ey)%Z.
  destruct (binary_round_aux_error (Z.pos (mx * my)) (ex + ey) loc_Exact
              (scaled (Z.pos mx) ex * scaled (Z.pos my) ey))
    as (Hp & Hlo & Hhi).
  - lia.
  - lia.
  - rewrite E. apply Qle_refl.
  - rewrite E. apply scaled_lt. lia.
  - exact Hv.
  - auto.
Qed.

Lemma div_eucl_bounds a b :
  (0 <= a)%Z -> (0 < b)%Z ->
  (0 <= fst (Z.div_eucl a b))%Z /\
  (fst (Z.div_eucl a b) * b <= a)%Z /\ (a < (fst (Z.div_eucl a b) + 1) * b)%Z.
Proof.
  intros Ha Hb. pose proof (Z_div_mod a b ltac:(lia)) as H.
  destruct (Z.div_eucl a b) as [q r]. cbn [fst]. destruct H as [H1 H2]. nia.
Qed.

Lemma SFdiv_core_spec mx ex my ey :
  (0 <= fst (fst (SFdiv_core_binary prec emax (Z.pos mx) ex (Z.pos my) ey)))%Z /\
  (snd (fst (SFdiv_core_binary prec emax (Z.pos mx) ex (Z.pos my) ey))
   <= fexp prec emax (Zdigits2 (Z.pos mx) + ex - (Zdigits2 (Z.pos my) + ey)))%Z /\
  (scaled (fst (fst (SFdiv_core_binary prec emax (Z.pos mx) ex (Z.pos my) ey)))
          (snd (fst (SFdiv_core_binary prec emax (Z.pos mx) ex (Z.pos my) ey)))
   * scaled (Z.pos my) ey <= scaled (Z.pos mx) ex)%Q /\
  (scaled (Z.pos mx) ex
   < scaled (fst (fst (SFdiv_core_binary prec emax (Z.pos mx) ex (Z.pos my) ey)) + 1)
            (snd (fst (SFdiv_core_binary prec emax (Z.pos mx) ex (Z.pos my) ey)))
     * scaled (Z.pos my) ey)%Q.
Proof.
  unfold SFdiv_core_binary. cbv zeta.
  change IntDef.Z.sub with Z.sub. change IntDef.Z.add with Z.add.
  change IntDef.Z.min with Z.min. change IntDef.Z.div_eucl with Z.div_eucl.
  change IntDef.Z.shiftl with Z.shiftl.
  set (f := fexp prec emax (Zdigits2 (Z.pos mx) + ex - (Zdigits2 (Z.pos my) + ey))).
  set (e' := Z.min f (ex - ey)).
  set (s := (ex - ey - e')%Z).
  set (m' := match s with
             | 0%Z => Z.pos mx
             | Z.pos _ => Z.shiftl (Z.pos mx) s
             | Z.neg _ => 0%Z
             end).
  assert (Hs : (0 <= s)%Z) by (unfold s, e'; lia).
  assert (Em : m' = (Z.pos mx * 2 ^ s)%Z).
  { unfold m'. destruct s as [|p|p] eqn:Es; [lia| |lia].
    rewrite Z.shiftl_mul_pow2 by lia. reflexivity. }
  assert (Hm' : (0 <= m')%Z) by (rewrite Em; apply Z.mul_nonneg_nonneg; [lia|apply Z.pow_nonneg; lia]).
  destruct (div_eucl_bounds m' (Z.pos my) Hm' ltac:(lia)) as (Hq & Hl & Hu).
  destruct (Z.div_eucl m' (Z.pos my)) as [q r]. cbn [fst snd] in *.
  split; [exact Hq|]. split; [unfold e'; lia|].
  assert (Ex : (scaled (Z.pos mx) ex == scaled m' (e' + ey))%Q).
  { rewrite Em, scaled_shift by exact Hs. unfold s.
    replace (e' + ey + (ex - ey - e'))%Z with ex by lia. reflexivity. }
  rewrite !scaled_mul, Ex. split.
  - apply scaled_mono. exact Hl.
  - apply scaled_lt. exact Hu.
Qed.

Lemma SFdiv_error mx ex my ey (v : Q) :
  (-1 <= Z.log2 (Z.pos my) + ey)%Z ->
  (v * scaled (Z.pos my) ey == scaled (Z.pos mx) ex)%Q ->
  (v < 4)%Q -> (scaled (Z.pos mx) ex < 4)%Q ->
  sf_pos (SFdiv prec emax (S754_finite false mx ex) (S754_finite false my ey)) = true /\
  (v - 2 ^ (-49)
   <= sf_value (SFdiv prec emax (S754_finite false mx ex) (S754_finite false my ey)))%Q /\
  (sf_value (SFdiv prec emax (S754_finite false mx ex) (S754_finite false my ey))
   <= v + 2 ^ (-49))%Q.
Proof.
  intros Hy Ev Hv Hx. cbn [SFdiv xorb].
  destruct (SFdiv_core_spec mx ex my ey) as (Hq & He & Hl & Hu).
  destruct (SFdiv_core_binary prec emax (Z.pos mx) ex (Z.pos my) ey) as [[q e'] l].
  cbn [fst snd] in *.
  pose proof (small_exponent mx ex Hx) as Hs.
  pose proof (scaled_pos (Z.pos my) ey ltac:(lia)) as Hpy.
  apply binary_round_aux_error.
  - exact Hq.
  - etransitivity; [exact He|]. apply fexp_le; [|lia].
    rewrite !Zdigits2_log2 by lia. lia.
  - rewrite <- Ev in Hl. apply (Qmult_le_r _ _ _ Hpy). exact Hl.
  - rewrite <- Ev in Hu. apply (Qmult_lt_r _ _ _ Hpy). exact Hu.
  - exact Hv.
Qed.

(* --------------------------------------------------------------------- *)
(** *** Comparison in binary64 *)

Lemma valid_mantissa m e :
  valid_binary (S754_finite false m e) = true ->
  (-1074 <= e)%Z /\ (Z.log2 (Z.pos m) <= 52)%Z /\
  ((-1074 < e)%Z -> Z.log2 (Z.pos m) = 52%Z).
Proof.
  cbn [valid_binary]. unfold bounded, canonical_mantissa, fexp, emin, emax, prec.
  change IntDef.Z.max with Z.max. change IntDef.Z.sub with Z.sub.
  change IntDef.Z.add with Z.add. change IntDef.Z.eqb with Z.eqb.
  rewrite andb_true_iff, Z.eqb_eq, digits2_pos_log2. lia.
Qed.

Lemma scaled_pow2 k e : (0 <= k)%Z -> (scaled (2 ^ k) e == 2 ^ (k + e))%Q.
Proof. intros H. unfold scaled. rewrite <- pow2_Z by exact H. rewrite pow2_add. reflexivity. Qed.

Lemma scaled_log2_lower m e : (0 < m)%Z -> (2 ^ (Z.log2 m + e) <= scaled m e)%Q.
Proof.
  intros H. rewrite <- scaled_pow2 by apply Z.log2_nonneg.
  apply scaled_mono. apply Z.log2_spec. exact H.
Qed.

Lemma scaled_log2_upper m e : (0 < m)%Z -> (scaled m e < 2 ^ (Z.log2 m + 1 + e))%Q.
Proof.
  intros H. rewrite <- scaled_pow2 by (pose proof (Z.log2_nonneg m); lia).
  apply scaled_lt. replace (Z.log2 m + 1)%Z with (Z.succ (Z.log2 m)) by lia.
  apply Z.log2_spec. exact H.
Qed.

(** On valid numbers that are not negative, [<] decides the order of the
    values. *)
Lemma SFltb_complete a b :
  valid_binary a = true -> valid_binary b = true ->
  sf_pos a = true -> sf_pos b = true ->
  (sf_value a < sf_value b)%Q -> SFltb a b = true.
Proof.
  intros Va Vb Pa Pb H.
  destruct a as [sa|sa| |[] ma ea]; try discriminate Pa;
    destruct b as [sb|sb| |[] mb eb]; try discriminate Pb.
  - exfalso. exact (Qlt_irrefl 0 H).
  - reflexivity.
  - exfalso. rewrite sf_value_pos in H. cbn [sf_value] in H.
    pose proof (scaled_pos (Z.pos ma) ea ltac:(lia)). lra.
  - rewrite !sf_value_pos in H. unfold SFltb, SFcompare.
    change (IntDef.Z.compare ea eb) with (Z.compare ea eb).
    destruct (Z.compare_spec ea eb) as [->|Hlt|Hgt].
    + rewrite Pos.compare_cont_spec. cbn [Pos.switch_Eq].
      destruct (Pos.compare_spec ma mb) as [->|Hm|Hm]; [| reflexivity |].
      * exfalso. exact (Qlt_irrefl _ H).
      * exfalso. apply (Qlt_irrefl (scaled (Z.pos ma) eb)).
        eapply Qlt_le_trans; [exact H|]. apply scaled_mono. lia.
    + reflexivity.
    + exfalso.
      destruct (valid_mantissa ma ea Va) as (_ & _ & Na).
      destruct (valid_mantissa mb eb Vb) as (Eb & Lb & _).
      pose proof (scaled_log2_lower (Z.pos ma) ea ltac:(lia)) as H1.
      pose proof (scaled_log2_upper (Z.pos mb) eb ltac:(lia)) as H2.
      rewrite Na in H1 by lia.
      assert (H3 : (2 ^ (Z.log2 (Z.pos mb) + 1 + eb) <= 2 ^ (52 + ea))%Q)
        by (apply pow2_le; lia).
      lra.
Qed.

Lemma ltb_complete (a b : float) :
  sf_pos (Prim2SF a) = true -> sf_pos (Prim2SF b) = true ->
  (valueOf a < valueOf b)%Q -> (a <? b)%float = true.
Proof.
  intros Pa Pb H. rewrite FloatAxioms.ltb_spec.
  apply SFltb_complete; try assumption; apply Prim2SF_valid.
Qed.

Lemma sf_pos_not_nan (x : float) : sf_pos (Prim2SF x) = true -> is_nan x = false.
Proof.
  rewrite is_nan_spec. destruct (Prim2SF x) as [| | |[]]; try discriminate; reflexivity.
Qed.

(** A number with a positive value is finite and not negative. *)
Lemma value_pos_sf_pos (x : float) : (0 < valueOf x)%Q -> sf_pos (Prim2SF x) = true.
Proof.
  unfold valueOf. destruct (Prim2SF x) as [| | |[] m e]; cbn [sf_value sf_pos];
    intros H; try reflexivity; try (exfalso; exact (Qlt_irrefl 0 H)).
  exfalso. pose proof (scaled_pos (Z.pos m) e ltac:(lia)) as Hp. unfold scaled in Hp.
  lra.
Qed.

(* --------------------------------------------------------------------- *)
(** *** The two zoom steps

    The factor [1.2] of the code is the binary64 number
    [5404319552844595 * 2^-52], a little below 6/5; the lower bound [0.3] is
    [5404319552844595 * 2^-54], a little below 3/10; the upper bound 3 is
    exact. *)

Local Abbreviation c64 := (5404319552844595 # 4503599627370496)%Q.
Local Abbreviation cinv64 := (4503599627370496 # 5404319552844595)%Q.
Local Abbreviation lo64 := (5404319552844595 # 18014398509481984)%Q.
Local Abbreviation ulp4 := (1 # 562949953421312)%Q.

Lemma zoom_mul (x : float) :
  sf_pos (Prim2SF x) = true -> (valueOf x <= 33 # 10)%Q ->
  sf_pos (Prim2SF (x * 1.2)) = true /\
  (valueOf x * c64 - ulp4 <= valueOf (x * 1.2))%Q /\
  (valueOf (x * 1.2) <= valueOf x * c64 + ulp4)%Q.
Proof.
  intros Hp Hx. unfold valueOf in *. rewrite mul_spec.
  change (Prim2SF 1.2) with (S754_finite false 5404319552844595 (-52)).
  unfold SF64mul.
  destruct (Prim2SF x) as [s|s| |[] mx ex]; try discriminate Hp.
  - cbn [SFmul sf_pos sf_value]. split; [reflexivity|]. split; lra.
  - rewrite sf_value_pos in Hx.
    assert (Ec : (scaled 5404319552844595 (-52) == c64)%Q) by reflexivity.
    assert (E49 : (2 ^ (-49) == ulp4)%Q) by reflexivity.
    destruct (SFmul_error mx ex 5404319552844595 (-52)) as (H1 & H2 & H3).
    + lia.
    + rewrite Ec. lra.
    + lra.
    + rewrite Ec, E49 in H2, H3. rewrite sf_value_pos. auto.
Qed.

Lemma zoom_div (x : float) :
  sf_pos (Prim2SF x) = true -> (valueOf x < 4)%Q ->
  sf_pos (Prim2SF (x / 1.2)) = true /\
  (valueOf x * cinv64 - ulp4 <= valueOf (x / 1.2))%Q /\
  (valueOf (x / 1.2) <= valueOf x * cinv64 + ulp4)%Q.
Proof.
  intros Hp Hx. unfold valueOf in *. rewrite div_spec.
  change (Prim2SF 1.2) with (S754_finite false 5404319552844595 (-52)).
  unfold SF64div.
  destruct (Prim2SF x) as [s|s| |[] mx ex]; try discriminate Hp.
  - cbn [SFdiv sf_pos sf_value]. split; [reflexivity|]. split; lra.
  - rewrite sf_value_pos in Hx.
    assert (Ec : (scaled 5404319552844595 (-52) == c64)%Q) by reflexivity.
    assert (E49 : (2 ^ (-49) == ulp4)%Q) by reflexivity.
    pose proof (scaled_nonneg (Z.pos mx) ex ltac:(lia)) as H0.
    destruct (SFdiv_error mx ex 5404319552844595 (-52)
                (scaled (Z.pos mx) ex * cinv64)) as (H1 & H2 & H3).
    + change (Z.log2 5404319552844595) with 52%Z. lia.
    + rewrite Ec. field.
    + lra.
    + exact Hx.
    + rewrite E49 in H2, H3. rewrite sf_value_pos. auto.
Qed.

Lemma Math_min_cases a b :
  is_nan a = false -> is_nan b = false ->
  JsNumber.Math_min a b = a \/
  (JsNumber.Math_min a b = b /\ (a <? b)%float = false).
Proof.
  intros Ha Hb. unfold JsNumber.Math_min. rewrite Ha, Hb. cbn [orb].
  destruct (a <? b)%float; [left; reflexivity|].
  destruct (b <? a)%float; [right; split; reflexivity|].
  destruct (_ && _); [left; reflexivity|right; split; reflexivity].
Qed.

Lemma Math_max_cases a b :
  is_nan a = false -> is_nan b = false ->
  JsNumber.Math_max a b = a \/
  (JsNumber.Math_max a b = b /\ (b <? a)%float = false).
Proof.
  intros Ha Hb. unfold JsNumber.Math_max. rewrite Ha, Hb. cbn [orb].
  destruct (b <? a)%float; [left; reflexivity|].
  destruct (a <? b)%float; [right; split; reflexivity|].
  destruct (_ && _); [left; reflexivity|right; split; reflexivity].
Qed.

(** One zoom-in step next to the exact product [t * 1.2] of a scale [t]
    that stays below the bound: the distance grows by the factor and by one
    rounding. *)
Lemma zoomIn_step st (t E : Q) :
  sf_pos (Prim2SF (scale st)) = true ->
  (t - E <= valueOf (scale st))%Q -> (valueOf (scale st) <= t + E)%Q ->
  (0 <= t)%Q -> (t * (6 # 5) <= 3)%Q -> (0 <= E)%Q -> (E <= 3 # 10)%Q ->
  sf_pos (Prim2SF (scale (zoomIn st))) = true /\
  (t * c64 - (E * c64 + ulp4) <= valueOf (scale (zoomIn st)))%Q /\
  (valueOf (scale (zoomIn st)) <= t * c64 + (E * c64 + ulp4))%Q.
Proof.
  intros Hp Hlo Hhi Ht Hb HE HE'.
  change (scale (zoomIn st)) with (JsNumber.Math_min (scale st * 1.2)%float 3).
  destruct (zoom_mul (scale st) Hp ltac:(lra)) as (Pp & Plo & Phi).
  set (p := (scale st * 1.2)%float) in *.
  assert (P3 : sf_pos (Prim2SF 3) = true) by reflexivity.
  assert (V3 : (valueOf 3 == 3)%Q) by reflexivity.
  destruct (Math_min_cases p 3 (sf_pos_not_nan _ Pp) eq_refl) as [->|[-> Hge]].
  - split; [exact Pp|]. split; lra.
  - split; [exact P3|]. rewrite V3.
    assert (Hp3 : (3 <= valueOf p)%Q).
    { destruct (Qlt_le_dec (valueOf p) 3) as [Hlt|]; [|assumption].
      rewrite <- V3 in Hlt. rewrite (ltb_complete p 3 Pp P3 Hlt) in Hge.
      discriminate Hge. }
    split; lra.
Qed.

(** One zoom-out step next to the exact quotient [u / 1.2] of a scale [u]
    whose quotient stays above the bound. *)
Lemma zoomOut_step st (u E : Q) :
  sf_pos (Prim2SF (scale st)) = true ->
  (u - E <= valueOf (scale st))%Q -> (valueOf (scale st) <= u + E)%Q ->
  (u + E < 4)%Q -> (lo64 <= u * cinv64)%Q -> (0 <= E)%Q ->
  sf_pos (Prim2SF (scale (zoomOut st))) = true /\
  (u * cinv64 - (E * cinv64 + ulp4) <= valueOf (scale (zoomOut st)))%Q /\
  (valueOf (scale (zoomOut st)) <= u * cinv64 + (E * cinv64 + ulp4))%Q.
Proof.
  intros Hp Hlo Hhi Hb Hu HE.
  change (scale (zoomOut st)) with (JsNumber.Math_max (scale st / 1.2)%float 0.3).
  destruct (zoom_div (scale st) Hp ltac:(lra)) as (Pq & Qlo & Qhi).
  set (q := (scale st / 1.2)%float) in *.
  assert (Pl : sf_pos (Prim2SF 0.3) = true) by reflexivity.
  assert (Vl : (valueOf 0.3 == lo64)%Q) by reflexivity.
  destruct (Math_max_cases q 0.3 (sf_pos_not_nan _ Pq) eq_refl) as [->|[-> Hle]].
  - split; [exact Pq|]. split; lra.
  - split; [exact Pl|]. rewrite Vl.
    assert (Hq : (valueOf q <= lo64)%Q).
    { destruct (Qlt_le_dec lo64 (valueOf q)) as [Hlt|]; [|assumption].
      rewrite <- Vl in Hlt. rewrite (ltb_complete 0.3 q Pl Pq Hlt) in Hle.
      discriminate Hle. }
    split; lra.
Qed.

Lemma factor_pos k : (0 < Exact.factor k)%Q.
Proof.
  induction k as [|k IH]; simpl; [reflexivity|].
  apply Qmult_lt_0_compat; [exact IH|reflexivity].
Qed.

Lemma factor_ge_1 k : (1 <= Exact.factor k)%Q.
Proof. induction k as [|k IH]; simpl; [apply Qle_refl|lra]. Qed.

(** [k] steps in and [k] steps out, started at most [E] away from a scale
    [t] whose exact products stay within the bounds: the end is at most [E]
    and ten roundings for each fifth of the factor away from [t]. *)
Lemma zoom_round_trip_near k :
  forall st (t E : Q),
    sf_pos (Prim2SF (scale st)) = true ->
    (t - E <= valueOf (scale st))%Q -> (valueOf (scale st) <= t + E)%Q ->
    (lo64 <= t)%Q -> (t * Exact.factor k <= 3)%Q -> (0 <= E)%Q ->
    (E * Exact.factor k + 5 * ulp4 * (Exact.factor k - 1) <= 1 # 10)%Q ->
    sf_pos (Prim2SF (scale (Nat.iter k zoomOut (Nat.iter k zoomIn st)))) = true /\
    (t - (E + 10 * ulp4 * (Exact.factor k - 1))
     <= valueOf (scale (Nat.iter k zoomOut (Nat.iter k zoomIn st))))%Q /\
    (valueOf (scale (Nat.iter k zoomOut (Nat.iter k zoomIn st)))
     <= t + (E + 10 * ulp4 * (Exact.factor k - 1)))%Q.
Proof.
  induction k as [|k IH]; intros st t E Hp Hlo Hhi Ht Hb HE Hsmall.
  - change (Nat.iter 0 zoomOut (Nat.iter 0 zoomIn st)) with st.
    cbn [Exact.factor]. split; [exact Hp|]. split; lra.
  - rewrite (Nat.iter_succ_r k zoomIn st).
    change (Nat.iter (S k) zoomOut ?x) with (zoomOut (Nat.iter k zoomOut x)).
    cbn [Exact.factor] in Hb, Hsmall |- *.
    pose proof (factor_ge_1 k) as HF.
    set (F := Exact.factor k) in *.
    assert (HtF : (0 <= t * (F - 1))%Q) by (apply Qmult_le_0_compat; lra).
    assert (HEF : (0 <= E * (F - 1))%Q) by (apply Qmult_le_0_compat; lra).
    destruct (zoomIn_step st t E Hp Hlo Hhi) as (P1 & L1 & U1); try lra.
    destruct (IH (zoomIn st) (t * c64)%Q (E * c64 + ulp4)%Q P1 L1 U1)
      as (P2 & L2 & U2); try lra.
    destruct (zoomOut_step (Nat.iter k zoomOut (Nat.iter k zoomIn (zoomIn st)))
                (t * c64)%Q (E * c64 + ulp4 + 10 * ulp4 * (F - 1))%Q P2 L2 U2)
      as (P3 & L3 & U3); try lra.
    split; [exact P3|]. split; lra.
Qed.

(** C8 (zoom in, then out), in binary64.  The scale is a binary64 number
    of at least the lower bound 0.3 of the code, and [k] is a step count for
    which [k] exact zoom-in steps do not pass the upper bound: the value of
    the scale times [(6/5)^k] is at most 3.  Then [k] times [zoomIn] followed
    by [k] times [zoomOut] gives a scale that is a finite number and differs
    from the scale at the start by at most [10^-12]. *)
Theorem zoom_round_trip st (k : nat) :
  (valueOf 0.3 <= valueOf (scale st))%Q ->
  (valueOf (scale st) * Exact.factor k <= 3)%Q ->
  is_finite (scale (Nat.iter k zoomOut (Nat.iter k zoomIn st))) = true /\
  (Qabs (valueOf (scale (Nat.iter k zoomOut (Nat.iter k zoomIn st)))
         - valueOf (scale st)) <= 1 # 1000000000000)%Q.
Proof.
  intros Hlo Hhi.
  assert (Vl : (valueOf 0.3 == lo64)%Q) by reflexivity.
  rewrite Vl in Hlo.
  assert (Hp : sf_pos (Prim2SF (scale st)) = true) by (apply value_pos_sf_pos; lra).
  pose proof (factor_ge_1 k) as HF.
  assert (HF10 : (0 <= (valueOf (scale st) - lo64) * Exact.factor k)%Q)
    by (apply Qmult_le_0_compat; lra).
  destruct (zoom_round_trip_near k st (valueOf (scale st)) 0 Hp) as (P & L & U);
    try lra.
  split.
  - rewrite is_finite_spec.
    destruct (Prim2SF (scale (Nat.iter k zoomOut (Nat.iter k zoomIn st))))
      as [| | |[]]; try discriminate P; reflexivity.
  - apply Qabs_Qle_condition. split; lra.
Qed.

(* --------------------------------------------------------------------- *)
(** *** The builder: degrees, ids and edge ends *)

Lemma NodeMap_get_Some m k :
  In k (map fst m) -> exists l, NodeMap.get m k = Some l.
Proof.
  unfold NodeMap.get. induction m as [|[k' l'] m IH]; cbn [map fst In]; [tauto|].
  intros [->|Hin].
  - exists l'. cbn. rewrite String.eqb_refl. reflexivity.
  - cbn. destruct (String.eqb k' k); [eexists; reflexivity|]. exact (IH Hin).
Qed.

Lemma In_fst {A B} (a : A) (b : B) l : In (a, b) l -> In a (map fst l).
Proof. intros H. apply in_map_iff. exists (a, b). auto. Qed.

Lemma In_snd {A B} (a : A) (b : B) l : In (a, b) l -> In b (map snd l).
Proof. intros H. apply in_map_iff. exists (a, b). auto. Qed.

Lemma NoDup_snd_inj {A B} (l : list (A * B)) a a' b :
  NoDup (map snd l) -> In (a, b) l -> In (a', b) l -> a = a'.
Proof.
  induction l as [|[x y] l IH]; cbn [map snd In]; [tauto|].
  intros Hnd [E1|H1] [E2|H2]; apply NoDup_cons in Hnd as [Hy Hnd].
  - congruence.
  - inversion E1; subst. exfalso. apply Hy. apply list_elem_of_In. exact (In_snd _ _ _ H2).
  - inversion E2; subst. exfalso. apply Hy. apply list_elem_of_In. exact (In_snd _ _ _ H1).
  - exact (IH Hnd H1 H2).
Qed.

Lemma NoDup_fst_inj {A B} (l : list (A * B)) a b b' :
  NoDup (map fst l) -> In (a, b) l -> In (a, b') l -> b = b'.
Proof.
  induction l as [|[x y] l IH]; cbn [map fst In]; [tauto|].
  intros Hnd [E1|H1] [E2|H2]; apply NoDup_cons in Hnd as [Hy Hnd].
  - congruence.
  - inversion E1; subst. exfalso. apply Hy. apply list_elem_of_In. exact (In_fst _ _ _ H2).
  - inversion E2; subst. exfalso. apply Hy. apply list_elem_of_In. exact (In_fst _ _ _ H1).
  - exact (IH Hnd H1 H2).
Qed.

Lemma incidence_nil id : incidence id [] = 0%Z.
Proof. reflexivity. Qed.

Lemma filter_snoc_length {A} (f : A -> bool) l a :
  length (List.filter f (l ++ [a]))
  = (length (List.filter f l) + if f a then 1 else 0)%nat.
Proof.
  rewrite List.filter_app, length_app. cbn. destruct (f a); reflexivity.
Qed.

Lemma incidence_snoc id edges e :
  incidence id (edges ++ [e])
  = (incidence id edges + same (Edge.source e) id + same (Edge.target e) id)%Z.
Proof.
  unfold incidence, countSource, countTarget, same.
  rewrite !filter_snoc_length.
  destruct (String.eqb (Edge.source e) id), (String.eqb (Edge.target e) id); lia.
Qed.

Lemma incidence_absent id edges :
  (forall e, In e edges -> Edge.source e <> id /\ Edge.target e <> id) ->
  incidence id edges = 0%Z.
Proof.
  induction edges as [|e edges IH]; intros H; [reflexivity|].
  unfold incidence, countSource, countTarget in *. cbn [List.filter].
  destruct (H e (or_introl eq_refl)) as [Hs Ht].
  apply String.eqb_neq in Hs, Ht. rewrite Hs, Ht.
  apply IH. intros e' He'. apply H. right. exact He'.
Qed.

Lemma incidence_nonneg id edges : (0 <= incidence id edges)%Z.
Proof. unfold incidence, countSource, countTarget. lia. Qed.

Lemma builderInv_start h d : builderInv (fun _ => 0%Z) (mkBuilder h [] [] [] d).
Proof.
  repeat split; cbn; try constructor; try tauto.
Qed.

Lemma addPredicate_inv p pending b :
  builderInv pending b -> builderInv pending (addPredicate p b).
Proof. intros H. exact H. Qed.

Lemma addNode_inv key lab ty c b :
  builderInv (fun _ => 0%Z) b ->
  builderInv (fun _ => 0%Z) (addNode key lab ty c b) /\
  In key (map fst (nodeMap (addNode key lab ty c b))).
Proof.
  intros (Hk & Hl & Hn & He).
  unfold addNode. destruct (NodeMap.has (nodeMap b) key) eqn:Hhas.
  - split; [exact (conj Hk (conj Hl (conj Hn He)))|]. apply NodeMap_has_In. exact Hhas.
  - assert (Hfresh : ~ In key (map fst (nodeMap b))).
    { intros Hin. apply NodeMap_has_In in Hin. congruence. }
    assert (Hset : NodeMap.set (nodeMap b) key (length (b_heap b))
                   = nodeMap b ++ [(key, length (b_heap b))]).
    { unfold NodeMap.set. rewrite Hhas. reflexivity. }
    unfold builderInv. cbn [nodeMap b_heap edgeList]. rewrite Hset.
    assert (Hlt : forall k l, In (k, l) (nodeMap b) -> l < length (b_heap b)).
    { intros k l Hin. destruct (Hn k l Hin) as (n & Hlk & _).
      apply lookup_lt_Some in Hlk. exact Hlk. }
    split; [|rewrite map_app; apply in_or_app; right; left; reflexivity].
    split; [|split; [|split]].
    + rewrite map_app. cbn. apply NoDup_app. split; [exact Hk|]. split.
      * intros x Hx Hx'. apply list_elem_of_singleton in Hx'. subst x.
        apply Hfresh. apply list_elem_of_In. exact Hx.
      * apply NoDup_singleton.
    + rewrite map_app. cbn. apply NoDup_app. split; [exact Hl|]. split.
      * intros x Hx Hx'. apply list_elem_of_singleton in Hx'. subst x.
        apply list_elem_of_In, in_map_iff in Hx as ([k l] & E & Hin). cbn in E. subst l.
        specialize (Hlt _ _ Hin). lia.
      * apply NoDup_singleton.
    + intros k l Hin. apply in_app_or in Hin as [Hin|[E|[]]].
      * destruct (Hn k l Hin) as (n & Hlk & Hid & Hc).
        exists n. split; [|auto]. apply lookup_app_l_Some. exact Hlk.
      * inversion E; subst k l. eexists. split; [|split].
        -- rewrite lookup_app_r by lia. rewrite Nat.sub_diag. reflexivity.
        -- reflexivity.
        -- cbn. rewrite incidence_absent; [reflexivity|].
           intros e Hin. destruct (He e Hin) as [Hs Ht].
           split; intros E'; apply Hfresh; congruence.
    + intros e Hin. destruct (He e Hin) as [Hs Ht].
      rewrite map_app. split; apply in_or_app; left; assumption.
Qed.

Lemma increment_inv pending key b :
  builderInv pending b ->
  In key (map fst (nodeMap b)) ->
  builderInv (fun k => (pending k + same key k)%Z) (increment key b).
Proof.
  intros (Hk & Hl & Hn & He) Hin.
  destruct (NodeMap_get_Some _ _ Hin) as [l Hget].
  unfold increment. rewrite Hget.
  pose proof (NodeMap_get_In _ _ _ Hget) as Hkl.
  split; [exact Hk|]. split; [exact Hl|]. split; [|exact He].
  cbn [nodeMap b_heap edgeList].
  intros k' l' Hin'. destruct (Hn k' l' Hin') as (n & Hlk & Hid & Hc).
  destruct (decide (l' = l)) as [->|Hne].
  - assert (Ek : k' = key) by exact (NoDup_snd_inj _ _ _ _ Hl Hin' Hkl).
    eexists. split; [|split].
    + rewrite list_lookup_alter_eq, Hlk. reflexivity.
    + exact Hid.
    + cbn. rewrite Hc. unfold same. rewrite Ek, String.eqb_refl. lia.
  - exists n. split; [|split].
    + rewrite list_lookup_alter_ne by congruence. exact Hlk.
    + exact Hid.
    + rewrite Hc. unfold same.
      destruct (String.eqb key k') eqn:E; [|lia].
      apply String.eqb_eq in E. rewrite <- E in Hin'.
      exfalso. apply Hne. exact (NoDup_fst_inj _ _ _ _ Hk Hin' Hkl).
Qed.

Lemma pushEdge_inv pending e b :
  builderInv pending b ->
  (forall k, pending k = (same (Edge.source e) k + same (Edge.target e) k)%Z) ->
  In (Edge.source e) (map fst (nodeMap b)) ->
  In (Edge.target e) (map fst (nodeMap b)) ->
  builderInv (fun _ => 0%Z) (pushEdge e b).
Proof.
  intros (Hk & Hl & Hn & He) Hp Hs Ht.
  split; [exact Hk|]. split; [exact Hl|]. split.
  - cbn [nodeMap b_heap edgeList pushEdge]. intros k l Hin.
    destruct (Hn k l Hin) as (n & Hlk & Hid & Hc).
    exists n. split; [exact Hlk|]. split; [exact Hid|].
    rewrite Hc, incidence_snoc, Hp. lia.
  - cbn [nodeMap edgeList pushEdge]. intros e' Hin.
    apply in_app_or in Hin as [Hin|[<-|[]]]; [exact (He e' Hin)|]. split; assumption.
Qed.

Lemma buildStep_inv t i b :
  builderInv (fun _ => 0%Z) b -> builderInv (fun _ => 0%Z) (buildStep t i b).
Proof.
  intros H. unfold buildStep.
  pose proof (addPredicate_inv (Triplet.predicate t) _ _ H) as H0.
  destruct (addNode_inv (Triplet.subject t) (subjectLabel (Triplet.subject t)) subject
              (Triplet.predicate t) _ H0) as [H1 Hs].
  destruct (addNode_inv (objectId t i) (objectLabel (Triplet.object t)) object
              (Triplet.predicate t) _ H1) as [H2 Ho].
  set (b2 := addNode (objectId t i) _ _ _ _) in *.
  assert (Hs2 : In (Triplet.subject t) (map fst (nodeMap b2))).
  { unfold b2. rewrite addNode_nodeMap.
    destruct (NodeMap.has _ _); [exact Hs|].
    rewrite map_app. apply in_or_app. left. exact Hs. }
  pose proof (increment_inv _ (Triplet.subject t) _ H2 Hs2) as H3.
  assert (Ho3 : In (objectId t i) (map fst (nodeMap (increment (Triplet.subject t) b2)))).
  { rewrite increment_nodeMap. exact Ho. }
  pose proof (increment_inv _ (objectId t i) _ H3 Ho3) as H4.
  apply (pushEdge_inv _ _ _ H4).
  - intros k. cbn. lia.
  - rewrite !increment_nodeMap. exact Hs2.
  - rewrite !increment_nodeMap. exact Ho.
Qed.

Lemma buildGraph_inv ts h d : builderInv (fun _ => 0%Z) (buildGraph ts h d).
Proof.
  unfold buildGraph.
  pose proof (forEachIdx_invariant (fun _ b => builderInv (fun _ => 0%Z) b)
                buildStep ts 0 (mkBuilder h [] [] [] d)) as H.
  apply H; [apply builderInv_start|].
  intros k a s' _ Hs. apply buildStep_inv. exact Hs.
Qed.

Lemma sum_same_absent x keys :
  ~ In x keys -> fold_right (fun k acc => (same x k + acc)%Z) 0%Z keys = 0%Z.
Proof.
  induction keys as [|k keys IH]; intros Hx; [reflexivity|]. cbn [fold_right].
  rewrite IH by (intros H; apply Hx; right; exact H).
  unfold same. destruct (String.eqb x k) eqn:E; [|reflexivity].
  apply String.eqb_eq in E. exfalso. apply Hx. left. congruence.
Qed.

Lemma sum_same_present x keys :
  NoDup keys -> In x keys ->
  fold_right (fun k acc => (same x k + acc)%Z) 0%Z keys = 1%Z.
Proof.
  induction keys as [|k keys IH]; intros Hnd Hx; [destruct Hx|].
  apply NoDup_cons in Hnd as [Hk Hnd]. rewrite list_elem_of_In in Hk.
  cbn [fold_right]. unfold same at 1. destruct (String.eqb x k) eqn:E.
  - apply String.eqb_eq in E. subst k. rewrite sum_same_absent by exact Hk. reflexivity.
  - apply String.eqb_neq in E. destruct Hx as [->|Hx]; [congruence|].
    rewrite IH by assumption. reflexivity.
Qed.

Lemma incidence_cons id e edges :
  incidence id (e :: edges)
  = (same (Edge.source e) id + same (Edge.target e) id + incidence id edges)%Z.
Proof.
  unfold incidence, countSource, countTarget, same. cbn [List.filter].
  destruct (String.eqb (Edge.source e) id), (String.eqb (Edge.target e) id);
    cbn [length]; lia.
Qed.

Lemma total_incidence keys edges :
  NoDup keys ->
  (forall e, In e edges -> In (Edge.source e) keys /\ In (Edge.target e) keys) ->
  fold_right (fun k acc => (incidence k edges + acc)%Z) 0%Z keys
  = (2 * Z.of_nat (length edges))%Z.
Proof.
  intros Hnd. induction edges as [|e edges IH]; intros He.
  - cbn [length]. clear. induction keys as [|k keys IHk]; [reflexivity|].
    cbn [fold_right]. rewrite IHk. reflexivity.
  - destruct (He e (or_introl eq_refl)) as [Hs Ht].
    assert (E : forall ks,
      fold_right (fun k acc => (incidence k (e :: edges) + acc)%Z) 0%Z ks
      = (fold_right (fun k acc => (same (Edge.source e) k + acc)%Z) 0%Z ks
         + fold_right (fun k acc => (same (Edge.target e) k + acc)%Z) 0%Z ks
         + fold_right (fun k acc => (incidence k edges + acc)%Z) 0%Z ks)%Z).
    { induction ks as [|k ks IHk]; [reflexivity|]. cbn [fold_right].
      rewrite IHk, incidence_cons. lia. }
    rewrite E, IH by (intros e' He'; apply He; right; exact He').
    rewrite !sum_same_present by assumption. cbn [length]. lia.
Qed.

Lemma totalConnections_keys pending (b : Builder) m :
  (forall key l, In (key, l) m ->
     exists n, b_heap b !! l = Some n /\ Node.id n = key /\
               Node.connections n = (incidence key (edgeList b) + pending key)%Z) ->
  totalConnections (b_heap b) (map snd m)
  = fold_right (fun k acc => (incidence k (edgeList b) + pending k + acc)%Z) 0%Z
               (map fst m).
Proof.
  induction m as [|[k l] m IH]; intros H; [reflexivity|].
  cbn [map fst snd totalConnections fold_right].
  destruct (H k l (or_introl eq_refl)) as (n & Hlk & _ & Hc).
  unfold totalConnections in IH. rewrite IH by (intros k' l' Hin; apply H; right; exact Hin).
  unfold degree, onNode. rewrite Hlk, Hc. reflexivity.
Qed.

Lemma addNode_predicateSet key lab ty c b :
  predicateSet (addNode key lab ty c b) = predicateSet b.
Proof. unfold addNode. destruct (NodeMap.has _ _); reflexivity. Qed.

Lemma increment_predicateSet key b : predicateSet (increment key b) = predicateSet b.
Proof. unfold increment. destruct (NodeMap.get _ _); reflexivity. Qed.

Lemma buildStep_predicateSet t i b :
  predicateSet (buildStep t i b) = set_add (Triplet.predicate t) (predicateSet b).
Proof.
  unfold buildStep. cbn [pushEdge predicateSet].
  rewrite !increment_predicateSet, !addNode_predicateSet. reflexivity.
Qed.

Lemma set_add_NoDup s l : NoDup l -> NoDup (set_add s l).
Proof.
  intros H. unfold set_add. destruct (includesStr l s) eqn:E; [exact H|].
  apply NoDup_app. split; [exact H|]. split; [|apply NoDup_singleton].
  intros x Hx Hx'. apply list_elem_of_singleton in Hx'. subst x.
  apply list_elem_of_In, includesStr_In in Hx. congruence.
Qed.

Lemma forEachIdx_predicateSet l :
  forall i b,
    let ps := predicateSet (forEachIdx buildStep l i b) in
    (NoDup (predicateSet b) -> NoDup ps) /\
    (forall p, In p ps <->
               In p (predicateSet b) \/ exists t, In t l /\ Triplet.predicate t = p).
Proof.
  induction l as [|t l IH]; intros i b; cbn [forEachIdx].
  - split; [auto|]. intros p. split; [auto|]. intros [H|(t & [] & _)]. exact H.
  - destruct (IH (S i) (buildStep t i b)) as [Hnd Hin]. cbn zeta in *.
    rewrite buildStep_predicateSet in Hnd, Hin. split.
    + intros H. apply Hnd, set_add_NoDup, H.
    + intros p. rewrite Hin, set_add_In. split.
      * intros [[->|H]|(t' & Ht' & E)].
        -- right. exists t. split; [left; reflexivity|reflexivity].
        -- left. exact H.
        -- right. exists t'. split; [right; exact Ht'|exact E].
      * intros [H|(t' & [->|Ht'] & E)].
        -- left. right. exact H.
        -- left. left. symmetry. exact E.
        -- right. exists t'. split; assumption.
Qed.

Lemma buildGraph_node ts h d k l :
  In (k, l) (nodeMap (buildGraph ts h d)) ->
  exists n, b_heap (buildGraph ts h d) !! l = Some n /\ Node.id n = k /\
            Node.connections n = incidence k (edgeList (buildGraph ts h d)).
Proof.
  intros Hin. destruct (buildGraph_inv ts h d) as (_ & _ & Hn & _).
  destruct (Hn k l Hin) as (n & Hlk & Hid & Hc).
  exists n. split; [exact Hlk|]. split; [exact Hid|]. rewrite Hc. lia.
Qed.

Lemma buildGraph_key_present ts h d k :
  In k (map fst (nodeMap (buildGraph ts h d))) ->
  idPresent (b_heap (buildGraph ts h d))
            (NodeMap.values (nodeMap (buildGraph ts h d))) k.
Proof.
  intros Hk. apply in_map_iff in Hk as ([k' l] & E & Hk). cbn in E. subst k'.
  destruct (buildGraph_node ts h d k l Hk) as (n & Hlk & Hid & _).
  exists l, n. split; [exact (In_snd _ _ _ Hk)|]. split; assumption.
Qed.

(** X1 (degrees).  After the builder has run on a non-empty batch, every
    node of [allNodes] is a node of the store whose [connections] is the
    number of edges of [allEdges] that leave its id plus the number that
    arrive at it (a self-loop counts twice), whatever the state was before. *)
Theorem builder_counts_incident_edges ts st l :
  ts <> [] ->
  In l (allNodes (buildEffect ts st)) ->
  exists n, heap_of (buildEffect ts st) !! l = Some n /\
            Node.connections n
            = incidence (Node.id n) (allEdges (buildEffect ts st)).
Proof.
  intros Hne. rewrite (buildEffect_nonempty ts st Hne).
  cbn [allNodes heap_of allEdges]. unfold NodeMap.values. intros Hin.
  apply in_map_iff in Hin as ([k l'] & E & Hin). cbn in E. subst l'.
  destruct (buildGraph_node _ _ _ _ _ Hin) as (n & Hlk & Hid & Hc).
  exists n. split; [exact Hlk|]. rewrite Hid. exact Hc.
Qed.

(** X2 (edge ends in the built graph).  In the graph the builder makes of a
    non-empty batch no edge dangles: the source id and the target id of
    every edge of [allEdges] are ids of nodes of [allNodes]. *)
Theorem builder_edges_end_at_nodes ts st e :
  ts <> [] ->
  In e (allEdges (buildEffect ts st)) ->
  idPresent (heap_of (buildEffect ts st)) (allNodes (buildEffect ts st))
            (Edge.source e) /\
  idPresent (heap_of (buildEffect ts st)) (allNodes (buildEffect ts st))
            (Edge.target e).
Proof.
  intros Hne. rewrite (buildEffect_nonempty ts st Hne).
  cbn [allNodes heap_of allEdges]. intros Hin.
  destruct (buildGraph_inv ts (heap_of st) (draws st)) as (_ & _ & _ & He).
  destruct (He e Hin) as [Hs Ht].
  split; apply buildGraph_key_present; assumption.
Qed.

(** X3 (handshake).  The handshake: in the graph the builder makes of a
    non-empty batch the connections of all nodes add up to twice the number
    of edges. *)
Theorem builder_handshake ts st :
  ts <> [] ->
  totalConnections (heap_of (buildEffect ts st)) (allNodes (buildEffect ts st))
  = (2 * Z.of_nat (length (allEdges (buildEffect ts st))))%Z.
Proof.
  intros Hne. rewrite (buildEffect_nonempty ts st Hne).
  cbn [allNodes heap_of allEdges]. unfold NodeMap.values.
  destruct (buildGraph_inv ts (heap_of st) (draws st)) as (Hk & _ & Hn & He).
  rewrite (totalConnections_keys (fun _ => 0%Z) _ _ Hn).
  rewrite <- (total_incidence _ _ Hk He).
  generalize (map fst (nodeMap (buildGraph ts (heap_of st) (draws st)))).
  intros ks. induction ks as [|k ks IH]; [reflexivity|]. cbn [fold_right].
  rewrite IH. lia.
Qed.

(** X4 (ids of their own).  The builder gives every node of [allNodes] an id
    of its own: the nodes at two different places of [allNodes] have
    different ids, so that a search by id finds one node only. *)
Theorem builder_node_ids_unique ts st i j l l' n n' :
  ts <> [] ->
  allNodes (buildEffect ts st) !! i = Some l ->
  allNodes (buildEffect ts st) !! j = Some l' ->
  heap_of (buildEffect ts st) !! l = Some n ->
  heap_of (buildEffect ts st) !! l' = Some n' ->
  i <> j ->
  Node.id n <> Node.id n'.
Proof.
  intros Hne. rewrite (buildEffect_nonempty ts st Hne).
  cbn [allNodes heap_of]. unfold NodeMap.values.
  destruct (buildGraph_inv ts (heap_of st) (draws st)) as (Hk & _ & Hn & _).
  set (m := nodeMap (buildGraph ts (heap_of st) (draws st))) in *.
  change (map snd m) with (snd <$> m).
  intros Hi Hj Hl Hl' Hij Hid. apply Hij.
  apply list_lookup_fmap_Some in Hi as ([k a] & E1 & Ei).
  apply list_lookup_fmap_Some in Hj as ([k' a'] & E2 & Ej).
  cbn in E1, E2. subst a a'.
  destruct (Hn k l (proj1 (list_elem_of_In _ _) (list_elem_of_lookup_2 _ _ _ Ei)))
    as (n0 & H0 & Hid0 & _).
  destruct (Hn k' l' (proj1 (list_elem_of_In _ _) (list_elem_of_lookup_2 _ _ _ Ej)))
    as (n1 & H1 & Hid1 & _).
  assert (Ek : k' = k) by congruence.
  apply (NoDup_lookup (map fst m) i j k Hk).
  - change (map fst m) with (fst <$> m). rewrite list_lookup_fmap, Ei. reflexivity.
  - change (map fst m) with (fst <$> m). rewrite list_lookup_fmap, Ej, <- Ek.
    reflexivity.
Qed.

(** X5 (predicates after a build).  After the builder has run on a non-empty
    batch, [availablePredicates] holds the predicates of the batch, each
    once, all of them are selected in the filters, and the other criteria
    are those of before. *)
Theorem builder_selects_all_predicates ts st :
  ts <> [] ->
  GraphFilters.predicates (filters (buildEffect ts st))
  = availablePredicates (buildEffect ts st) /\
  NoDup (availablePredicates (buildEffect ts st)) /\
  (forall p, In p (availablePredicates (buildEffect ts st)) <->
             exists t, In t ts /\ Triplet.predicate t = p) /\
  GraphFilters.set_predicates [] (filters (buildEffect ts st))
  = GraphFilters.set_predicates [] (filters st).
Proof.
  intros Hne. rewrite (buildEffect_nonempty ts st Hne).
  cbn [filters availablePredicates GraphFilters.predicates GraphFilters.set_predicates].
  destruct (forEachIdx_predicateSet ts 0 (mkBuilder (heap_of st) [] [] [] (draws st)))
    as [Hnd Hin].
  split; [reflexivity|]. split; [|split].
  - apply Hnd. constructor.
  - intros p. unfold buildGraph. rewrite Hin. cbn [predicateSet In]. tauto.
  - reflexivity.
Qed.

(* --------------------------------------------------------------------- *)
(** *** The filter engine: what is shown and what is not *)

Lemma keepNode_spec f n : keepNode f n = true <-> passesNodeTests f n.
Proof.
  unfold keepNode, passesNodeTests, containsIgnoringCase.
  rewrite <- includesStr_In.
  destruct (includesStr _ _); cbn [negb].
  2: { split; [discriminate|]. intros [H _]. discriminate. }
  destruct (Z.ltb_spec (Node.connections n) (GraphFilters.minConnections f));
    cbn [orb].
  { split; [discriminate|]. intros (_ & H1 & _). lia. }
  destruct (Z.ltb_spec (GraphFilters.maxConnections f) (Node.connections n)).
  { split; [discriminate|]. intros (_ & _ & H1 & _). lia. }
  destruct (String.eqb_spec (GraphFilters.searchTerm f) ""); cbn [negb andb].
  { split; [|reflexivity]. intros _. repeat split; try lia; try (left; assumption). }
  destruct (JsString.includes _ _) eqn:E; cbn [negb].
  - split; [|reflexivity]. intros _. repeat split; try lia; try (right; reflexivity).
  - split; [discriminate|]. intros (_ & _ & _ & [H1|H1]); congruence.
Qed.

Lemma filterNodes_In f h nodes l :
  In l (filterNodes f h nodes) <->
  In l nodes /\ exists n, h !! l = Some n /\ keepNode f n = true.
Proof.
  unfold filterNodes. rewrite filter_In. unfold onNode.
  destruct (h !! l) as [n|].
  - split; [intros [H1 H2]; eauto|]. intros (H1 & n' & [= <-] & H2). auto.
  - split; [intros [_ H]; discriminate|]. intros (_ & n & H & _). discriminate.
Qed.

Lemma survivingNodes_In f h nodes edges l :
  In l (survivingNodes f h nodes edges) -> In l (filterNodes f h nodes).
Proof.
  unfold survivingNodes, dropIsolated. destruct (negb _); [|auto].
  intros H. apply filter_In in H as [H _]. exact H.
Qed.

Lemma slice0_In {A} (m : Z) (l : list A) a : In a (slice0 m l) -> In a l.
Proof.
  unfold slice0. intros H. apply list_elem_of_In in H. apply list_elem_of_In.
  eapply elem_of_sublist; [exact H|apply sublist_take].
Qed.

Lemma capNodes_incl f h nodes edges nodes' edges' :
  capNodes f h nodes edges = (nodes', edges') ->
  (forall l, In l nodes' -> In l nodes) /\ sublist edges' edges.
Proof.
  unfold capNodes. destruct (_ <? _)%Z; intros [= <- <-].
  - split; [|apply filter_sublist].
    intros l Hl. apply slice0_In in Hl.
    apply (Permutation_in _ (sort_perm _ _)) in Hl. exact Hl.
  - split; [auto|reflexivity].
Qed.

Lemma capNodes_length f h nodes edges nodes' edges' :
  capNodes f h nodes edges = (nodes', edges') ->
  (0 <= GraphFilters.maxNodes f)%Z ->
  (Z.of_nat (length nodes') <= GraphFilters.maxNodes f)%Z.
Proof.
  unfold capNodes. destruct (Z.ltb_spec (GraphFilters.maxNodes f) (Z.of_nat (length nodes)));
    intros [= <- <-] Hm; [|lia].
  rewrite slice0_take by exact Hm. rewrite length_take. lia.
Qed.

Lemma capNodes_within f h nodes edges :
  (Z.of_nat (length nodes) <= GraphFilters.maxNodes f)%Z ->
  capNodes f h nodes edges = (nodes, edges).
Proof.
  intros H. unfold capNodes.
  destruct (Z.ltb_spec (GraphFilters.maxNodes f) (Z.of_nat (length nodes))); [lia|].
  reflexivity.
Qed.

Lemma survivingEdges_selected f h nodes edges e :
  In e (survivingEdges f h nodes edges) ->
  In e edges /\ In (Edge.predicate e) (GraphFilters.predicates f).
Proof.
  unfold survivingEdges, filterEdges. intros H. apply filter_In in H as [H1 H2].
  split; [exact H1|]. unfold keepEdge in H2.
  destruct (includesStr _ _) eqn:E; [|discriminate]. apply includesStr_In. exact E.
Qed.

Lemma lookup_sameButPosition (h h' : heap) l n :
  Forall2 Node.sameButPosition h h' -> h !! l = Some n ->
  exists n', h' !! l = Some n' /\ Node.sameButPosition n n'.
Proof. intros H Hl. exact (Forall2_lookup_l _ _ _ _ _ H Hl). Qed.


Lemma filterEffect_shown_valid st l :
  In l (visibleNodes (filterEffect st)) ->
  In l (allNodes st) /\
  exists n, heap_of st !! l = Some n /\ keepNode (filters st) n = true.
Proof.
  unfold filterEffect.
  destruct (capNodes _ _ _ _) as [nodes' edges'] eqn:Ecap.
  cbn [visibleNodes]. intros Hl.
  destruct (capNodes_incl _ _ _ _ _ _ Ecap) as [Hincl _].
  apply Hincl, survivingNodes_In, filterNodes_In in Hl. exact Hl.
Qed.

Lemma filterEffect_heap st :
  Forall2 Node.sameButPosition (heap_of st) (heap_of (filterEffect st)).
Proof.
  unfold filterEffect. destruct (capNodes _ _ _ _) as [nodes' edges'].
  cbn [heap_of]. apply applyLayout_sameButPosition.
Qed.

Lemma filterEffect_shown_edge st e :
  In e (visibleEdges (filterEffect st)) ->
  In e (survivingEdges (filters st) (heap_of st) (allNodes st) (allEdges st)).
Proof.
  unfold filterEffect.
  destruct (capNodes _ _ _ _) as [nodes' edges'] eqn:Ecap.
  cbn [visibleEdges]. intros He.
  destruct (capNodes_incl _ _ _ _ _ _ Ecap) as [_ Hsub].
  apply list_elem_of_In. apply list_elem_of_In in He.
  exact (elem_of_sublist _ _ _ He Hsub).
Qed.


(** X7 (shown edges are selected).  The edges the filter shows are edges of
    [allEdges], in the order of [allEdges], and the predicate of each is
    among the selected predicates. *)
Theorem filter_shows_only_selected_edges st :
  sublist (visibleEdges (filterEffect st)) (allEdges st) /\
  forall e, In e (visibleEdges (filterEffect st)) ->
            In (Edge.predicate e) (GraphFilters.predicates (filters st)).
Proof.
  split.
  - unfold filterEffect.
    destruct (capNodes _ _ _ _) as [nodes' edges'] eqn:Ecap.
    cbn [visibleEdges].
    destruct (capNodes_incl _ _ _ _ _ _ Ecap) as [_ Hsub].
    etransitivity; [exact Hsub|]. apply filter_sublist.
  - intros e He. apply filterEffect_shown_edge, survivingEdges_selected in He. tauto.
Qed.

Lemma filter_all {A} (f : A -> bool) (l : list A) :
  (forall a, In a l -> f a = true) -> List.filter f l = l.
Proof.
  induction l as [|a l IH]; intros H; [reflexivity|]. cbn [List.filter].
  rewrite (H a (or_introl eq_refl)), IH; [reflexivity|].
  intros b Hb. apply H. right. exact Hb.
Qed.

Lemma filterEffect_whole st :
  GraphFilters.showIsolatedNodes (filters st) = true ->
  (Z.of_nat (length (allNodes st)) <= GraphFilters.maxNodes (filters st))%Z ->
  (forall l, In l (allNodes st) ->
     exists n, heap_of st !! l = Some n /\ passesNodeTests (filters st) n) ->
  (forall e, In e (allEdges st) ->
     In (Edge.predicate e) (GraphFilters.predicates (filters st)) /\
     idPresent (heap_of st) (allNodes st) (Edge.source e) /\
     idPresent (heap_of st) (allNodes st) (Edge.target e)) ->
  visibleNodes (filterEffect st) = allNodes st /\
  visibleEdges (filterEffect st) = allEdges st.
Proof.
  intros Hiso Hcap Hn He.
  assert (EN : filterNodes (filters st) (heap_of st) (allNodes st) = allNodes st).
  { apply filter_all. intros l Hl. destruct (Hn l Hl) as (n & Hlk & Hp).
    unfold onNode. rewrite Hlk. apply keepNode_spec, Hp. }
  assert (ES : survivingNodes (filters st) (heap_of st) (allNodes st) (allEdges st)
               = allNodes st).
  { unfold survivingNodes, dropIsolated. rewrite Hiso. exact EN. }
  assert (EE : survivingEdges (filters st) (heap_of st) (allNodes st) (allEdges st)
               = allEdges st).
  { unfold survivingEdges, filterEdges. rewrite EN. apply filter_all.
    intros e Hin. destruct (He e Hin) as (Hp & Hs & Ht). unfold keepEdge.
    apply includesStr_In in Hp. rewrite Hp. cbn [negb].
    apply someId_spec in Hs, Ht. rewrite Hs, Ht. reflexivity. }
  unfold filterEffect. rewrite ES, EE, capNodes_within by exact Hcap.
  split; reflexivity.
Qed.

Lemma incidence_le id edges : (incidence id edges <= 2 * Z.of_nat (length edges))%Z.
Proof.
  unfold incidence, countSource, countTarget.
  pose proof (List.filter_length_le (fun e => String.eqb (Edge.source e) id) edges).
  pose proof (List.filter_length_le (fun e => String.eqb (Edge.target e) id) edges).
  lia.
Qed.

Lemma buildGraph_edge_of ts h d e :
  In e (edgeList (buildGraph ts h d)) ->
  exists j t, ts !! j = Some t /\ e = edgeOf t j.
Proof.
  rewrite buildGraph_edgeList. intros H. apply list_elem_of_In in H.
  apply list_elem_of_lookup in H as [j Hj].
  rewrite list_lookup_imap in Hj.
  destruct (ts !! j) as [t|] eqn:E; [|discriminate].
  cbn in Hj. injection Hj as <-. eauto.
Qed.

(** There are at least as many nodes as edges: the object keys of the batch
    are all different, and each is a key of the map. *)
Lemma buildGraph_edges_le_nodes ts h d :
  length ts <= length (nodeMap (buildGraph ts h d)).
Proof.
  destruct (buildGraph_inv ts h d) as (_ & _ & _ & He).
  rewrite buildGraph_edgeList in He.
  set (targets := imap (fun j t => objectId t j) ts).
  assert (Hlen : length targets = length ts) by apply length_imap.
  rewrite <- Hlen, <- (length_map fst (nodeMap (buildGraph ts h d))).
  apply NoDup_incl_length.
  - apply NoDup_ListNoDup, (proj2 (NoDup_alt targets)). intros i j x Hi Hj. unfold targets in Hi, Hj.
    rewrite list_lookup_imap in Hi, Hj.
    destruct (ts !! i) as [ti|]; [|discriminate].
    destruct (ts !! j) as [tj|]; [|discriminate].
    cbn in Hi, Hj. injection Hi as <-. injection Hj as Hj.
    apply objectId_inj in Hj. symmetry. tauto.
  - intros x Hx. apply list_elem_of_In, list_elem_of_lookup in Hx as [j Hj].
    unfold targets in Hj. rewrite list_lookup_imap in Hj.
    destruct (ts !! j) as [t|] eqn:E; [|discriminate].
    cbn in Hj. injection Hj as <-.
    refine (proj2 (He (edgeOf t j) _)).
    apply list_elem_of_In, list_elem_of_lookup. exists j.
    rewrite list_lookup_imap, E. reflexivity.
Qed.

(** X8 (default view).  With the filters of the mounted component, a graph
    of at most 50 nodes is shown whole: after the builder and the filter
    have run on a non-empty batch, the shown nodes are all the nodes and the
    shown edges are all the edges. *)
Theorem default_view_shows_whole_graph ts st :
  ts <> [] ->
  filters st = GraphFilters.initial ->
  length (allNodes (buildEffect ts st)) <= 50 ->
  visibleNodes (filterEffect (buildEffect ts st)) = allNodes (buildEffect ts st) /\
  visibleEdges (filterEffect (buildEffect ts st)) = allEdges (buildEffect ts st).
Proof.
  intros Hne Hf Hlen. rewrite (buildEffect_nonempty ts st Hne) in *. cbv zeta in *.
  cbn [allNodes] in Hlen. unfold NodeMap.values in Hlen. rewrite length_map in Hlen.
  pose proof (buildGraph_edges_le_nodes ts (heap_of st) (draws st)) as Hts.
  destruct (buildGraph_inv ts (heap_of st) (draws st)) as (_ & _ & _ & He).
  apply filterEffect_whole; cbn [filters heap_of allNodes allEdges]; rewrite ?Hf.
  - reflexivity.
  - unfold NodeMap.values. rewrite length_map. cbn. lia.
  - intros l Hl. unfold NodeMap.values in Hl.
    apply in_map_iff in Hl as ([k l'] & E & Hin). cbn in E. subst l'.
    destruct (buildGraph_node _ _ _ _ _ Hin) as (n & Hlk & Hid & Hc).
    exists n. split; [exact Hlk|]. unfold passesNodeTests. cbn.
    split; [destruct (Node.type n); cbn; auto|].
    pose proof (incidence_nonneg k (edgeList (buildGraph ts (heap_of st) (draws st)))).
    pose proof (incidence_le k (edgeList (buildGraph ts (heap_of st) (draws st))))
      as Hle.
    rewrite buildGraph_edges_length in Hle.
    split; [lia|]. split; [lia|]. left. reflexivity.
  - intros e Hin. destruct (He e Hin) as [Hs Ht].
    split; [|split; apply buildGraph_key_present; assumption].
    cbn [GraphFilters.predicates GraphFilters.set_predicates].
    apply buildGraph_edge_of in Hin as (j & t & Hj & ->).
    destruct (forEachIdx_predicateSet ts 0 (mkBuilder (heap_of st) [] [] [] (draws st)))
      as [_ Hp].
    apply Hp. right. exists t. split; [|reflexivity].
    apply list_elem_of_In. exact (list_elem_of_lookup_2 _ _ _ Hj).
Qed.

(** X9 (isolated nodes).  With isolated nodes switched off and no more nodes
    in the graph than the cap, every node the filter shows is an end of an
    edge the filter shows. *)
Theorem filter_hides_isolated_nodes st l :
  GraphFilters.showIsolatedNodes (filters st) = false ->
  (Z.of_nat (length (allNodes st)) <= GraphFilters.maxNodes (filters st))%Z ->
  In l (visibleNodes (filterEffect st)) ->
  exists n e, heap_of (filterEffect st) !! l = Some n /\
              In e (visibleEdges (filterEffect st)) /\
              (Edge.source e = Node.id n \/ Edge.target e = Node.id n).
Proof.
  intros Hiso Hcap. unfold filterEffect.
  rewrite capNodes_within.
  2: { pose proof (sublist_length _ _
         (survivingNodes_sublist (filters st) (heap_of st) (allNodes st) (allEdges st))).
       lia. }
  cbn [visibleNodes heap_of visibleEdges]. intros Hl.
  pose proof Hl as Hl'. unfold survivingNodes, dropIsolated in Hl'.
  rewrite Hiso in Hl'. cbn [negb] in Hl'.
  apply filter_In in Hl' as [_ Hc]. unfold onNode in Hc.
  destruct (heap_of st !! l) as [n|] eqn:Hn; [|discriminate].
  apply includesStr_In, connectedNodeIds_spec in Hc as (e & He & Hid).
  destruct (lookup_sameButPosition _ _ _ _
              (applyLayout_sameButPosition
                 (survivingNodes (filters st) (heap_of st) (allNodes st) (allEdges st))
                 (survivingEdges (filters st) (heap_of st) (allNodes st) (allEdges st))
                 (GraphFilters.layoutType (filters st)) (heap_of st)) Hn)
    as (n' & Hn' & Hsame).
  exists n', e. split; [exact Hn'|]. split; [exact He|].
  destruct Hsame as [<- _]. destruct Hid; [left|right]; congruence.
Qed.

(** Nothing the filter computes depends on the positions of the nodes. *)
Lemma onNode_ext {A} (h h' : heap) (d : A) (k : Node.t -> A) l :
  Forall2 Node.sameButPosition h h' ->
  (forall a b, Node.sameButPosition a b -> k a = k b) ->
  onNode h d k l = onNode h' d k l.
Proof.
  intros H Hk. unfold onNode. destruct (h !! l) as [n|] eqn:E.
  - destruct (lookup_sameButPosition _ _ _ _ H E) as (n' & -> & Hs). apply Hk, Hs.
  - apply lookup_ge_None in E. rewrite (Forall2_length _ _ _ H) in E.
    apply lookup_ge_None in E. rewrite E. reflexivity.
Qed.

Lemma keepNode_ext f a b : Node.sameButPosition a b -> keepNode f a = keepNode f b.
Proof.
  intros (_ & Hl & Ht & _ & _ & Hc & _). unfold keepNode. rewrite Hl, Ht, Hc.
  reflexivity.
Qed.

Lemma existsb_ext {A} (f g : A -> bool) l :
  (forall a, f a = g a) -> existsb f l = existsb g l.
Proof. intros H. induction l as [|a l IH]; cbn; [reflexivity|]. rewrite H, IH. reflexivity. Qed.

Lemma forEachIdx_ext {A S} (f g : A -> nat -> S -> S) l :
  (forall a i s, f a i s = g a i s) ->
  forall i s, forEachIdx f l i s = forEachIdx g l i s.
Proof.
  intros H. induction l as [|a l IH]; intros i s; cbn; [reflexivity|].
  rewrite H. apply IH.
Qed.

Lemma sort_ext {A} (c c' : A -> A -> Z) l :
  (forall a b, c a b = c' a b) -> sort c l = sort c' l.
Proof.
  intros H. induction l as [|a l IH]; cbn; [reflexivity|]. rewrite IH.
  generalize (sort c' l). intros s. induction s as [|b s IHs]; cbn; [reflexivity|].
  rewrite H, IHs. reflexivity.
Qed.

Lemma filterNodes_ext f (h h' : heap) nodes :
  Forall2 Node.sameButPosition h h' -> filterNodes f h nodes = filterNodes f h' nodes.
Proof.
  intros H. unfold filterNodes. apply List.filter_ext. intros l.
  apply onNode_ext; [exact H|]. apply keepNode_ext.
Qed.

Lemma someId_ext (h h' : heap) nodes id :
  Forall2 Node.sameButPosition h h' -> someId h nodes id = someId h' nodes id.
Proof.
  intros H. unfold someId. apply existsb_ext. intros l.
  apply onNode_ext; [exact H|]. intros a b (Hid & _). rewrite Hid. reflexivity.
Qed.

Lemma filterEdges_ext f (h h' : heap) nodes edges :
  Forall2 Node.sameButPosition h h' ->
  filterEdges f h nodes edges = filterEdges f h' nodes edges.
Proof.
  intros H. unfold filterEdges. apply List.filter_ext. intros e. unfold keepEdge.
  rewrite !(someId_ext h h') by exact H. reflexivity.
Qed.

Lemma dropIsolated_ext f (h h' : heap) edges nodes :
  Forall2 Node.sameButPosition h h' ->
  dropIsolated f h edges nodes = dropIsolated f h' edges nodes.
Proof.
  intros H. unfold dropIsolated. destruct (negb _); [|reflexivity].
  apply List.filter_ext. intros l. apply onNode_ext; [exact H|].
  intros a b (Hid & _). rewrite Hid. reflexivity.
Qed.

Lemma survivingNodes_ext f (h h' : heap) nodes edges :
  Forall2 Node.sameButPosition h h' ->
  survivingNodes f h nodes edges = survivingNodes f h' nodes edges.
Proof.
  intros H. unfold survivingNodes.
  rewrite (filterNodes_ext f h h'), (filterEdges_ext f h h'), (dropIsolated_ext f h h')
    by exact H.
  reflexivity.
Qed.

Lemma survivingEdges_ext f (h h' : heap) nodes edges :
  Forall2 Node.sameButPosition h h' ->
  survivingEdges f h nodes edges = survivingEdges f h' nodes edges.
Proof.
  intros H. unfold survivingEdges.
  rewrite (filterNodes_ext f h h'), (filterEdges_ext f h h') by exact H. reflexivity.
Qed.

Lemma capNodes_ext f (h h' : heap) nodes edges :
  Forall2 Node.sameButPosition h h' ->
  capNodes f h nodes edges = capNodes f h' nodes edges.
Proof.
  intros H. unfold capNodes. destruct (_ <? _)%Z; [|reflexivity].
  assert (Es : sort (byConnections h) nodes = sort (byConnections h') nodes).
  { apply sort_ext. intros a b. unfold byConnections, degree.
    rewrite !(onNode_ext h h' 0%Z Node.connections); try exact H;
      try (intros x y (_ & _ & _ & _ & _ & Hc & _); exact Hc).
    reflexivity. }
  rewrite Es.
  assert (Ei : forall ns, visibleNodeIds h ns = visibleNodeIds h' ns).
  { intros ns. unfold visibleNodeIds, forEach. apply forEachIdx_ext.
    intros l _ ids. apply onNode_ext; [exact H|].
    intros x y (Hid & _). rewrite Hid. reflexivity. }
  rewrite Ei. reflexivity.
Qed.

Lemma filterEffect_unfold st :
  filterEffect st =
  let f := filters st in
  let h := heap_of st in
  let ce := capNodes f h (survivingNodes f h (allNodes st) (allEdges st))
                     (survivingEdges f h (allNodes st) (allEdges st)) in
  mkState (applyLayout (fst ce) (snd ce) (GraphFilters.layoutType f) h)
          (allNodes st) (allEdges st) (fst ce) (snd ce)
          (scale st) (isAnimating st) f (availablePredicates st) (draws st).
Proof. unfold filterEffect. destruct (capNodes _ _ _ _); reflexivity. Qed.

(** X10 (running the filter again).  Running the filter again changes
    nothing: the filter applied to its own result gives that result, store
    included. *)
Theorem filter_idempotent st : filterEffect (filterEffect st) = filterEffect st.
Proof.
  rewrite (filterEffect_unfold (filterEffect st)).
  rewrite (filterEffect_unfold st). cbv zeta.
  cbn [heap_of allNodes allEdges filters scale isAnimating availablePredicates draws].
  set (f := filters st). set (h := heap_of st).
  set (ce := capNodes f h (survivingNodes f h (allNodes st) (allEdges st))
                      (survivingEdges f h (allNodes st) (allEdges st))).
  set (h' := applyLayout (fst ce) (snd ce) (GraphFilters.layoutType f) h).
  assert (Hh : Forall2 Node.sameButPosition h h') by apply applyLayout_sameButPosition.
  assert (E : capNodes f h' (survivingNodes f h' (allNodes st) (allEdges st))
                       (survivingEdges f h' (allNodes st) (allEdges st)) = ce).
  { rewrite <- (survivingNodes_ext f h h'), <- (survivingEdges_ext f h h'),
      <- (capNodes_ext f h h') by exact Hh. reflexivity. }
  rewrite E. unfold h'. rewrite applyLayout_idempotent. reflexivity.
Qed.

Lemma survivingEdges_none f h nodes edges :
  GraphFilters.predicates f = [] -> survivingEdges f h nodes edges = [].
Proof.
  intros Hp. destruct (survivingEdges f h nodes edges) as [|e es] eqn:E; [reflexivity|].
  assert (Hin : In e (survivingEdges f h nodes edges)) by (rewrite E; left; reflexivity).
  apply survivingEdges_selected in Hin as [_ Hin]. rewrite Hp in Hin. destruct Hin.
Qed.

Lemma capNodes_nil f h : capNodes f h [] [] = ([], []).
Proof.
  unfold capNodes. destruct (_ <? _)%Z; [|reflexivity].
  cbn [sort]. unfold slice0. rewrite take_nil. reflexivity.
Qed.

(** X11 (hidden predicates).  Hiding all predicates leaves no edge shown,
    and no node either when isolated nodes are switched off; unchecking one
    predicate leaves no edge of that predicate shown. *)
Theorem hiding_predicates_hides_edges st :
  visibleEdges (filterEffect (updateFilters hideAllPredicates st)) = [] /\
  (GraphFilters.showIsolatedNodes (filters st) = false ->
   visibleNodes (filterEffect (updateFilters hideAllPredicates st)) = []) /\
  (forall p e,
     In e (visibleEdges (filterEffect (updateFilters (onCheckedChange p false) st))) ->
     Edge.predicate e <> p).
Proof.
  split; [|split].
  - destruct (visibleEdges _) as [|e es] eqn:E; [reflexivity|].
    assert (He : In e (visibleEdges (filterEffect (updateFilters hideAllPredicates st))))
      by (rewrite E; left; reflexivity).
    apply filterEffect_shown_edge, survivingEdges_selected in He as [_ []].
  - intros Hiso. rewrite filterEffect_unfold. cbv zeta. cbn [visibleNodes].
    set (f := filters (updateFilters hideAllPredicates st)).
    set (h := heap_of (updateFilters hideAllPredicates st)).
    assert (EE : forall ns es, survivingEdges f h ns es = [])
      by (intros; apply survivingEdges_none; reflexivity).
    assert (EN : forall ns es, survivingNodes f h ns es = []).
    { intros ns es. unfold survivingNodes.
      change (filterEdges f h (filterNodes f h ns) es) with (survivingEdges f h ns es).
      rewrite EE. unfold dropIsolated.
      replace (GraphFilters.showIsolatedNodes f) with false by (symmetry; exact Hiso).
      cbn [negb]. destruct (List.filter _ _) as [|l ls] eqn:E; [reflexivity|].
      assert (Hin : In l (l :: ls)) by (left; reflexivity).
      rewrite <- E in Hin. apply filter_In in Hin as [_ Hin].
      unfold onNode in Hin. destruct (h !! l); discriminate. }
    rewrite EN, EE, capNodes_nil. reflexivity.
  - intros p e He.
    apply filterEffect_shown_edge, survivingEdges_selected in He as [_ H].
    cbn in H. apply filter_In in H as [_ H].
    intros E. rewrite E, String.eqb_refl in H. discriminate.
Qed.

(** X12 (connected only).  After the quick filter for connected nodes and
    the filter, at most 30 nodes are shown and each has two connections or
    more. *)
Theorem only_connected_shows_hubs st :
  length (visibleNodes (filterEffect (updateFilters onlyConnected st))) <= 30 /\
  forall l, In l (visibleNodes (filterEffect (updateFilters onlyConnected st))) ->
    exists n, heap_of (filterEffect (updateFilters onlyConnected st)) !! l = Some n /\
              (2 <= Node.connections n)%Z.
Proof.
  split.
  - rewrite filterEffect_unfold. cbv zeta. cbn [visibleNodes].
    destruct (capNodes _ _ _ _) as [ns es] eqn:E.
    apply capNodes_length in E; [|cbn; lia]. cbn in E. cbn [fst]. lia.
  - intros l Hl.
    destruct (filterEffect_shown_valid _ _ Hl) as (_ & n & Hn & Hk).
    apply keepNode_spec in Hk as (_ & Hmin & _).
    destruct (lookup_sameButPosition _ _ _ _ (filterEffect_heap _) Hn)
      as (n' & Hn' & (_ & _ & _ & _ & _ & Hc & _)).
    exists n'. split; [exact Hn'|]. rewrite <- Hc. exact Hmin.
Qed.

(* --------------------------------------------------------------------- *)
(** *** Layouts: composition and geometry *)

Lemma sameButPosition_eq a b :
  Node.sameButPosition a b -> position a = position b -> a = b.
Proof.
  destruct a, b. unfold Node.sameButPosition, position. cbn.
  intros (-> & -> & -> & -> & -> & -> & -> & ->) [= -> ->]. reflexivity.
Qed.

Lemma sameButPosition_trans a b c :
  Node.sameButPosition a b -> Node.sameButPosition b c -> Node.sameButPosition a c.
Proof.
  unfold Node.sameButPosition.
  intros (-> & -> & -> & -> & -> & -> & -> & ->) H. exact H.
Qed.

Lemma sameButPosition_sym a b : Node.sameButPosition a b -> Node.sameButPosition b a.
Proof.
  unfold Node.sameButPosition.
  intros (-> & -> & -> & -> & -> & -> & -> & ->). repeat split.
Qed.

Lemma applyLayout_type nodes edges lt (h : heap) l :
  Node.type <$> applyLayout nodes edges lt h !! l = Node.type <$> h !! l.
Proof. rewrite applyLayout_runWrites. apply runWrites_type. Qed.

(** X13 (a static layout forgets the one before).  A static layout forgets
    the layout before it: circular, grid or hierarchical applied after any
    layout of the same nodes gives the store it gives when applied alone. *)
Theorem static_layout_forgets_previous nodes edges lt1 lt2 (h : heap) :
  isForce lt2 = false ->
  applyLayout nodes edges lt2 (applyLayout nodes edges lt1 h)
  = applyLayout nodes edges lt2 h.
Proof.
  intros Hs. apply list_eq. intros l.
  destruct (In_dec Nat.eq_dec l nodes) as [Hin|Hout].
  - pose proof (applyLayout_position_ext nodes edges lt2
                  (applyLayout nodes edges lt1 h) h l Hs
                  (applyLayout_type nodes edges lt1 h) Hin) as Hpos.
    pose proof (applyLayout_sameButPosition nodes edges lt1 h) as H1.
    pose proof (applyLayout_sameButPosition nodes edges lt2
                  (applyLayout nodes edges lt1 h)) as H2.
    pose proof (applyLayout_sameButPosition nodes edges lt2 h) as H3.
    destruct (h !! l) as [n|] eqn:E.
    + destruct (lookup_sameButPosition _ _ _ _ H1 E) as (n1 & E1 & S1).
      destruct (lookup_sameButPosition _ _ _ _ H2 E1) as (n2 & E2 & S2).
      destruct (lookup_sameButPosition _ _ _ _ H3 E) as (n3 & E3 & S3).
      rewrite E2, E3 in *. cbn in Hpos. injection Hpos as Hx Hy. f_equal.
      apply sameButPosition_eq.
      * eapply sameButPosition_trans; [apply sameButPosition_sym; exact S2|].
        eapply sameButPosition_trans; [apply sameButPosition_sym; exact S1|exact S3].
      * unfold position. congruence.
    + apply lookup_ge_None in E.
      pose proof (Forall2_length _ _ _ H1). pose proof (Forall2_length _ _ _ H2).
      pose proof (Forall2_length _ _ _ H3).
      rewrite !(proj2 (lookup_ge_None _ _)) by lia. reflexivity.
  - rewrite !applyLayout_elsewhere by exact Hout. reflexivity.
Qed.

Lemma sqrt_up_square n : n <= Nat.sqrt_up n * Nat.sqrt_up n.
Proof.
  destruct n as [|n]; [lia|].
  pose proof (Nat.sqrt_up_spec (S n) ltac:(lia)) as [_ H].
  exact H.
Qed.

(** X14 (grid cells).  The grid layout puts the node at place [i] of the
    shown nodes in column [i mod cols] and row [i / cols], 80 apart from 50
    on, where [cols] is the square root of the number of nodes, rounded up;
    columns and rows are below [cols], and no two places share a cell. *)
Theorem grid_layout_cells nodes edges (h : heap) i l n :
  NoDup nodes -> nodes !! i = Some l -> h !! l = Some n ->
  exists n', applyLayout nodes edges grid h !! l = Some n' /\
    Node.x n' = (JsNumber.of_nat (fst (gridCell i (length nodes))) * 80 + 50)%float /\
    Node.y n' = (JsNumber.of_nat (snd (gridCell i (length nodes))) * 80 + 50)%float /\
    fst (gridCell i (length nodes)) < Nat.sqrt_up (length nodes) /\
    snd (gridCell i (length nodes)) < Nat.sqrt_up (length nodes) /\
    (forall j, gridCell j (length nodes) = gridCell i (length nodes) -> j = i).
Proof.
  intros Hnd Hi Hl.
  pose proof (lookup_lt_Some _ _ _ Hi) as Hlt.
  pose proof (sqrt_up_square (length nodes)) as Hsq.
  assert (Hc : 0 < Nat.sqrt_up (length nodes)).
  { destruct (Nat.sqrt_up (length nodes)); [cbn in Hsq; lia|lia]. }
  eexists. split; [|split; [|split; [|split; [|split]]]].
  - cbn [applyLayout]. unfold place.
    rewrite (setPositions_at _ nodes Hnd 0 h i l Hi), Hl. reflexivity.
  - reflexivity.
  - reflexivity.
  - cbn. apply Nat.mod_upper_bound. lia.
  - cbn. apply Nat.Div0.div_lt_upper_bound. lia.
  - unfold gridCell. cbv zeta. intros j [= Hm Hd].
    rewrite (Nat.div_mod_eq j (Nat.sqrt_up (length nodes))).
    rewrite (Nat.div_mod_eq i (Nat.sqrt_up (length nodes))).
    rewrite Hm, Hd. reflexivity.
Qed.

Lemma ofType_type (h : heap) ty nodes l n :
  In l (ofType h ty nodes) -> h !! l = Some n -> Node.type n = ty.
Proof.
  unfold ofType. intros Hin Hl. apply filter_In in Hin as [_ Hin].
  unfold onNode in Hin. rewrite Hl in Hin.
  destruct (Node.type n), ty; try discriminate; reflexivity.
Qed.

Lemma hierarchical_at nodes edges (h : heap) ty k l n :
  NoDup nodes -> ofType h ty nodes !! k = Some l -> h !! l = Some n ->
  applyLayout nodes edges hierarchical h !! l
  = Some (Node.set_xy (JsNumber.of_nat ((k * 100) mod 400) + 50)%float
            (match ty with subject => 100 | object => 300 end)%float n).
Proof.
  intros Hnd Hk Hl.
  assert (Hin : In l (ofType h ty nodes)).
  { apply list_elem_of_In. exact (list_elem_of_lookup_2 _ _ _ Hk). }
  assert (Hty : Node.type n = ty) by exact (ofType_type _ _ _ _ _ Hin Hl).
  cbn [applyLayout]. destruct ty.
  - rewrite place_elsewhere.
    2: { intros Ho. pose proof (ofType_type _ _ _ _ _ Ho Hl). congruence. }
    unfold place.
    rewrite (setPositions_at _ _ (filter_NoDup _ _ Hnd) 0 h k l Hk), Hl. reflexivity.
  - unfold place at 1.
    rewrite (setPositions_at _ _ (filter_NoDup _ _ Hnd) 0 _ k l Hk).
    rewrite place_elsewhere.
    2: { intros Ho. pose proof (ofType_type _ _ _ _ _ Ho Hl). congruence. }
    rewrite Hl. reflexivity.
Qed.

(** X15 (hierarchical lines).  The hierarchical layout puts the subjects on
    the line y = 100 and the objects on the line y = 300, the node of rank
    [k] among the shown nodes of its type at x = (k * 100) mod 400 + 50:
    there are four places on a line, and two nodes of a type whose ranks
    differ by a multiple of four get the same position. *)
Theorem hierarchical_layout_bands nodes edges (h : heap) ty k l n :
  NoDup nodes -> ofType h ty nodes !! k = Some l -> h !! l = Some n ->
  (exists n', applyLayout nodes edges hierarchical h !! l = Some n' /\
     Node.x n' = (JsNumber.of_nat ((k * 100) mod 400) + 50)%float /\
     Node.y n' = (match ty with subject => 100 | object => 300 end)%float) /\
  (forall k' l',
     ofType h ty nodes !! k' = Some l' -> k' mod 4 = k mod 4 ->
     position <$> applyLayout nodes edges hierarchical h !! l'
     = position <$> applyLayout nodes edges hierarchical h !! l).
Proof.
  intros Hnd Hk Hl. split.
  - eexists. split; [exact (hierarchical_at nodes edges h ty k l n Hnd Hk Hl)|].
    split; reflexivity.
  - intros k' l' Hk' Hmod.
    assert (Hin : In l' (ofType h ty nodes)).
    { apply list_elem_of_In. exact (list_elem_of_lookup_2 _ _ _ Hk'). }
    unfold ofType in Hin. apply filter_In in Hin as [_ Hin]. unfold onNode in Hin.
    destruct (h !! l') as [n0|] eqn:Hl'; [|discriminate].
    rewrite (hierarchical_at nodes edges h ty k l n Hnd Hk Hl).
    rewrite (hierarchical_at nodes edges h ty k' l' n0 Hnd Hk' Hl').
    assert (E : (k' * 100) mod 400 = (k * 100) mod 400).
    { replace 400 with (4 * 100) by reflexivity.
      rewrite !Nat.Div0.mul_mod_distr_r. rewrite Hmod. reflexivity. }
    rewrite E. reflexivity.
Qed.

(* --------------------------------------------------------------------- *)
(** *** The force simulation: what a tick writes, and many ticks *)

Lemma sameButMotion_refl n : sameButMotion n n.
Proof. repeat split. Qed.

Lemma sameButMotion_set_v a b vx vy :
  sameButMotion a b -> sameButMotion a (Node.set_v vx vy b).
Proof. unfold sameButMotion. cbn. tauto. Qed.

Lemma sameButMotion_set_xy a b px py :
  sameButMotion a b -> sameButMotion a (Node.set_xy px py b).
Proof. unfold sameButMotion. cbn. tauto. Qed.

Lemma sameButVelocity_motion a b : Node.sameButVelocity a b -> sameButMotion a b.
Proof. unfold Node.sameButVelocity, sameButMotion. tauto. Qed.

Lemma repelFrom_elsewhere l o (h : heap) l' :
  l' <> l -> repelFrom l o h !! l' = h !! l'.
Proof.
  intros Hne. unfold repelFrom.
  destruct (h !! l); [|reflexivity]. destruct (h !! o); [|reflexivity].
  apply list_lookup_insert_ne. congruence.
Qed.

Lemma applyForces_elsewhere nodes l (h : heap) l' :
  l' <> l -> applyForces nodes l h !! l' = h !! l'.
Proof.
  intros Hne. unfold applyForces.
  apply (forEach_invariant (fun h' : heap => h' !! l' = h !! l')).
  - apply list_lookup_alter_ne. congruence.
  - intros o h' _ Hh'. rewrite repelFrom_elsewhere by exact Hne. exact Hh'.
Qed.

Lemma findId_In (h : heap) nodes id l : findId h nodes id = Some l -> In l nodes.
Proof. unfold findId. intros H. apply find_some in H. tauto. Qed.

Lemma attract_elsewhere nodes e (h : heap) l' :
  ~ In l' nodes -> attract nodes e h !! l' = h !! l'.
Proof.
  intros Hout. unfold attract.
  destruct (findId h nodes (Edge.source e)) as [s|] eqn:Es; [|reflexivity].
  destruct (findId h nodes (Edge.target e)) as [t|] eqn:Et; [|reflexivity].
  destruct (h !! s); [|reflexivity]. destruct (h !! t); [|reflexivity].
  destruct (0 <? _)%float; [|reflexivity].
  apply findId_In in Es, Et.
  rewrite !list_lookup_alter_ne; [reflexivity| |]; intros ->; contradiction.
Qed.

Lemma tick_elsewhere nodes edges (h : heap) l' :
  ~ In l' nodes -> tick nodes edges h !! l' = h !! l'.
Proof.
  intros Hout. unfold tick. rewrite integrate_elsewhere by exact Hout.
  apply (forEach_invariant (fun h' : heap => h' !! l' = h !! l')).
  - apply (forEach_invariant (fun h' : heap => h' !! l' = h !! l')); [reflexivity|].
    intros l h' Hin Hh'. rewrite applyForces_elsewhere; [exact Hh'|].
    intros ->. contradiction.
  - intros e h' _ Hh'. rewrite attract_elsewhere by exact Hout. exact Hh'.
Qed.

Lemma tick_sameButMotion nodes edges (h : heap) :
  Forall2 sameButMotion h (tick nodes edges h).
Proof.
  unfold tick.
  apply (forEach_invariant (fun h' : heap => Forall2 sameButMotion h h')).
  - eapply Forall2_impl; [apply forces_keep_positions|].
    intros a b. apply sameButVelocity_motion.
  - intros l h' _ Hh'. apply Forall2_alter_r; [exact Hh'|].
    intros a b _ _ Hab. apply sameButMotion_set_xy, Hab.
Qed.

(** X16 (what a tick writes).  A call of the force simulation writes nothing
    but positions and velocities, and those of the shown nodes only: the
    arrays stay as they are, every node keeps its id, label, type,
    connections, visibility and cluster, and a node that is not shown is not
    written at all. *)
Theorem force_tick_writes_motion_only st :
  allNodes (runForceSimulation st) = allNodes st /\
  allEdges (runForceSimulation st) = allEdges st /\
  visibleNodes (runForceSimulation st) = visibleNodes st /\
  visibleEdges (runForceSimulation st) = visibleEdges st /\
  Forall2 sameButMotion (heap_of st) (heap_of (runForceSimulation st)) /\
  (forall l, ~ In l (visibleNodes st) ->
             heap_of (runForceSimulation st) !! l = heap_of st !! l).
Proof.
  unfold runForceSimulation. destruct (_ || _).
  - repeat split; try reflexivity.
    induction (heap_of st); constructor; auto using sameButMotion_refl.
  - cbn [allNodes allEdges visibleNodes visibleEdges heap_of].
    repeat split; try reflexivity.
    + apply tick_sameButMotion.
    + intros l Hl. apply tick_elsewhere, Hl.
Qed.

Lemma runForceSimulation_running st :
  GraphFilters.layoutType (filters st) = force -> isAnimating st = true ->
  runForceSimulation st
  = mkState (tick (visibleNodes st) (visibleEdges st) (heap_of st))
            (allNodes st) (allEdges st) (visibleNodes st) (visibleEdges st)
            (scale st) (isAnimating st) (filters st) (availablePredicates st)
            (draws st).
Proof. intros Hf Ha. unfold runForceSimulation. rewrite Hf, Ha. reflexivity. Qed.

(** X17 (many ticks).  However many calls of the force simulation follow one
    another, with the force layout and the animation on and finite positions
    at the start, after each of them every shown node lies within the canvas
    bounds [20, 380] on both axes. *)
Theorem force_simulation_stays_in_canvas st k :
  GraphFilters.layoutType (filters st) = force ->
  isAnimating st = true ->
  (forall l n, In l (visibleNodes st) -> heap_of st !! l = Some n ->
     is_finite (Node.x n) = true /\ is_finite (Node.y n) = true) ->
  forall l n', In l (visibleNodes st) ->
    heap_of (Nat.iter (S k) runForceSimulation st) !! l = Some n' ->
    JsNumber.inRange 20 380 (Node.x n') = true /\
    JsNumber.inRange 20 380 (Node.y n') = true.
Proof.
  intros Hf Ha Hfin.
  assert (Inv : forall j,
    GraphFilters.layoutType (filters (Nat.iter j runForceSimulation st)) = force /\
    isAnimating (Nat.iter j runForceSimulation st) = true /\
    visibleNodes (Nat.iter j runForceSimulation st) = visibleNodes st /\
    (forall l n, In l (visibleNodes st) ->
       heap_of (Nat.iter j runForceSimulation st) !! l = Some n ->
       is_finite (Node.x n) = true /\ is_finite (Node.y n) = true)).
  { induction j as [|j IH]; [cbn; auto|].
    destruct IH as (Hf' & Ha' & Hv & Hfin').
    change (Nat.iter (S j) runForceSimulation st)
      with (runForceSimulation (Nat.iter j runForceSimulation st)).
    rewrite (runForceSimulation_running _ Hf' Ha').
    cbn [filters isAnimating visibleNodes heap_of].
    split; [exact Hf'|]. split; [exact Ha'|]. split; [exact Hv|].
    intros l n Hin Hl. rewrite Hv in Hl.
    destruct (tick_inRange _ _ _ Hfin' l n Hin Hl) as [Rx Ry].
    split; [exact (inRange_finite 20 380 _ eq_refl eq_refl Rx)
           |exact (inRange_finite 20 380 _ eq_refl eq_refl Ry)]. }
  intros l n' Hin Hl. destruct (Inv k) as (Hf' & Ha' & Hv & Hfin').
  change (Nat.iter (S k) runForceSimulation st)
    with (runForceSimulation (Nat.iter k runForceSimulation st)) in Hl.
  rewrite (runForceSimulation_running _ Hf' Ha') in Hl.
  cbn [heap_of] in Hl. rewrite Hv in Hl.
  exact (tick_inRange _ _ _ Hfin' l n' Hin Hl).
Qed.

(* --------------------------------------------------------------------- *)
(** *** Drawing *)

(** X18 (radius and colour).  A node is drawn with a radius between 8 and
    20, which is 8 + 2 * connections up to six connections, and it is drawn
    red exactly when its radius is 20; otherwise its colour is that of its
    type. *)
Theorem node_radius_and_colour node :
  (8 <= nodeSize node <= 20)%Z /\
  ((0 <= Node.connections node <= 6)%Z ->
   nodeSize node = (8 + 2 * Node.connections node)%Z) /\
  (fillColor node = "#ef4444"%string <-> nodeSize node = 20%Z) /\
  (nodeSize node <> 20%Z ->
   fillColor node = match Node.type node with
                    | subject => "#3b82f6"
                    | object => "#f59e0b"
                    end%string).
Proof.
  unfold nodeSize, fillColor.
  destruct (Z.ltb_spec 5 (Node.connections node)) as [H|H].
  - split; [lia|]. split; [lia|]. split; [split; [lia|reflexivity]|]. lia.
  - split; [lia|]. split; [lia|]. split; [|reflexivity].
    split; [|lia]. destruct (Node.type node); discriminate.
Qed.

Lemma findId_present (h : heap) nodes id :
  idPresent h nodes id ->
  exists s n, findId h nodes id = Some s /\ h !! s = Some n.
Proof.
  intros (l & n & Hin & Hl & Hid). unfold findId.
  destruct (List.find _ nodes) as [s|] eqn:E.
  - apply find_some in E as [_ E]. unfold onNode in E.
    destruct (h !! s) as [n'|] eqn:Hs; [|discriminate]. eauto.
  - pose proof (find_none _ _ E l Hin) as Hf. unfold onNode in Hf.
    rewrite Hl, Hid, String.eqb_refl in Hf. discriminate.
Qed.

Lemma countOps_app p a b : countOps p (a ++ b) = countOps p a + countOps p b.
Proof. unfold countOps. rewrite List.filter_app, length_app. reflexivity. Qed.

Lemma countOps_flat_map {A} p (f : A -> list DrawOp) l c :
  (forall a, In a l -> countOps p (f a) = c) ->
  countOps p (flat_map f l) = c * length l.
Proof.
  induction l as [|a l IH]; intros H; [cbn; lia|].
  cbn [flat_map length]. rewrite countOps_app, (H a (or_introl eq_refl)), IH.
  - lia.
  - intros b Hb. apply H. right. exact Hb.
Qed.

Lemma drawEdge_counts (h : heap) nodes showLabels sc e :
  idPresent h nodes (Edge.source e) -> idPresent h nodes (Edge.target e) ->
  countOps isLineTo (drawEdge h nodes showLabels sc e) = 1 /\
  countOps isArc (drawEdge h nodes showLabels sc e) = 0.
Proof.
  intros Hs Ht.
  destruct (findId_present _ _ _ Hs) as (s & sn & Es & Hsn).
  destruct (findId_present _ _ _ Ht) as (t & tn & Et & Htn).
  unfold drawEdge. rewrite Es, Et, Hsn, Htn.
  destruct (showLabels && _); split; reflexivity.
Qed.

Lemma drawEdge_no_arc (h : heap) nodes showLabels sc e :
  countOps isArc (drawEdge h nodes showLabels sc e) = 0.
Proof.
  unfold drawEdge.
  destruct (findId _ _ _); [|reflexivity]. destruct (findId _ _ _); [|reflexivity].
  destruct (h !! _); [|reflexivity]. destruct (h !! _); [|reflexivity].
  destruct (showLabels && _); reflexivity.
Qed.

Lemma drawNode_counts (h : heap) showLabels sc l n :
  h !! l = Some n ->
  countOps isLineTo (drawNode h showLabels sc l) = 0 /\
  countOps isArc (drawNode h showLabels sc l) = 1.
Proof.
  intros Hl. unfold drawNode. rewrite Hl.
  destruct (showLabels && _), (1.5 <? sc)%float; split; reflexivity.
Qed.

Lemma filterEffect_attached st e :
  In e (visibleEdges (filterEffect st)) ->
  idPresent (heap_of (filterEffect st)) (visibleNodes (filterEffect st)) (Edge.source e)
  /\
  idPresent (heap_of (filterEffect st)) (visibleNodes (filterEffect st)) (Edge.target e).
Proof.
  unfold filterEffect.
  destruct (capNodes _ _ _ _) as [nodes' edges'] eqn:Ecap.
  cbn [visibleEdges heap_of visibleNodes]. intros He.
  destruct (capNodes_attached _ _ _ _ _ _ Ecap
              (surviving_edges_attached _ _ _ _) e He) as [Hs Ht].
  split; eapply idPresent_sameButPosition;
    eauto using applyLayout_sameButPosition.
Qed.

(** X19 (what is drawn).  Drawing after the filter, on a canvas that is
    there, draws one line for each shown edge and one circle for each shown
    node, no more and no less: no shown edge is skipped for want of an end. *)
Theorem render_draws_every_shown_edge_and_node c v st :
  countOps isLineTo (renderEffect (Some c) v (filterEffect st))
  = length (visibleEdges (filterEffect st)) /\
  countOps isArc (renderEffect (Some c) v (filterEffect st))
  = length (visibleNodes (filterEffect st)).
Proof.
  set (s := filterEffect st).
  assert (HE : forall e, In e (visibleEdges s) ->
            idPresent (heap_of s) (visibleNodes s) (Edge.source e) /\
            idPresent (heap_of s) (visibleNodes s) (Edge.target e))
    by (intros e; apply filterEffect_attached).
  assert (HN : forall l, In l (visibleNodes s) -> exists n, heap_of s !! l = Some n).
  { intros l Hl. destruct (filterEffect_shown_valid st l Hl) as (_ & n & Hn & _).
    destruct (lookup_sameButPosition _ _ _ _ (filterEffect_heap st) Hn) as (n' & Hn' & _).
    eauto. }
  unfold renderEffect. clearbody s.
  destruct (length (visibleNodes s) =? 0) eqn:E0.
  - apply Nat.eqb_eq in E0. rewrite E0. apply length_zero_iff_nil in E0.
    destruct (visibleEdges s) as [|e es]; [split; reflexivity|].
    destruct (HE e (or_introl eq_refl)) as [(l & _ & Hl & _) _].
    rewrite E0 in Hl. destruct Hl.
  - unfold draw. split.
    + change (countOps isLineTo (Scale (devicePixelRatio c) (devicePixelRatio c)
               :: ?x)) with (countOps isLineTo x).
      rewrite !countOps_app.
      rewrite (countOps_flat_map isLineTo _ (visibleEdges s) 1).
      2: { intros e He. destruct (HE e He) as [Hs Ht].
           apply (drawEdge_counts _ _ _ _ _ Hs Ht). }
      rewrite (countOps_flat_map isLineTo _ (visibleNodes s) 0).
      2: { intros l Hl. destruct (HN l Hl) as [n Hn].
           apply (drawNode_counts _ _ _ _ _ Hn). }
      cbn. lia.
    + change (countOps isArc (Scale (devicePixelRatio c) (devicePixelRatio c)
               :: ?x)) with (countOps isArc x).
      rewrite !countOps_app.
      rewrite (countOps_flat_map isArc _ (visibleEdges s) 0)
        by (intros e _; apply drawEdge_no_arc).
      rewrite (countOps_flat_map isArc _ (visibleNodes s) 1).
      2: { intros l Hl. destruct (HN l Hl) as [n Hn].
           apply (drawNode_counts _ _ _ _ _ Hn). }
      cbn. lia.
Qed.

(* --------------------------------------------------------------------- *)
(** *** Panning *)

Lemma drag_pressed moves :
  forall v, isDragging v = true ->
    isDragging (drag moves v) = true /\ dragStart (drag moves v) = dragStart v.
Proof.
  induction moves as [|p moves IH]; intros v Hv; [auto|].
  cbn [drag fold_left]. change (fold_left _ moves ?x) with (drag moves x).
  destruct (IH (handleMouseMove p v)) as [H1 H2].
  - unfold handleMouseMove. rewrite Hv. reflexivity.
  - split; [exact H1|]. rewrite H2. unfold handleMouseMove. rewrite Hv. reflexivity.
Qed.

Lemma drag_released moves :
  forall v, isDragging v = false -> drag moves v = v.
Proof.
  induction moves as [|p moves IH]; intros v Hv; [reflexivity|].
  cbn [drag fold_left]. change (fold_left _ moves ?x) with (drag moves x).
  unfold handleMouseMove. rewrite Hv. apply IH, Hv.
Qed.

(** X20 (dragging).  While the button is down the offset follows the
    pointer: after a press at [start] and any moves, the offset is the last
    place of the pointer minus the drag start, [start] minus the offset at
    the press, whatever the places in between; the press alone does not move
    the view, and moves after a release do not either. *)
Theorem drag_follows_pointer start moves last v :
  offset (handleMouseDown start v) = offset v /\
  offset (drag (moves ++ [last]) (handleMouseDown start v))
  = ((fst last - (fst start - fst (offset v)))%float,
     (snd last - (snd start - snd (offset v)))%float) /\
  offset (drag moves (handleMouseUp v)) = offset v.
Proof.
  split; [reflexivity|]. split.
  - unfold drag. rewrite fold_left_app. cbn [fold_left].
    change (fold_left _ moves ?x) with (drag moves x).
    destruct (drag_pressed moves (handleMouseDown start v) eq_refl) as [H1 H2].
    unfold handleMouseMove. rewrite H1, H2. reflexivity.
  - rewrite drag_released by reflexivity. reflexivity.
Qed.

(* --------------------------------------------------------------------- *)
(** *** The zoom in binary64 *)

Lemma mul_not_nan (x c : float) sc mc ec :
  Prim2SF c = S754_finite sc mc ec ->
  is_nan x = false -> is_nan (x * c)%float = false.
Proof.
  intros Hc. rewrite !is_nan_spec, mul_spec, Hc. unfold SF64mul, SFmul.
  destruct (Prim2SF x) as [sx|sx| |sx mx ex]; try discriminate; intros _;
    try reflexivity.
  apply binary_round_aux_not_nan. lia.
Qed.

Lemma div_core_nonneg m1 e1 m2 e2 :
  (0 <= fst (fst (SFdiv_core_binary prec emax (Z.pos m1) e1 (Z.pos m2) e2)))%Z.
Proof.
  unfold SFdiv_core_binary. cbv zeta.
  set (s := (e1 - e2 - _)%Z).
  set (m' := match s with 0%Z => Z.pos m1 | Z.pos _ => _ | Z.neg _ => 0%Z end).
  assert (Hm : (0 <= m')%Z).
  { unfold m'. destruct s; [lia| |lia]. apply Z.shiftl_nonneg. lia. }
  pose proof (Z.div_pos m' (Z.pos m2) Hm ltac:(lia)) as Hq.
  unfold Z.div in Hq.
  change IntDef.Z.div_eucl with Z.div_eucl.
  destruct (Z.div_eucl m' (Z.pos m2)) as [q r]. exact Hq.
Qed.

Lemma div_not_nan (x c : float) sc mc ec :
  Prim2SF c = S754_finite sc mc ec ->
  is_nan x = false -> is_nan (x / c)%float = false.
Proof.
  intros Hc. rewrite !is_nan_spec, div_spec, Hc. unfold SF64div, SFdiv.
  destruct (Prim2SF x) as [sx|sx| |sx mx ex]; try discriminate; intros _;
    try reflexivity.
  pose proof (div_core_nonneg mx ex mc ec) as H.
  destruct (SFdiv_core_binary prec emax (Z.pos mx) ex (Z.pos mc) ec) as [[mz ez] lz].
  apply binary_round_aux_not_nan. exact H.
Qed.

Lemma ltb_leb (a b : float) : (a <? b)%float = true -> (a <=? b)%float = true.
Proof.
  rewrite FloatAxioms.ltb_spec, FloatAxioms.leb_spec. unfold SFltb, SFleb.
  destruct (SFcompare _ _) as [[]|]; congruence.
Qed.

Lemma leb_refl (a : float) : is_nan a = false -> (a <=? a)%float = true.
Proof.
  rewrite is_nan_spec, FloatAxioms.leb_spec. unfold SFleb. intros H.
  rewrite SFcompare_refl by exact H. reflexivity.
Qed.

Lemma Math_min_le a b :
  is_nan a = false -> is_nan b = false -> (JsNumber.Math_min a b <=? b)%float = true.
Proof.
  intros Ha Hb. unfold JsNumber.Math_min. rewrite Ha, Hb. cbn [orb].
  destruct (a <? b)%float eqn:E1; [apply ltb_leb, E1|].
  destruct (b <? a)%float eqn:E2; [apply leb_refl, Hb|].
  destruct (_ && _); [apply ltb_false_leb; assumption|apply leb_refl, Hb].
Qed.

Lemma Math_max_ge a b :
  is_nan a = false -> is_nan b = false -> (b <=? JsNumber.Math_max a b)%float = true.
Proof.
  intros Ha Hb. unfold JsNumber.Math_max. rewrite Ha, Hb. cbn [orb].
  destruct (b <? a)%float eqn:E1; [apply ltb_leb, E1|].
  destruct (a <? b)%float eqn:E2; [apply leb_refl, Hb|].
  destruct (_ && _); [apply ltb_false_leb; assumption|apply leb_refl, Hb].
Qed.

(** X21 (zoom bounds in binary64).  In binary64, from any scale that is a
    number, zooming in gives a scale of at most 3 and zooming out a scale of
    at least 0.3: neither step leaves its bound, and neither gives NaN. *)
Theorem zoom_keeps_its_bound st :
  is_nan (scale st) = false ->
  (scale (zoomIn st) <=? 3)%float = true /\
  (0.3 <=? scale (zoomOut st))%float = true.
Proof.
  intros Hs. split.
  - change (scale (zoomIn st)) with (JsNumber.Math_min (scale st * 1.2)%float 3).
    apply Math_min_le; [|reflexivity].
    eapply mul_not_nan; [reflexivity|exact Hs].
  - change (scale (zoomOut st)) with (JsNumber.Math_max (scale st / 1.2)%float 0.3).
    apply Math_max_ge; [|reflexivity].
    eapply div_not_nan; [reflexivity|exact Hs].
Qed.

(* --------------------------------------------------------------------- *)
(** *** The page and the filter panel *)

Lemma truthy_spec s : JsText.truthy s = true <-> s <> ""%string.
Proof.
  unfold JsText.truthy. destruct (String.eqb_spec s ""); cbn; split; congruence.
Qed.

Lemma not_blank_spec value :
  JsText.truthy value && JsText.truthy (JsText.trim value)
  = negb (String.eqb (JsText.trim value) "").
Proof.
  unfold JsText.truthy. destruct (String.eqb_spec value "") as [->|Hv]; [reflexivity|].
  reflexivity.
Qed.

Lemma omap_cons {A B} (f : A -> option B) x l :
  omap f (x :: l) = option_list (f x) ++ omap f l.
Proof.
  change (omap f (x :: l))
    with (match f x with Some y => y :: omap f l | None => omap f l end).
  destruct (f x); reflexivity.
Qed.

(** What one run of the body of the inner loop appends. *)
Lemma pushCell_cell csv m r c row header acc :
  CsvData.rows csv !! r = Some row -> CsvData.headers csv !! c = Some header ->
  pushCell m row (entityUri r) header c acc
  = acc ++ option_list (cellTriplet csv m (r, c)).
Proof.
  intros Hr Hc. unfold pushCell, cellTriplet, getProperty. rewrite Hr, Hc.
  destruct (row !! c) as [value|].
  - rewrite not_blank_spec.
    destruct (m !! header) as [mapping|].
    + destruct (String.eqb _ _); cbn; [rewrite app_nil_r|]; reflexivity.
    + destruct (includesStr Object_prototype header).
      * destruct (String.eqb _ _); cbn; [rewrite app_nil_r|]; reflexivity.
      * destruct (String.eqb _ _); cbn; rewrite app_nil_r; reflexivity.
  - destruct (m !! header) as [mapping|]; [|destruct (includesStr _ _)];
      cbn; rewrite app_nil_r; reflexivity.
Qed.

Lemma pushCell_loop csv m r row :
  CsvData.rows csv !! r = Some row ->
  forall headers j acc,
    (forall c header, headers !! c = Some header ->
                      CsvData.headers csv !! (j + c) = Some header) ->
    forEachIdx (pushCell m row (entityUri r)) headers j acc
    = acc ++ omap (fun c => cellTriplet csv m (r, c)) (seq j (length headers)).
Proof.
  intros Hr. induction headers as [|header headers IH]; intros j acc Hh;
    cbn [forEachIdx length seq].
  - cbn. rewrite app_nil_r. reflexivity.
  - rewrite (pushCell_cell csv m r j row header acc Hr).
    + rewrite IH.
      * rewrite <- app_assoc, omap_cons. reflexivity.
      * intros c hd Hc. replace (S j + c) with (j + S c) by lia. apply Hh. exact Hc.
    + rewrite <- (Nat.add_0_r j). apply Hh. reflexivity.
Qed.

Lemma pushRow_loop csv m :
  forall rows i acc,
    (forall r row, rows !! r = Some row -> CsvData.rows csv !! (i + r) = Some row) ->
    forEachIdx (pushRow m (CsvData.headers csv)) rows i acc
    = acc ++ flat_map (fun r => omap (fun c => cellTriplet csv m (r, c))
                                     (seq 0 (length (CsvData.headers csv))))
                      (seq i (length rows)).
Proof.
  induction rows as [|row rows IH]; intros i acc Hr; cbn [forEachIdx length seq flat_map].
  - rewrite app_nil_r. reflexivity.
  - rewrite IH.
    + unfold pushRow. rewrite (pushCell_loop csv m i row).
      * rewrite <- app_assoc. reflexivity.
      * rewrite <- (Nat.add_0_r i). apply Hr. reflexivity.
      * intros c header Hc. exact Hc.
    + intros r rw Hrw. replace (S i + r) with (i + S r) by lia. apply Hr. exact Hrw.
Qed.

Lemma omap_cells {B} (f : nat * nat -> option B) rows n :
  omap f (flat_map (fun r => map (pair r) (seq 0 n)) rows)
  = flat_map (fun r => omap (fun c => f (r, c)) (seq 0 n)) rows.
Proof.
  induction rows as [|r rows IH]; cbn [flat_map]; [reflexivity|].
  rewrite omap_app, IH. f_equal.
  generalize (seq 0 n). intros l. induction l as [|c l IHl]; [reflexivity|].
  cbn. rewrite <- IHl. reflexivity.
Qed.

Lemma generateTriplets_cells csv m :
  generateTriplets csv m = omap (cellTriplet csv m) (cells csv).
Proof.
  unfold generateTriplets, cells. rewrite omap_cells.
  rewrite (pushRow_loop csv m (CsvData.rows csv) 0 []); [reflexivity|].
  intros r row Hr. exact Hr.
Qed.

(** A cell that stands for a triplet, and the triplet. *)
Lemma cellTriplet_Some csv m r c t :
  cellTriplet csv m (r, c) = Some t ->
  exists row header value,
    CsvData.rows csv !! r = Some row /\ CsvData.headers csv !! c = Some header /\
    row !! c = Some value /\ JsText.trim value <> ""%string /\
    getProperty m header <> Undefined /\
    t = PageTriplet.mk (entityUri r) (rdfPropertyOf (getProperty m header)) value
                       (dataTypeOf (getProperty m header)).
Proof.
  unfold cellTriplet, getProperty.
  destruct (CsvData.rows csv !! r) as [row|] eqn:Er; [|discriminate].
  destruct (CsvData.headers csv !! c) as [header|] eqn:Ec; [|discriminate].
  destruct (row !! c) as [value|] eqn:Ev; [|discriminate].
  destruct (String.eqb_spec (JsText.trim value) "") as [|Hv]; [discriminate|].
  intros H. exists row, header, value.
  do 2 (split; [reflexivity|]). split; [exact Ev|]. split; [exact Hv|].
  destruct (m !! header) as [mapping|].
  - injection H as <-. split; [discriminate|reflexivity].
  - destruct (includesStr Object_prototype header); [|discriminate].
    injection H as <-. split; [discriminate|reflexivity].
Qed.

Lemma generateTriplets_In csv m t :
  In t (generateTriplets csv m) <-> exists r c, cellTriplet csv m (r, c) = Some t.
Proof.
  rewrite generateTriplets_cells, <- list_elem_of_In, list_elem_of_omap. split.
  - intros ([r c] & _ & H). exists r, c. exact H.
  - intros (r & c & H). exists (r, c). split; [|exact H].
    destruct (cellTriplet_Some _ _ _ _ _ H) as (row & header & _ & Hr & Hc & _).
    apply list_elem_of_In. unfold cells. apply in_flat_map. exists r. split.
    + apply in_seq. apply lookup_lt_Some in Hr. lia.
    + apply in_map, in_seq. apply lookup_lt_Some in Hc. lia.
Qed.






Lemma filterWhen_In value test l t :
  In t (filterWhen value test l) <->
  In t l /\ (value = ""%string \/ test t = true).
Proof.
  unfold filterWhen. destruct (JsText.truthy value) eqn:E.
  - apply truthy_spec in E. rewrite filter_In. tauto.
  - assert (value = ""%string).
    { destruct (String.eqb_spec value ""); [assumption|].
      unfold JsText.truthy in E. destruct (String.eqb_spec value ""); [assumption|].
      discriminate E. }
    tauto.
Qed.


Lemma fieldIs_spec field value : fieldIs field value = true <-> field = Some value.
Proof.
  unfold fieldIs. destruct field as [s|]; [|split; discriminate].
  rewrite String.eqb_eq. split; congruence.
Qed.

Lemma applyPanelFilters_In f ts t :
  In t (applyPanelFilters f ts) <-> In t ts /\ passesPanel f t.
Proof.
  unfold applyPanelFilters, passesPanel. cbv zeta.
  rewrite !filterWhen_In, !String.eqb_eq, !fieldIs_spec. tauto.
Qed.


(** X25 (the first item of the subject select).  The first item of the
    subject select of the panel has the value "all", and choosing it makes
    that value the subject to match: no generated triplet passes, the panel
    hands the graph an empty batch, and the build effect of the graph
    component returns without a change: the component keeps the graph it
    had. *)
Theorem panel_all_item_matches_no_generated_triplet csv m f st :
  applyPanelFilters (PanelFilters.updateFilter PanelFilters.Subject allItem f)
                    (generateTriplets csv m) = [] /\
  buildFromPage
    (applyPanelFilters (PanelFilters.updateFilter PanelFilters.Subject allItem f)
                       (generateTriplets csv m)) st = Some st.
Proof.
  assert (E : applyPanelFilters (PanelFilters.updateFilter PanelFilters.Subject allItem f)
                (generateTriplets csv m) = []).
  { destruct (applyPanelFilters _ _) as [|t l] eqn:E; [reflexivity|].
    assert (Hin : In t (t :: l)) by (left; reflexivity).
    rewrite <- E in Hin. apply applyPanelFilters_In in Hin as [Hin ([Hs|Hs] & _)].
    - discriminate Hs.
    - apply generateTriplets_In in Hin as (r & c & Hin).
      apply cellTriplet_Some in Hin as (? & ? & ? & _ & _ & _ & _ & _ & ->).
      discriminate Hs. }
  rewrite E. split; [reflexivity|].
  unfold buildFromPage. cbn [asTriplets]. rewrite buildEffect_empty. reflexivity.
Qed.

(* --------------------------------------------------------------------- *)
(** *** Checking a predicate again, and short names *)

Lemma includesStr_ext l l' q :
  (forall x, In x l <-> In x l') -> includesStr l q = includesStr l' q.
Proof.
  intros H. apply eq_true_iff_eq. rewrite !includesStr_In. apply H.
Qed.

Lemma heap_alike_sym (h h' : heap) :
  Forall2 Node.sameButPosition h h' -> Forall2 Node.sameButPosition h' h.
Proof.
  intros H. apply Forall2_flip. eapply Forall2_impl; [exact H|].
  intros a b Hab. apply sameButPosition_sym, Hab.
Qed.

Lemma heap_alike_trans (h1 h2 h3 : heap) :
  Forall2 Node.sameButPosition h1 h2 -> Forall2 Node.sameButPosition h2 h3 ->
  Forall2 Node.sameButPosition h1 h3.
Proof.
  intros H12. revert h3. induction H12 as [|a b h1 h2 Hab _ IH]; intros h3 H23.
  - inversion H23. constructor.
  - inversion H23 as [|b' c h2' h3' Hbc Hrest]; subst. constructor.
    + eapply sameButPosition_trans; eassumption.
    + apply IH, Hrest.
Qed.

Lemma heap_alike_type (h h' : heap) l :
  Forall2 Node.sameButPosition h h' -> Node.type <$> h !! l = Node.type <$> h' !! l.
Proof.
  intros H. destruct (h !! l) as [n|] eqn:E.
  - destruct (lookup_sameButPosition _ _ _ _ H E) as (n' & -> & (_ & _ & Ht & _)).
    cbn. rewrite Ht. reflexivity.
  - apply lookup_ge_None in E. rewrite (Forall2_length _ _ _ H) in E.
    apply lookup_ge_None in E. rewrite E. reflexivity.
Qed.

(** What the filter shows depends on the selected predicates as a set, and
    not on where the nodes are. *)
Lemma filterEffect_shown_ext st1 st2 :
  Forall2 Node.sameButPosition (heap_of st1) (heap_of st2) ->
  allNodes st1 = allNodes st2 ->
  allEdges st1 = allEdges st2 ->
  GraphFilters.set_predicates [] (filters st1)
  = GraphFilters.set_predicates [] (filters st2) ->
  (forall q, In q (GraphFilters.predicates (filters st1)) <->
             In q (GraphFilters.predicates (filters st2))) ->
  visibleNodes (filterEffect st1) = visibleNodes (filterEffect st2) /\
  visibleEdges (filterEffect st1) = visibleEdges (filterEffect st2).
Proof.
  intros Hh Hn He Hf Hp. rewrite !filterEffect_unfold. cbv zeta.
  cbn [visibleNodes visibleEdges]. rewrite Hn, He.
  rewrite (capNodes_ext _ _ _ _ _ Hh), (survivingNodes_ext _ _ _ _ _ Hh),
    (survivingEdges_ext _ _ _ _ _ Hh).
  destruct (filters st1) as [ps1 nt1 mn1 mx1 sl1 si1 cl1 lt1 cap1 term1].
  destruct (filters st2) as [ps2 nt2 mn2 mx2 sl2 si2 cl2 lt2 cap2 term2].
  cbn in Hf, Hp. injection Hf as -> -> -> -> -> -> -> -> ->.
  set (f1 := GraphFilters.mk ps1 _ _ _ _ _ _ _ _ _).
  set (f2 := GraphFilters.mk ps2 _ _ _ _ _ _ _ _ _).
  set (h := heap_of st2).
  assert (EN : forall ns, filterNodes f1 h ns = filterNodes f2 h ns) by reflexivity.
  assert (EE : forall ns es, filterEdges f1 h ns es = filterEdges f2 h ns es).
  { intros ns es. apply List.filter_ext. intros e. unfold keepEdge, f1, f2.
    cbn [GraphFilters.predicates].
    rewrite (includesStr_ext ps1 ps2 _ Hp). reflexivity. }
  assert (ES : survivingNodes f1 h (allNodes st2) (allEdges st2)
               = survivingNodes f2 h (allNodes st2) (allEdges st2)).
  { unfold survivingNodes. rewrite EN, EE. reflexivity. }
  assert (EG : survivingEdges f1 h (allNodes st2) (allEdges st2)
               = survivingEdges f2 h (allNodes st2) (allEdges st2)).
  { unfold survivingEdges. rewrite EN, EE. reflexivity. }
  rewrite ES, EG.
  change (capNodes f1 h) with (capNodes f2 h).
  split; reflexivity.
Qed.

Lemma filterEffect_heap_layout st :
  heap_of (filterEffect st)
  = applyLayout (visibleNodes (filterEffect st)) (visibleEdges (filterEffect st))
                (GraphFilters.layoutType (filters st)) (heap_of st).
Proof. rewrite filterEffect_unfold. reflexivity. Qed.

Lemma onCheckedChange_layoutType p b f :
  GraphFilters.layoutType (onCheckedChange p b f) = GraphFilters.layoutType f.
Proof. unfold onCheckedChange. destruct b; reflexivity. Qed.

Lemma recheck_same_selection p ps q :
  In p ps ->
  In q (List.filter (fun x => negb (String.eqb x p)) ps ++ [p]) <-> In q ps.
Proof.
  intros Hp. rewrite in_app_iff, filter_In. cbn [In]. split.
  - intros [[H _]|[<-|[]]]; assumption.
  - intros H. destruct (String.eqb_spec q p) as [->|Hne]; [right; left; reflexivity|].
    left. split; [exact H|reflexivity].
Qed.

(** The two filter effects that follow the two clicks. *)
Lemma recheck_filter_effects p st :
  In p (GraphFilters.predicates (filters st)) ->
  forall final,
    final = filterEffect (updateFilters (onCheckedChange p true)
              (filterEffect (updateFilters (onCheckedChange p false)
                               (filterEffect st)))) ->
    visibleNodes final = visibleNodes (filterEffect st) /\
    visibleEdges final = visibleEdges (filterEffect st) /\
    (forall l, In l (visibleNodes (filterEffect st)) ->
       heap_of final !! l = heap_of (filterEffect st) !! l) /\
    Forall2 Node.sameButPosition (heap_of (filterEffect st)) (heap_of final).
Proof.
  intros Hp final ->.
  set (s0 := filterEffect st).
  set (u1 := updateFilters (onCheckedChange p false) s0).
  set (s1 := filterEffect u1).
  set (u2 := updateFilters (onCheckedChange p true) s1).
  assert (F0 : filters s0 = filters st)
    by (unfold s0; rewrite filterEffect_unfold; reflexivity).
  assert (F1 : filters s1 = onCheckedChange p false (filters st))
    by (unfold s1; rewrite filterEffect_unfold; cbn; rewrite F0; reflexivity).
  assert (F2 : filters u2 = onCheckedChange p true (onCheckedChange p false (filters st)))
    by (unfold u2, updateFilters; cbn; rewrite F1; reflexivity).
  assert (H0 : Forall2 Node.sameButPosition (heap_of st) (heap_of s0))
    by apply filterEffect_heap.
  assert (H01 : Forall2 Node.sameButPosition (heap_of s0) (heap_of s1))
    by apply (filterEffect_heap u1).
  assert (H12 : Forall2 Node.sameButPosition (heap_of s1) (heap_of (filterEffect u2)))
    by apply (filterEffect_heap u2).
  assert (H02 : Forall2 Node.sameButPosition (heap_of s0) (heap_of (filterEffect u2)))
    by (eapply heap_alike_trans; eassumption).
  assert (Hshown : visibleNodes (filterEffect u2) = visibleNodes s0 /\
  visibleEdges (filterEffect u2) = visibleEdges s0).
  { apply filterEffect_shown_ext.
    - change (heap_of u2) with (heap_of s1). apply heap_alike_sym.
      eapply heap_alike_trans; eassumption.
    - unfold u2, s1, u1, s0. rewrite !filterEffect_unfold. reflexivity.
    - unfold u2, s1, u1, s0. rewrite !filterEffect_unfold. reflexivity.
    - rewrite F2. destruct (filters st). reflexivity.
    - intros q. rewrite F2. unfold onCheckedChange.
      cbn [GraphFilters.predicates GraphFilters.set_predicates].
      apply recheck_same_selection, Hp. }
  destruct Hshown as [EN EE].
  split; [exact EN|]. split; [exact EE|]. split; [|exact H02].
  intros l Hl.
  pose proof (filterEffect_heap_layout u2) as L2. rewrite EN, EE, F2 in L2.
  rewrite !onCheckedChange_layoutType in L2.
  pose proof (filterEffect_heap_layout st) as L0. fold s0 in L0.
  pose proof (filterEffect_heap_layout u1) as L1. fold s1 in L1.
  change (filters u1) with (onCheckedChange p false (filters s0)) in L1.
  rewrite onCheckedChange_layoutType, F0 in L1.
  change (heap_of u1) with (heap_of s0) in L1.
  change (heap_of u2) with (heap_of s1) in L2.
  destruct (isForce (GraphFilters.layoutType (filters st))) eqn:Hlt.
  - destruct (GraphFilters.layoutType (filters st)); try discriminate Hlt.
    cbn [applyLayout] in L0, L1, L2. rewrite L2, L1. reflexivity.
  - assert (Hpos : position <$> heap_of (filterEffect u2) !! l
                   = position <$> heap_of s0 !! l).
    { rewrite L2, L0. apply applyLayout_position_ext; [exact Hlt| |exact Hl].
      intros l'. apply heap_alike_type, heap_alike_sym.
      eapply heap_alike_trans; eassumption. }
    destruct (heap_of s0 !! l) as [n|] eqn:E.
    + destruct (lookup_sameButPosition _ _ _ _ H02 E) as (n' & E' & Hs).
      rewrite E' in Hpos |- *. cbn in Hpos. f_equal. symmetry.
      apply sameButPosition_eq; [exact Hs|]. congruence.
    + destruct (heap_of (filterEffect u2) !! l); [discriminate Hpos|reflexivity].
Qed.

Lemma runForceSimulation_off st :
  isForce (GraphFilters.layoutType (filters st)) && isAnimating st = false ->
  runForceSimulation st = st.
Proof.
  intros H. unfold runForceSimulation.
  destruct (isForce _), (isAnimating st); try discriminate H; reflexivity.
Qed.

Lemma afterClick_off p b st :
  isForce (GraphFilters.layoutType (filters st)) && isAnimating st = false ->
  afterClick (onCheckedChange p b) st
  = filterEffect (updateFilters (onCheckedChange p b) st) /\
  isForce (GraphFilters.layoutType (filters (afterClick (onCheckedChange p b) st)))
  && isAnimating (afterClick (onCheckedChange p b) st) = false.
Proof.
  intros H.
  assert (H' : isForce (GraphFilters.layoutType
                          (filters (filterEffect (updateFilters (onCheckedChange p b) st))))
               && isAnimating (filterEffect (updateFilters (onCheckedChange p b) st))
               = false).
  { rewrite filterEffect_unfold. cbn [filters isAnimating updateFilters withFilters].
    rewrite onCheckedChange_layoutType. exact H. }
  unfold afterClick. rewrite (runForceSimulation_off _ H'). split; [reflexivity|exact H'].
Qed.

(** X26 (checking again).  The filter has run and shows a view, and the
    force simulation is not running (the layout is a static one, or the
    animation is off).  A selected predicate is unchecked and checked again;
    after each of the two clicks the filter effect runs, and then the
    animation effect, which does nothing here.  Then the filter shows the
    same nodes and the same edges as before, although the predicate now
    stands last in the selection; every shown node is as it was, position
    included; and a node that is not shown is as it was in all but its
    position, which can be the one the layout gave it while the predicate
    was unchecked. *)
Theorem recheck_restores_view p st :
  In p (GraphFilters.predicates (filters st)) ->
  isForce (GraphFilters.layoutType (filters st)) && isAnimating st = false ->
  visibleNodes (uncheckThenCheck p (filterEffect st)) = visibleNodes (filterEffect st) /\
  visibleEdges (uncheckThenCheck p (filterEffect st)) = visibleEdges (filterEffect st) /\
  (forall l, In l (visibleNodes (filterEffect st)) ->
     heap_of (uncheckThenCheck p (filterEffect st)) !! l
     = heap_of (filterEffect st) !! l) /\
  Forall2 Node.sameButPosition (heap_of (filterEffect st))
          (heap_of (uncheckThenCheck p (filterEffect st))).
Proof.
  intros Hp Hoff.
  assert (H0 : isForce (GraphFilters.layoutType (filters (filterEffect st)))
               && isAnimating (filterEffect st) = false).
  { rewrite filterEffect_unfold. exact Hoff. }
  unfold uncheckThenCheck.
  destruct (afterClick_off p false (filterEffect st) H0) as [E1 H1].
  destruct (afterClick_off p true _ H1) as [E2 _].
  apply (recheck_filter_effects p st Hp). rewrite E2, E1. reflexivity.
Qed.

Lemma split_last_no_sep sep s :
  forall seg, JsString.pop (JsString.split sep s) = Some seg ->
              ~ JsString.contains sep seg.
Proof.
  induction s as [|c s IH]; intros seg; cbn [JsString.split].
  - intros [= <-]. apply contains_empty.
  - destruct (Ascii.eqb_spec c sep) as [->|Hne].
    + change (EmptyString :: JsString.split sep s)
        with ([EmptyString] ++ JsString.split sep s).
      rewrite pop_app by apply split_nonempty. apply IH.
    + destruct (JsString.split sep s) as [|h t] eqn:E;
        [destruct (split_nonempty _ _ E)|].
      destruct t as [|h' t].
      * intros [= <-]. rewrite contains_cons. intros [H|H]; [congruence|].
        exact (IH h eq_refl H).
      * change (String c h :: h' :: t) with ([String c h] ++ h' :: t).
        rewrite pop_app by discriminate. intros H. apply IH.
        change (h :: h' :: t) with ([h] ++ h' :: t).
        rewrite pop_app by discriminate. exact H.
Qed.

Lemma startsWith_app p s : JsString.startsWith p s = true -> exists r, s = (p ++ r)%string.
Proof.
  revert s. induction p as [|a p IH]; intros s; cbn [JsString.startsWith].
  - exists s. reflexivity.
  - destruct s as [|b s]; [discriminate|].
    intros H. apply andb_true_iff in H as [Hab H].
    apply Ascii.eqb_eq in Hab. subst b. destruct (IH s H) as [r ->].
    exists r. reflexivity.
Qed.

Lemma uriShaped_contains s : uriShaped s = true -> JsString.contains "/" s.
Proof.
  unfold uriShaped. intros H. apply orb_true_iff in H as [H|H];
    apply startsWith_app in H as [r ->].
  - exists "http:"%string, ("/" ++ r)%string. reflexivity.
  - exists "https:"%string, ("/" ++ r)%string. reflexivity.
Qed.

(** X27 (short names).  [shortenUri] gives back its argument or a text
    without any "/", it gives the empty text for the empty text only, and
    shortening twice is shortening once. *)
Theorem shortenUri_shortens_once uri :
  (shortenUri uri = uri \/ ~ JsString.contains "/" (shortenUri uri)) /\
  (shortenUri uri = ""%string -> uri = ""%string) /\
  shortenUri (shortenUri uri) = shortenUri uri.
Proof.
  assert (Hcases : shortenUri uri = uri \/
                   (shortenUri uri <> ""%string /\
                    ~ JsString.contains "/" (shortenUri uri))).
  { unfold shortenUri. destruct (uriShaped uri); [|left; reflexivity].
    destruct (JsString.pop (JsString.split "/" uri)) as [seg|] eqn:Hseg;
      [|left; reflexivity].
    destruct seg as [|c seg]; [left; reflexivity|].
    right. cbn [JsString.orElse]. split; [discriminate|].
    exact (split_last_no_sep _ _ _ Hseg). }
  destruct Hcases as [E|[Hne Hno]].
  - split; [left; exact E|]. split; [intros H; rewrite <- E; exact H|].
    rewrite E. exact E.
  - split; [right; exact Hno|]. split; [intros H; contradiction|].
    unfold shortenUri at 1.
    destruct (uriShaped (shortenUri uri)) eqn:Hs; [|reflexivity].
    destruct (Hno (uriShaped_contains _ Hs)).
Qed.

(* --------------------------------------------------------------------- *)
(** *** A rebuild depends on the batch only *)

Lemma mapped_addNode key lab ty c pending b :
  builderInv pending b ->
  mapped (addNode key lab ty c b)
  = if NodeMap.has (nodeMap b) key then mapped b
    else mapped b
         ++ [(key, Some (Node.mk key lab ty
                           (Math_random (b_draws b) * 400)%float
                           (Math_random (S (b_draws b)) * 400)%float
                           None None 0 true (Some c)))].
Proof.
  intros (_ & _ & Hn & _). unfold addNode.
  destruct (NodeMap.has (nodeMap b) key) eqn:Hhas; [reflexivity|].
  unfold mapped. cbn [nodeMap b_heap]. unfold NodeMap.set. rewrite Hhas.
  rewrite map_app. cbn [map fst snd]. f_equal.
  - apply map_ext_in. intros [k l] Hin. cbn [fst snd].
    destruct (Hn k l Hin) as (n & Hlk & _).
    rewrite (lookup_app_l_Some _ _ _ _ Hlk), Hlk. reflexivity.
  - rewrite lookup_app_r by lia. rewrite Nat.sub_diag. reflexivity.
Qed.

Lemma mapped_increment key pending b :
  builderInv pending b ->
  In key (map fst (nodeMap b)) ->
  mapped (increment key b)
  = map (fun x => if String.eqb (fst x) key
                  then (fst x,
                        (fun n => Node.set_connections (Node.connections n + 1) n)
                          <$> snd x)
                  else x)
        (mapped b).
Proof.
  intros (Hk & Hl & Hn & _) Hin.
  destruct (NodeMap_get_Some _ _ Hin) as [l Hget].
  unfold increment. rewrite Hget.
  pose proof (NodeMap_get_In _ _ _ Hget) as Hkl.
  unfold mapped. cbn [nodeMap b_heap]. rewrite map_map.
  apply map_ext_in. intros [k' l'] Hin'. cbn [fst snd].
  destruct (String.eqb_spec k' key) as [->|Hne].
  - assert (l' = l) by exact (NoDup_fst_inj _ _ _ _ Hk Hin' Hkl). subst l'.
    rewrite list_lookup_alter_eq. reflexivity.
  - rewrite list_lookup_alter_ne; [reflexivity|].
    intros ->. apply Hne. exact (NoDup_snd_inj _ _ _ _ Hl Hin' Hkl).
Qed.

Lemma alike_keys l1 l2 : Forall2 alike l1 l2 -> map fst l1 = map fst l2.
Proof.
  induction 1 as [|x y l1 l2 [Hxy _] _ IH]; [reflexivity|].
  cbn. rewrite Hxy, IH. reflexivity.
Qed.

Lemma mapped_keys b : map fst (mapped b) = map fst (nodeMap b).
Proof. unfold mapped. rewrite map_map. reflexivity. Qed.

Lemma has_keys m1 m2 key :
  map fst m1 = map fst m2 -> NodeMap.has m1 key = NodeMap.has m2 key.
Proof.
  intros H. apply eq_true_iff_eq. rewrite !NodeMap_has_In, H. reflexivity.
Qed.

Lemma alike_addNode key lab ty c p1 p2 b1 b2 :
  builderInv p1 b1 -> builderInv p2 b2 ->
  Forall2 alike (mapped b1) (mapped b2) ->
  Forall2 alike (mapped (addNode key lab ty c b1)) (mapped (addNode key lab ty c b2)).
Proof.
  intros H1 H2 H.
  rewrite (mapped_addNode _ _ _ _ _ _ H1), (mapped_addNode _ _ _ _ _ _ H2).
  pose proof (alike_keys _ _ H) as Hk. rewrite !mapped_keys in Hk.
  rewrite (has_keys _ _ key Hk).
  destruct (NodeMap.has (nodeMap b2) key); [exact H|].
  apply Forall2_app; [exact H|]. constructor; [|constructor].
  split; [reflexivity|]. cbn. repeat split.
Qed.

Lemma alike_increment key p1 p2 b1 b2 :
  builderInv p1 b1 -> builderInv p2 b2 ->
  In key (map fst (nodeMap b1)) ->
  Forall2 alike (mapped b1) (mapped b2) ->
  Forall2 alike (mapped (increment key b1)) (mapped (increment key b2)).
Proof.
  intros H1 H2 Hin H.
  pose proof (alike_keys _ _ H) as Hk. rewrite !mapped_keys in Hk.
  rewrite (mapped_increment _ _ _ H1 Hin).
  rewrite (mapped_increment _ _ _ H2) by (rewrite <- Hk; exact Hin).
  clear -H. induction H as [|x y l1 l2 [Hxy Hs] _ IH]; [constructor|].
  cbn [map]. constructor; [|exact IH].
  rewrite Hxy. destruct (String.eqb (fst y) key); [|split; assumption].
  split; [reflexivity|]. cbn [snd].
  destruct (snd x) as [a|], (snd y) as [b|]; try contradiction. cbn.
  unfold Node.sameButPosition in *. cbn.
  destruct Hs as (? & ? & ? & ? & ? & Hc & ? & ?). rewrite Hc. repeat split; assumption.
Qed.

Lemma alike_buildStep t i b1 b2 :
  builderInv (fun _ => 0%Z) b1 -> builderInv (fun _ => 0%Z) b2 ->
  Forall2 alike (mapped b1) (mapped b2) ->
  Forall2 alike (mapped (buildStep t i b1)) (mapped (buildStep t i b2)).
Proof.
  intros H1 H2 H. unfold buildStep.
  change (mapped (pushEdge ?e ?b)) with (mapped b).
  set (a1 := addPredicate (Triplet.predicate t) b1).
  set (a2 := addPredicate (Triplet.predicate t) b2).
  set (s1 := addNode (Triplet.subject t) (subjectLabel (Triplet.subject t)) subject
               (Triplet.predicate t) a1).
  set (s2 := addNode (Triplet.subject t) (subjectLabel (Triplet.subject t)) subject
               (Triplet.predicate t) a2).
  set (o1 := addNode (objectId t i) (objectLabel (Triplet.object t)) object
               (Triplet.predicate t) s1).
  set (o2 := addNode (objectId t i) (objectLabel (Triplet.object t)) object
               (Triplet.predicate t) s2).
  assert (A1 : builderInv (fun _ => 0%Z) a1) by exact H1.
  assert (A2 : builderInv (fun _ => 0%Z) a2) by exact H2.
  assert (H0 : Forall2 alike (mapped a1) (mapped a2)) by exact H.
  destruct (addNode_inv (Triplet.subject t) (subjectLabel (Triplet.subject t)) subject
              (Triplet.predicate t) a1 A1) as [B1 S1].
  destruct (addNode_inv (Triplet.subject t) (subjectLabel (Triplet.subject t)) subject
              (Triplet.predicate t) a2 A2) as [B2 _].
  fold s1 in B1, S1. fold s2 in B2.
  assert (Hs : Forall2 alike (mapped s1) (mapped s2))
    by exact (alike_addNode _ _ _ _ _ _ a1 a2 A1 A2 H0).
  destruct (addNode_inv (objectId t i) (objectLabel (Triplet.object t)) object
              (Triplet.predicate t) s1 B1) as [C1 O1].
  destruct (addNode_inv (objectId t i) (objectLabel (Triplet.object t)) object
              (Triplet.predicate t) s2 B2) as [C2 _].
  fold o1 in C1, O1. fold o2 in C2.
  assert (Ho : Forall2 alike (mapped o1) (mapped o2))
    by exact (alike_addNode _ _ _ _ _ _ s1 s2 B1 B2 Hs).
  assert (S1' : In (Triplet.subject t) (map fst (nodeMap o1))).
  { unfold o1. rewrite addNode_nodeMap.
    destruct (NodeMap.has _ _); [exact S1|].
    rewrite map_app. apply in_or_app. left. exact S1. }
  assert (S2' : In (Triplet.subject t) (map fst (nodeMap o2))).
  { pose proof (alike_keys _ _ Ho) as Hk. rewrite !mapped_keys in Hk.
    rewrite <- Hk. exact S1'. }
  pose proof (alike_increment (Triplet.subject t) _ _ o1 o2 C1 C2 S1' Ho) as Hi.
  pose proof (increment_inv _ (Triplet.subject t) o1 C1 S1') as D1.
  pose proof (increment_inv _ (Triplet.subject t) o2 C2 S2') as D2.
  apply (alike_increment (objectId t i) _ _ _ _ D1 D2); [|exact Hi].
  rewrite increment_nodeMap. exact O1.
Qed.

Lemma alike_forEachIdx ts :
  forall i b1 b2,
    builderInv (fun _ => 0%Z) b1 -> builderInv (fun _ => 0%Z) b2 ->
    Forall2 alike (mapped b1) (mapped b2) ->
    Forall2 alike (mapped (forEachIdx buildStep ts i b1))
                  (mapped (forEachIdx buildStep ts i b2)).
Proof.
  induction ts as [|t ts IH]; intros i b1 b2 H1 H2 H; cbn [forEachIdx]; [exact H|].
  apply IH; auto using buildStep_inv, alike_buildStep.
Qed.

Lemma predicateSet_forEachIdx ts :
  forall i j b1 b2,
    predicateSet b1 = predicateSet b2 ->
    predicateSet (forEachIdx buildStep ts i b1)
    = predicateSet (forEachIdx buildStep ts j b2).
Proof.
  induction ts as [|t ts IH]; intros i j b1 b2 H; cbn [forEachIdx]; [exact H|].
  apply IH. rewrite !buildStep_predicateSet, H. reflexivity.
Qed.

(** X28 (a rebuild depends on the batch only).  The graph the builder makes
    of a non-empty batch is the same from whatever state it starts, except
    for the random positions and for where the nodes lie in the store: the
    same edges, the same predicates, and node by node the same id, label,
    type, connections and cluster. *)
Theorem rebuild_depends_on_batch_only ts st1 st2 :
  ts <> [] ->
  allEdges (buildEffect ts st1) = allEdges (buildEffect ts st2) /\
  availablePredicates (buildEffect ts st1) = availablePredicates (buildEffect ts st2) /\
  Forall2 (fun l1 l2 =>
             exists n1 n2,
               heap_of (buildEffect ts st1) !! l1 = Some n1 /\
               heap_of (buildEffect ts st2) !! l2 = Some n2 /\
               Node.sameButPosition n1 n2)
          (allNodes (buildEffect ts st1)) (allNodes (buildEffect ts st2)).
Proof.
  intros Hne. rewrite !(buildEffect_nonempty ts _ Hne).
  cbn [allEdges availablePredicates allNodes heap_of].
  split; [rewrite !buildGraph_edgeList; reflexivity|].
  split; [apply predicateSet_forEachIdx; reflexivity|].
  pose proof (alike_forEachIdx ts 0 _ _
                (builderInv_start (heap_of st1) (draws st1))
                (builderInv_start (heap_of st2) (draws st2))
                ltac:(constructor)) as H.
  fold (buildGraph ts (heap_of st1) (draws st1)) in H.
  fold (buildGraph ts (heap_of st2) (draws st2)) in H.
  unfold mapped in H. unfold NodeMap.values.
  change (map ?f ?l) with (f <$> l) in *.
  rewrite Forall2_fmap in H. rewrite Forall2_fmap.
  eapply Forall2_impl; [exact H|].
  intros [k1 l1] [k2 l2] [_ Hs]. cbn in *.
  destruct (b_heap _ !! l1) as [n1|]; [|contradiction].
  destruct (b_heap _ !! l2) as [n2|]; [|contradiction].
  exists n1, n2. auto.
Qed.

End Facts.

(* ===================================================================== *)
(** ** The theorems on the concrete inputs *)

(** The JavaScript operations on small inputs. *)
Example split_trailing_slash :
  JsString.split "/" "http://a/b/" = ["http:"; ""; "a"; "b"; ""]%string.
Proof. reflexivity. Qed.

Example edgeLabel_samples :
  map edgeLabel ["http://example.org/knows"; "knows"; "a/b"; "http://example.org/"; ""]%string
  = ["knows"; "knows"; "b"; "http://example.org/"; ""]%string.
Proof. reflexivity. Qed.

Example objectId_sample :
  objectId (Triplet.mk "s" "p" "value" None) 12 = "value_12"%string.
Proof. reflexivity. Qed.

Example min_max_samples :
  (JsNumber.Math_min 380 400 = 380 /\ JsNumber.Math_max 20 (-3) = 20 /\
   is_nan (JsNumber.Math_max 20 (JsNumber.Math_min 380 nan)) = true /\
   clamp infinity = 380 /\ clamp neg_infinity = 20 /\ clamp 123.5 = 123.5)%float.
Proof. repeat split. Qed.

Example slice0_samples :
  slice0 2 [1; 2; 3] = [1; 2] /\ slice0 5 [1; 2; 3] = [1; 2; 3] /\
  slice0 (-1) [1; 2; 3] = [1; 2].
Proof. repeat split. Qed.

Example sort_is_stable :
  sort (fun a b : Z * string => (fst b - fst a)%Z)
       [(1, "a"); (3, "b"); (1, "c"); (3, "d"); (2, "e")]%string%Z
  = [(3, "b"); (3, "d"); (2, "e"); (1, "a"); (1, "c")]%string%Z.
Proof. reflexivity. Qed.

(** The scenario of the specification: two subject nodes, three object nodes,
    three edges, [A] with two connections and [B] with one. *)
Example scenario_graph :
  length (allNodes built) = 5 /\ length (allEdges built) = 3 /\
  map (fun n => (Node.id n, Node.connections n)) (heap_of built)
  = [("A", 2); ("x_0", 1);
     ("an object literal of more than twenty characters_1", 1);
     ("B", 1); ("x_2", 1)]%string%Z.
Proof. repeat split. Qed.

Lemma filter_no_dangling_edges_witness :
  idPresent (heap_of (shownOn grid 3)) (visibleNodes (shownOn grid 3)) "A" /\
  idPresent (heap_of (shownOn grid 3)) (visibleNodes (shownOn grid 3)) "x_0".
Proof.
  apply (filter_no_dangling_edges (platform := Sample.platform)
           (withFilters (criteria grid 3) built)
           (Edge.mk "A" "x_0" "p1" "http://example.org/p1" true 1)).
  vm_compute. left. reflexivity.
Defined.

Lemma filter_node_cap_witness :
  length (visibleNodes (shownOn grid 3)) = 3 /\
  visibleNodes (shownOn grid 3) = [0; 1; 2].
Proof.
  assert (H : (0 <= GraphFilters.maxNodes (filters (withFilters (criteria grid 3) built)))%Z)
    by (vm_compute; discriminate).
  pose proof (filter_node_cap (platform := Sample.platform)
                (withFilters (criteria grid 3) built) H) as Hall.
  cbv zeta in Hall. destruct Hall as [_ [_ Hcap]].
  split; [|reflexivity].
  assert (Hlt : Z.to_nat (GraphFilters.maxNodes (filters (withFilters (criteria grid 3) built)))
                < length (survivingNodes
                            (filters (withFilters (criteria grid 3) built))
                            (heap_of (withFilters (criteria grid 3) built))
                            (allNodes (withFilters (criteria grid 3) built))
                            (allEdges (withFilters (criteria grid 3) built))))
    by (vm_compute; lia).
  destruct (Hcap Hlt) as [Hlen _]. exact Hlen.
Defined.

Lemma static_layouts_deterministic_witness :
  exists n', applyLayout (platform := Sample.platform) [0; 1; 2; 3] [] circular
               (heap_of built) !! 1
             = Some n' /\
    Node.x n' = (200 + 150 * Sample.cos (2 * JsNumber.Math_PI * 1 / 4))%float /\
    Node.y n' = (200 + 150 * Sample.sin (2 * JsNumber.Math_PI * 1 / 4))%float.
Proof.
  destruct (static_layouts_deterministic (platform := Sample.platform) [0; 1; 2; 3] [])
    as (_ & _ & Hcirc).
  refine (Hcirc (heap_of built) 1 1 _ _ eq_refl eq_refl).
  apply (bool_decide_unpack _). vm_compute. exact I.
Defined.

Lemma force_tick_stays_in_canvas_witness :
  exists n',
    heap_of (runForceSimulation (withAnimation true (shownOn force 50))) !! 0 = Some n' /\
    JsNumber.inRange 20 380 (Node.x n') = true /\
    JsNumber.inRange 20 380 (Node.y n') = true /\
    is_finite (Node.x n') = true /\ is_finite (Node.y n') = true.
Proof.
  eexists. split; [vm_compute; reflexivity|].
  refine (proj1 (force_tick_stays_in_canvas
                   (withAnimation true (shownOn force 50)) eq_refl eq_refl _)
                0 _ _ _).
  - intros l n Hin Hl. vm_compute in Hin.
    repeat (destruct Hin as [<-|Hin];
            [vm_compute in Hl; injection Hl as <-; split; reflexivity|]).
    destruct Hin.
  - vm_compute. left. reflexivity.
  - vm_compute. reflexivity.
Defined.

Lemma zoom_round_trip_witness :
  is_finite (scale (Nat.iter 6 zoomOut (Nat.iter 6 zoomIn initialState))) = true /\
  (Qabs (valueOf (scale (Nat.iter 6 zoomOut (Nat.iter 6 zoomIn initialState)))
         - valueOf (scale initialState)) <= 1 # 1000000000000)%Q.
Proof.
  exact (zoom_round_trip initialState 6 ltac:(vm_compute; discriminate)
           ltac:(vm_compute; discriminate)).
Defined.

Lemma edge_label_and_key_witness :
  exists e, allEdges built !! 0 = Some e /\
    Edge.predicate e = "http://example.org/p1"%string /\
    Edge.label e = "p1"%string.
Proof.
  destruct (edge_label_and_key (platform := Sample.platform) scenario initialState 0
              (Triplet.mk "A" "http://example.org/p1" "x" None) eq_refl)
    as (e & He & Hp & _ & Hseg).
  exists e. split; [exact He|]. split; [exact Hp|].
  apply (Hseg "http://example.org"%string "p1"%string eq_refl).
  intros Hc. repeat (apply contains_cons in Hc as [Hc|Hc]; [discriminate|]).
  revert Hc. apply contains_empty.
Defined.

Lemma object_node_label_witness :
  exists n, heap_of built !! 2 = Some n /\
    Node.label n = "an object literal of..."%string /\
    String.length (Node.label n) <= 23.
Proof.
  eexists. split; [reflexivity|].
  destruct (object_node_label (platform := Sample.platform) scenario initialState 1
              (Triplet.mk "A" "p2" "an object literal of more than twenty characters" None)
              eq_refl 2 _ ltac:(vm_compute; auto) eq_refl eq_refl eq_refl)
    as (_ & Hlong & Hlen).
  split; [|exact Hlen].
  rewrite Hlong; [reflexivity|]. vm_compute. lia.
Defined.

(** The claim of C3 as it is written fails: with the grid layout the filter
    moves the shared node objects of [allNodes]. *)
Lemma filter_moves_shared_nodes :
  ~ (forall st, heap_of (filterEffect (platform := Sample.platform) st) = heap_of st).
Proof.
  intros H. specialize (H (withFilters (criteria grid 50) built)).
  apply (f_equal (fun h => match h !! 0 with
                           | Some n => PrimFloat.eqb (Node.x n) 50
                           | None => false
                           end)) in H.
  vm_compute in H. discriminate.
Qed.

(** The claim of C8 as it is written fails: seven zoom-in steps from the
    initial scale 1 stop at the bound 3, and seven zoom-out steps then end
    near 0.837, which no tolerance of rounding covers. *)
Lemma zoom_round_trip_fails_at_bound :
  ~ (forall st (k : nat),
       (valueOf 0.3 <= valueOf (scale st))%Q -> (valueOf (scale st) <= 3)%Q ->
       (Qabs (valueOf (scale (Nat.iter k zoomOut (Nat.iter k zoomIn st)))
              - valueOf (scale st)) <= 1 # 1000)%Q)
  /\ (scale (Nat.iter 7 zoomOut (Nat.iter 7 zoomIn initialState)) <? 0.84)%float = true.
Proof.
  split; [|reflexivity].
  intros H. specialize (H initialState 7%nat ltac:(vm_compute; discriminate)
                          ltac:(vm_compute; discriminate)).
  vm_compute in H. apply H. reflexivity.
Qed.

(** The claim of C9 as it is written fails for both readings of "URI-shaped":
    with the test of [shortenUri], ["a/b"] is not a URI and is shortened all
    the same; with "has a ['/']", a predicate that ends in ['/'] is shown in
    full although the text after its last ['/'] is empty. *)
Lemma edge_label_ignores_uri_shape :
  ~ labelFollowsShape uriShaped /\ ~ labelFollowsShape (JsString.hasChar "/").
Proof.
  split; intros H.
  - specialize (H (Triplet.mk "s" "a/b" "o" None) 0). discriminate.
  - specialize (H (Triplet.mk "s" "http://example.org/vocab/" "o" None) 0).
    discriminate.
Qed.

(* ===================================================================== *)
(** ** The further theorems on the concrete inputs *)

(** The triplets of the sample CSV: the column [note] is not mapped, the
    blank city of the second row and the missing cell of the third give
    nothing. *)
Example sampleTriplets_value :
  map (fun t => (PageTriplet.subject t, PageTriplet.object t)) sampleTriplets
  = [("http://example.org/entity_1", "Ana"); ("http://example.org/entity_1", "Quito");
     ("http://example.org/entity_2", "Luis");
     ("http://example.org/entity_3", "Eva"); ("http://example.org/entity_3", "Loja")]%string.
Proof. vm_compute. reflexivity. Qed.

(** A column that is not mapped and has the name of a member of
    [Object.prototype]: its cell gives a triplet without predicate, and the
    build effect throws on it. *)
Example unmapped_constructor_column :
  generateTriplets (CsvData.mk ["constructor"%string] [["x"%string]]) ∅
  = [PageTriplet.mk "http://example.org/entity_1" None "x" None] /\
  buildFromPage (platform := Sample.platform)
    (generateTriplets (CsvData.mk ["constructor"%string] [["x"%string]]) ∅)
    initialState = None.
Proof. split; vm_compute; reflexivity. Qed.

(** Accented capitals have lower-case letters too: code unit 193 becomes
    225, and a text with the one contains, case ignored, a term with the
    other. *)
Example toLowerCase_accented :
  JsString.toLowerCase (String "B" (String "193" ""))
  = String "b" (String "225" "") /\
  containsIgnoringCase ("Bogot" ++ String "225" "") ("BOGOT" ++ String "193" "")
  = true.
Proof. split; reflexivity. Qed.

(** Why checking again restores the shown nodes only.  Of the five nodes
    of the scenario three are shown, 0, 1 and 2; while the predicate "p2" is
    unchecked node 3 is shown in place of node 2 and gets the third cell of
    the grid; checked again, node 3 is hidden and stays there. *)
Example recheck_leaves_a_hidden_node_moved :
  visibleNodes (filterEffect (platform := Sample.platform) cappedConnected) = [0; 1; 2] /\
  visibleNodes
    (filterEffect (platform := Sample.platform)
       (updateFilters (onCheckedChange "p2" false)
          (filterEffect (platform := Sample.platform) cappedConnected)))
  = [0; 1; 3] /\
  position <$> heap_of (filterEffect (platform := Sample.platform) cappedConnected) !! 3
  = Some (256.25, 87.5)%float /\
  position <$> heap_of (uncheckThenCheck (platform := Sample.platform) "p2"
                          (filterEffect (platform := Sample.platform) cappedConnected))
               !! 3
  = Some (50, 130)%float.
Proof. repeat split; vm_compute; reflexivity. Qed.

Lemma builder_counts_incident_edges_witness :
  exists n, heap_of built !! 0 = Some n /\
            Node.connections n = incidence (Node.id n) (allEdges built).
Proof.
  apply (builder_counts_incident_edges (platform := Sample.platform)
           scenario initialState 0).
  - discriminate.
  - vm_compute. left. reflexivity.
Defined.

Lemma builder_edges_end_at_nodes_witness :
  idPresent (heap_of built) (allNodes built) "B" /\
  idPresent (heap_of built) (allNodes built) "x_2".
Proof.
  apply (builder_edges_end_at_nodes (platform := Sample.platform)
           scenario initialState
           (Edge.mk "B" "x_2" "p1" "http://example.org/p1" true 1)).
  - discriminate.
  - vm_compute. right. right. left. reflexivity.
Defined.

Lemma builder_handshake_witness :
  totalConnections (heap_of built) (allNodes built)
  = (2 * Z.of_nat (length (allEdges built)))%Z.
Proof.
  apply (builder_handshake (platform := Sample.platform) scenario initialState).
  discriminate.
Defined.

Lemma builder_node_ids_unique_witness :
  ("A" <> "x_0")%string.
Proof.
  apply (builder_node_ids_unique (platform := Sample.platform) scenario initialState
           0 1 0 1
           (Node.mk "A" "A" subject (Sample.random 0 * 400) (Sample.random 1 * 400)
                    None None 2 true (Some "http://example.org/p1"))
           (Node.mk "x_0" "x" object (Sample.random 2 * 400) (Sample.random 3 * 400)
                    None None 1 true (Some "http://example.org/p1")));
    try reflexivity; discriminate.
Defined.

Lemma builder_selects_all_predicates_witness :
  GraphFilters.predicates (filters built) = availablePredicates built /\
  availablePredicates built = ["http://example.org/p1"; "p2"]%string.
Proof.
  destruct (builder_selects_all_predicates (platform := Sample.platform)
              scenario initialState ltac:(discriminate)) as (H & _).
  split; [exact H|reflexivity].
Defined.


Lemma default_view_shows_whole_graph_witness :
  visibleNodes (filterEffect (platform := Sample.platform) built) = allNodes built /\
  visibleEdges (filterEffect (platform := Sample.platform) built) = allEdges built.
Proof.
  apply (default_view_shows_whole_graph (platform := Sample.platform)
           scenario initialState).
  - discriminate.
  - reflexivity.
  - vm_compute. lia.
Defined.

Lemma filter_hides_isolated_nodes_witness :
  exists n e,
    heap_of (filterEffect (platform := Sample.platform) connectedOnly) !! 0 = Some n /\
    In e (visibleEdges (filterEffect (platform := Sample.platform) connectedOnly)) /\
    (Edge.source e = Node.id n \/ Edge.target e = Node.id n).
Proof.
  apply (filter_hides_isolated_nodes (platform := Sample.platform) connectedOnly 0).
  - reflexivity.
  - vm_compute. discriminate.
  - vm_compute. left. reflexivity.
Defined.

Lemma static_layout_forgets_previous_witness :
  applyLayout (platform := Sample.platform) [0; 1; 2] [] grid
    (applyLayout (platform := Sample.platform) [0; 1; 2] [] circular (heap_of built))
  = applyLayout (platform := Sample.platform) [0; 1; 2] [] grid (heap_of built).
Proof.
  apply (static_layout_forgets_previous (platform := Sample.platform)
           [0; 1; 2] [] circular grid (heap_of built)).
  reflexivity.
Defined.

Lemma grid_layout_cells_witness :
  exists n', applyLayout (platform := Sample.platform) [0; 1; 2; 3; 4] [] grid
               (heap_of built) !! 3 = Some n' /\
             Node.x n' = 50%float /\ Node.y n' = 130%float.
Proof.
  destruct (grid_layout_cells (platform := Sample.platform) [0; 1; 2; 3; 4] []
              (heap_of built) 3 3
              (Node.mk "B" "B" subject (Sample.random 6 * 400) (Sample.random 7 * 400)
                       None None 1 true (Some "http://example.org/p1")))
    as (n' & Hn' & Hx & Hy & _).
  - apply (bool_decide_unpack _). vm_compute. exact I.
  - reflexivity.
  - reflexivity.
  - exists n'. split; [exact Hn'|]. split; [rewrite Hx|rewrite Hy]; reflexivity.
Defined.

Lemma hierarchical_layout_bands_witness :
  exists n', applyLayout (platform := Sample.platform) [0; 1; 2; 3; 4] []
               hierarchical (heap_of built) !! 2 = Some n' /\
             Node.x n' = 150%float /\ Node.y n' = 300%float.
Proof.
  destruct (hierarchical_layout_bands (platform := Sample.platform) [0; 1; 2; 3; 4] []
              (heap_of built) object 1 2
              (Node.mk "an object literal of more than twenty characters_1"
                       "an object literal of..." object
                       (Sample.random 4 * 400) (Sample.random 5 * 400)
                       None None 1 true (Some "p2")))
    as ((n' & Hn' & Hx & Hy) & _).
  - apply (bool_decide_unpack _). vm_compute. exact I.
  - reflexivity.
  - reflexivity.
  - exists n'. split; [exact Hn'|]. split; [rewrite Hx|rewrite Hy]; reflexivity.
Defined.

Lemma force_simulation_stays_in_canvas_witness :
  exists n',
    heap_of (Nat.iter 3 runForceSimulation (withAnimation true (shownOn force 50))) !! 0
    = Some n' /\
    JsNumber.inRange 20 380 (Node.x n') = true /\
    JsNumber.inRange 20 380 (Node.y n') = true.
Proof.
  eexists. split; [vm_compute; reflexivity|].
  refine (force_simulation_stays_in_canvas
            (withAnimation true (shownOn force 50)) 2 eq_refl eq_refl _ 0 _ _ _).
  - intros l n Hin Hl. vm_compute in Hin.
    repeat (destruct Hin as [<-|Hin];
            [vm_compute in Hl; injection Hl as <-; split; reflexivity|]).
    destruct Hin.
  - vm_compute. left. reflexivity.
  - vm_compute. reflexivity.
Defined.

Lemma zoom_keeps_its_bound_witness :
  (scale (zoomIn initialState) <=? 3)%float = true /\
  (0.3 <=? scale (zoomOut initialState))%float = true.
Proof.
  apply (zoom_keeps_its_bound initialState). reflexivity.
Defined.


Lemma recheck_restores_view_witness :
  visibleEdges (uncheckThenCheck (platform := Sample.platform) "p2" (shownOn grid 3))
  = visibleEdges (shownOn grid 3).
Proof.
  exact (proj1 (proj2 (recheck_restores_view (platform := Sample.platform) "p2"
                         (withFilters (criteria grid 3) built)
                         ltac:(vm_compute; right; left; reflexivity)
                         ltac:(vm_compute; reflexivity)))).
Defined.

Lemma rebuild_depends_on_batch_only_witness :
  allEdges (buildEffect (platform := Sample.platform) scenario built)
  = allEdges (buildEffect (platform := Sample.platform) scenario initialState) /\
  length (allNodes (buildEffect (platform := Sample.platform) scenario built))
  = length (allNodes (buildEffect (platform := Sample.platform) scenario initialState)).
Proof.
  destruct (rebuild_depends_on_batch_only (platform := Sample.platform) scenario
              built initialState ltac:(discriminate)) as (He & _ & Hn).
  split; [exact He|]. exact (Forall2_length _ _ _ Hn).
Defined.
